(** * CanvasTimeline: camera, visibility culling and badges

    A shallow embedding of the timeline engine of [CanvasTimeline.tsx]
    (camera transform, visibility and aggregation pass, badge hit
    rectangles, pointer / wheel / imperative camera operations) together
    with the properties of the engine that the specification states.

    JavaScript numbers are modelled by [num]: exact rationals extended with
    [+Infinity], [-Infinity] and [NaN].  Rounding is not modelled (every
    finite operation is exact) and neither is the sign of zero (every zero
    is [+0]).  Where a property depends on the rounding, the operations
    are given again with the rounding explicit ([zoomInRounded],
    [zoomOutRounded]) and on binary64 numbers ([zoomInScale64],
    [zoomOutScale64]). *)

From Stdlib Require Import PrimFloat.
From Stdlib Require Import ZArith QArith Qabs Qminmax Qround Lqa Lia List ListSet String Ascii Bool Arith.
From Stdlib Require Import Permutation Sorted.
From Stdlib Require Import DecimalString.
From Stdlib Require DecimalFacts DecimalNat.
Import ListNotations.

Set Implicit Arguments.

(* ================================================================== *)
(** * JavaScript numbers *)

Declare Scope num_scope.
Delimit Scope num_scope with num.

Inductive num : Type :=
| Fin (q : Q)
| PInf
| NInf
| NaN.

Bind Scope num_scope with num.

Module NumLiteral.
(** Decimal literals: [0.05] is read as [Fin (5 # 100)]. *)
Inductive IQ : Set := IQmake (n : Z) (d : positive).
Inductive INum : Set := IFin (q : IQ).

Definition of_number (n : Number.number) : option INum :=
  match n with
  | Number.Decimal (Decimal.Decimal i f) =>
      let n := Z.of_int (Decimal.app_int i f) in
      let d := Nat.iter (Decimal.nb_digits f) (Pos.mul 10) 1%positive in
      Some (IFin (IQmake n d))
  | _ => None
  end.

Definition to_number (n : INum) : option Number.number :=
  match n with
  | IFin (IQmake n 1) => Some (Number.Decimal (Decimal.Decimal (Z.to_int n) Decimal.Nil))
  | _ => None
  end.
End NumLiteral.

Number Notation num NumLiteral.of_number NumLiteral.to_number
  (via NumLiteral.INum mapping [Fin => NumLiteral.IFin, Qmake => NumLiteral.IQmake])
  : num_scope.

Definition Qlt_bool (a b : Q) : bool := negb (Qle_bool b a).

(** Sign of a rational, as a [comparison] of it with zero. *)
Definition Qsign (q : Q) : comparison := (q ?= 0)%Q.

Definition ofZ (z : Z) : num := Fin (inject_Z z).
Definition ofNat (n : nat) : num := Fin (inject_Z (Z.of_nat n)).

Definition nneg (a : num) : num :=
  match a with
  | Fin x => Fin (- x)
  | PInf => NInf
  | NInf => PInf
  | NaN => NaN
  end.

Definition nadd (a b : num) : num :=
  match a, b with
  | NaN, _ | _, NaN => NaN
  | Fin x, Fin y => Fin (x + y)
  | PInf, NInf | NInf, PInf => NaN
  | PInf, _ | _, PInf => PInf
  | NInf, _ | _, NInf => NInf
  end.

Definition nsub (a b : num) : num := nadd a (nneg b).

(** An infinity of the sign of [c]; [NaN] for the product with zero. *)
Definition inf_of_sign (c : comparison) : num :=
  match c with
  | Gt => PInf
  | Lt => NInf
  | Eq => NaN
  end.

Definition nsign (a : num) : comparison :=
  match a with
  | Fin x => Qsign x
  | PInf => Gt
  | NInf => Lt
  | NaN => Eq
  end.

Definition sign_mul (c d : comparison) : comparison :=
  match c, d with
  | Eq, _ | _, Eq => Eq
  | Gt, Gt | Lt, Lt => Gt
  | _, _ => Lt
  end.

Definition nmul (a b : num) : num :=
  match a, b with
  | NaN, _ | _, NaN => NaN
  | Fin x, Fin y => Fin (x * y)
  | _, _ => inf_of_sign (sign_mul (nsign a) (nsign b))
  end.

(** Division: a zero divisor is [+0], so [x / 0] is the infinity of the
    sign of [x], and [0 / 0] is [NaN]. *)
Definition ndiv (a b : num) : num :=
  match a, b with
  | NaN, _ | _, NaN => NaN
  | Fin x, Fin y =>
      if Qeq_bool y 0 then inf_of_sign (Qsign x) else Fin (x / y)
  | Fin _, _ => Fin 0
  | _, Fin y =>
      match Qsign y with
      | Lt => nneg a
      | _ => a
      end
  | _, _ => NaN
  end.

(** [Math.min] and [Math.max]. *)
Definition nmin (a b : num) : num :=
  match a, b with
  | NaN, _ | _, NaN => NaN
  | Fin x, Fin y => if Qle_bool x y then a else b
  | NInf, _ | _, NInf => NInf
  | PInf, _ => b
  | _, PInf => a
  end.

Definition nmax (a b : num) : num :=
  match a, b with
  | NaN, _ | _, NaN => NaN
  | Fin x, Fin y => if Qle_bool x y then b else a
  | PInf, _ | _, PInf => PInf
  | NInf, _ => b
  | _, NInf => a
  end.

(** [Math.abs]. *)
Definition nabs (a : num) : num :=
  match a with
  | Fin x => Fin (Qabs x)
  | PInf | NInf => PInf
  | NaN => NaN
  end.

(** Comparisons [<=], [<] and [===]; all false on [NaN]. *)
Definition nle (a b : num) : bool :=
  match a, b with
  | NaN, _ | _, NaN => false
  | Fin x, Fin y => Qle_bool x y
  | NInf, _ | _, PInf => true
  | _, _ => false
  end.

Definition nlt (a b : num) : bool :=
  match a, b with
  | NaN, _ | _, NaN => false
  | Fin x, Fin y => Qlt_bool x y
  | PInf, _ | _, NInf => false
  | _, _ => true
  end.

Definition neqb (a b : num) : bool :=
  match a, b with
  | Fin x, Fin y => Qeq_bool x y
  | PInf, PInf | NInf, NInf => true
  | _, _ => false
  end.

(** Truthiness of a number ([0] and [NaN] are falsy). *)
Definition truthy (a : num) : bool :=
  match a with
  | Fin x => negb (Qeq_bool x 0)
  | NaN => false
  | _ => true
  end.

Definition is_finite (a : num) : Prop :=
  match a with
  | Fin _ => True
  | _ => False
  end.

Infix "+" := nadd : num_scope.
Infix "-" := nsub : num_scope.
Infix "*" := nmul : num_scope.
Infix "/" := ndiv : num_scope.
Notation "- x" := (nneg x) : num_scope.
Infix "<=?" := nle : num_scope.
Infix "<?" := nlt : num_scope.
Notation "x >=? y" := (nle y x) (at level 70) : num_scope.
Notation "x >? y" := (nlt y x) (at level 70) : num_scope.
Infix "=?" := neqb : num_scope.
Notation "x <= y" := (nle x y = true) : num_scope.
Notation "x < y" := (nlt x y = true) : num_scope.
Notation "x == y" := (neqb x y = true) : num_scope.

Open Scope num_scope.

(* ================================================================== *)
(** * Record model ([types/index.ts]) *)

Inductive Era : Set := BCE | CE.

(** [DateSpec]; the engine reads [year] and [era] only.  An ordering year
    is a signed integer. *)
Record DateSpec : Set := {
  year : Z;
  era : Era
}.

(** [TimelineEntry], restricted to the fields the engine reads. *)
Record TimelineEntry : Set := {
  id : string;
  date_start : DateSpec;
  date_end : option DateSpec;
  title : string;
  group_dynasty : string;
  group_era : string;
  image_url : option string
}.

Inductive GroupingMode : Set := dynasty | era_mode.

Record LayoutEntry : Type := {
  le_entry : TimelineEntry;
  le_row : nat;
  le_group : string
}.

(** A [PositionedEvent].  [ref] stands for the identity of the JavaScript
    object ([===] on objects compares references): it is the index of the
    object in the array that [computeLayout] allocates. *)
Record PositionedEvent : Type := {
  ref : nat;
  entry : TimelineEntry;
  x : num;
  y : num;
  width : num;
  height : num;
  group : string;
  row : nat
}.

Record Group : Type := {
  key : string;
  entries : list TimelineEntry;
  g_y : num;
  g_height : num
}.

Record BadgeHitRect : Type := {
  b_x : num;
  b_y : num;
  b_w : num;
  b_h : num;
  b_minYear : num;
  b_maxYear : num;
  b_rightmostLabelWidth : num
}.

(** An element of the per-frame [hiddenBadges] array. *)
Record HiddenBadge : Type := {
  afterPos : PositionedEvent;
  beforePos : PositionedEvent;
  count : nat;
  yearMin : num;
  yearMax : num;
  rightmostLabelWidth : num
}.

Record ViewState : Type := {
  offsetX : num;
  offsetY : num;
  scale : num
}.

Record Dimensions : Type := {
  dim_width : num;
  dim_height : num
}.

(* ------------------------------------------------------------------ *)
(** ** Constants *)

Definition ROW_HEIGHT : num := 28.
Definition MARKER_PADDING : num := 4.
Definition AXIS_HEIGHT : num := 40.
Definition GROUP_LABEL_WIDTH : num := 160.
Definition SCROLL_SPEED : num := 0.75.
Definition ZOOM_SPEED : num := 0.025.
Definition LERP_FACTOR : num := 0.25.
Definition DOT_RADIUS : num := 5.
Definition EVENT_PADDING : num := 12.
Definition ICON_SIZE : num := 20.
Definition LAYOUT_SCALE : num := 0.5.
Definition OVERLAP_GAP : num := 5.

(* ------------------------------------------------------------------ *)
(** ** Pure utility functions *)

(** [a || b] on numbers. *)
Definition nor (a b : num) : num := if truthy a then a else b.

Definition dateYear (date : DateSpec) : num :=
  match era date with
  | BCE => ofZ (- Z.abs (year date))
  | CE => ofZ (year date)
  end.

Definition getYear (e : TimelineEntry) (isEnd : bool) : num :=
  let date :=
    match isEnd, date_end e with
    | true, Some d => d
    | _, _ => date_start e
    end in
  dateYear date.

Definition string_of_Z (z : Z) : string := NilZero.string_of_int (Z.to_int z).

Definition formatYear (dateSpec : DateSpec) : string :=
  match era dateSpec with
  | BCE => String.append "-" (string_of_Z (Z.abs (year dateSpec)))
  | CE => string_of_Z (year dateSpec)
  end.

Definition pixelsToYears (px scale : num) : num := px / (scale * 10).

Definition lerp (start finish t : num) : num := start + (finish - start) * t.

(** [entry.image_url] as a condition: a string that is not empty. *)
Definition hasImage (e : TimelineEntry) : bool :=
  match image_url e with
  | Some u => negb (String.eqb u "")
  | None => false
  end.

Definition isPeriod (e : TimelineEntry) : bool :=
  match date_end e with
  | Some _ => true
  | None => false
  end.

(** A JavaScript [Map] with string keys, in insertion order. *)
Section StringMap.
Variable V : Type.

Fixpoint map_get (k : string) (m : list (string * V)) : option V :=
  match m with
  | [] => None
  | (k', v) :: m' => if String.eqb k k' then Some v else map_get k m'
  end.

Fixpoint map_set (k : string) (v : V) (m : list (string * V)) : list (string * V) :=
  match m with
  | [] => [(k, v)]
  | (k', v') :: m' =>
      if String.eqb k k' then (k', v) :: m' else (k', v') :: map_set k v m'
  end.

Definition map_has (k : string) (m : list (string * V)) : bool :=
  match map_get k m with
  | Some _ => true
  | None => false
  end.
End StringMap.

(** [Array.prototype.sort] with a comparator: a stable sort. *)
Section Sort.
Variable A : Type.
Variable cmp : A -> A -> num.

Fixpoint insertSorted (a : A) (l : list A) : list A :=
  match l with
  | [] => [a]
  | b :: l' => if cmp b a >? 0 then a :: b :: l' else b :: insertSorted a l'
  end.

Definition jsSort (l : list A) : list A :=
  fold_left (fun acc a => insertSorted a acc) l [].
End Sort.

(* ================================================================== *)
(** * The engine

    [measureText font text] stands for [ctx.measureText(text).width] with
    [ctx.font = font]; it belongs to the browser. *)

Section Engine.

Variable measureText : string -> string -> num.

Definition measureEventWidth (e : TimelineEntry) : num :=
  let yearStr := formatYear (date_start e) in
  let yearWidth := measureText "bold 10px system-ui, sans-serif" yearStr in
  let titleWidth := measureText "11px system-ui, sans-serif" (title e) in
  let leftWidth :=
    if hasImage e then ICON_SIZE + ICON_SIZE / 2 + 4 else DOT_RADIUS in
  leftWidth + EVENT_PADDING + yearWidth + 6 + titleWidth + EVENT_PADDING.

(* ------------------------------------------------------------------ *)
(** ** Year range and minimum scale *)

(** The [reduce] over the entries, from [{Infinity, -Infinity}]. *)
Definition yearBoundsStep (acc : num * num) (e : TimelineEntry) : num * num :=
  let startYear := getYear e false in
  let endYear := if isPeriod e then getYear e true else startYear in
  (nmin (fst acc) startYear, nmax (snd acc) endYear).

Definition yearBounds (es : list TimelineEntry) : num * num :=
  match es with
  | [] => (0, 100)
  | _ => fold_left yearBoundsStep es (PInf, NInf)
  end.

Definition minYearOf (es : list TimelineEntry) : num := fst (yearBounds es).
Definition maxYearOf (es : list TimelineEntry) : num := snd (yearBounds es).

Definition minScale (dimensions : Dimensions) (minYear maxYear : num) : num :=
  nmin 0.05 ((dim_width dimensions - GROUP_LABEL_WIDTH - 100) / ((maxYear - minYear) * 10)).

(* ------------------------------------------------------------------ *)
(** ** Year <-> pixel mapping *)

Definition yearToX (minYear : num) (viewState : ViewState) (year : num) : num :=
  let pixelsPerYear := scale viewState * 10 in
  (year - minYear) * pixelsPerYear + offsetX viewState + GROUP_LABEL_WIDTH + 50.

Definition xToYear (minYear : num) (viewState : ViewState) (px : num) : num :=
  let pixelsPerYear := scale viewState * 10 in
  (px - offsetX viewState - GROUP_LABEL_WIDTH - 50) / pixelsPerYear + minYear.

(* ------------------------------------------------------------------ *)
(** ** Stable row layout *)

Definition getGroupKey (groupingMode : GroupingMode) (e : TimelineEntry) : string :=
  let k :=
    match groupingMode with
    | dynasty => group_dynasty e
    | era_mode => group_era e
    end in
  if String.eqb k "" then "Non classé" else k.

(** The first loop: fills [groupMap] and [groupFirstYear]. *)
Definition groupStep (groupingMode : GroupingMode)
    (acc : list (string * list TimelineEntry) * list (string * num))
    (e : TimelineEntry) : list (string * list TimelineEntry) * list (string * num) :=
  let '(groupMap, groupFirstYear) := acc in
  let k := getGroupKey groupingMode e in
  let yr := getYear e false in
  let groupFirstYear :=
    match map_get k groupFirstYear with
    | None => map_set k yr groupFirstYear
    | Some existing =>
        if yr <? existing then map_set k yr groupFirstYear else groupFirstYear
    end in
  let groupMap :=
    if map_has k groupMap then groupMap else map_set k [] groupMap in
  let groupMap :=
    match map_get k groupMap with
    | Some l => map_set k (l ++ [e]) groupMap
    | None => groupMap
    end in
  (groupMap, groupFirstYear).

Definition firstYearOr0 (groupFirstYear : list (string * num)) (k : string) : num :=
  match map_get k groupFirstYear with
  | Some v => nor v 0
  | None => 0
  end.

(** [while (rows[row] && rows[row].endYear > startYear - gap) row++] *)
Fixpoint findRow (rows : list num) (startYear gap : num) (row : nat) : nat :=
  match rows with
  | [] => row
  | endYear :: rows' =>
      if endYear >? startYear - gap
      then findRow rows' startYear gap (S row)
      else row
  end.

(** [rows[row] = v], for [row <= rows.length]. *)
Fixpoint setRow (rows : list num) (row : nat) (v : num) : list num :=
  match rows, row with
  | [], _ => [v]
  | _ :: rows', O => v :: rows'
  | r :: rows', S n => r :: setRow rows' n v
  end.

Definition packStep (groupKey : string)
    (acc : list num * list LayoutEntry) (e : TimelineEntry)
    : list num * list LayoutEntry :=
  let '(rows, layoutEntries) := acc in
  let startYear := getYear e false in
  let textYearWidth := pixelsToYears (measureEventWidth e) LAYOUT_SCALE in
  let endYear :=
    if isPeriod e
    then nmax (getYear e true) (startYear + textYearWidth)
    else startYear + textYearWidth in
  let gap := pixelsToYears 5 LAYOUT_SCALE in
  let row := findRow rows startYear gap 0 in
  (setRow rows row (endYear + gap),
   layoutEntries ++ [{| le_entry := e; le_row := row; le_group := groupKey |}]).

Record PackedGroup : Type := {
  pg_key : string;
  pg_entries : list TimelineEntry;
  pg_rowCount : nat
}.

Definition packGroups (groupMap : list (string * list TimelineEntry))
    (acc : list LayoutEntry * list PackedGroup) (groupKey : string)
    : list LayoutEntry * list PackedGroup :=
  let '(layoutEntries, groups) := acc in
  let groupEntries :=
    match map_get groupKey groupMap with
    | Some l => l
    | None => []
    end in
  let groupEntries :=
    jsSort (fun a b => getYear a false - getYear b false) groupEntries in
  let '(rows, layoutEntries) :=
    fold_left (packStep groupKey) groupEntries ([], layoutEntries) in
  (layoutEntries,
   groups ++ [{| pg_key := groupKey; pg_entries := groupEntries;
                 pg_rowCount := Nat.max (List.length rows) 1 |}]).

Definition placeGroup (acc : num * list Group) (g : PackedGroup) : num * list Group :=
  let '(currentY, groupPositions) := acc in
  let h := ofNat (pg_rowCount g) * ROW_HEIGHT in
  (currentY + h,
   groupPositions ++ [{| key := pg_key g; entries := pg_entries g;
                         g_y := currentY; g_height := h |}]).

Record StableLayout : Type := {
  layoutEntries : list LayoutEntry;
  groups : list Group;
  totalHeight : num
}.

Definition stableLayout (es : list TimelineEntry) (groupingMode : GroupingMode)
    : StableLayout :=
  let '(groupMap, groupFirstYear) :=
    fold_left (groupStep groupingMode) es ([], []) in
  let sortedGroupKeys :=
    jsSort (fun a b => firstYearOr0 groupFirstYear a - firstYearOr0 groupFirstYear b)
           (map fst groupMap) in
  let '(layoutEntries, groups) :=
    fold_left (packGroups groupMap) sortedGroupKeys ([], []) in
  let '(currentY, groupPositions) :=
    fold_left placeGroup groups (AXIS_HEIGHT, []) in
  {| layoutEntries := layoutEntries; groups := groupPositions;
     totalHeight := currentY |}.

(* ------------------------------------------------------------------ *)
(** ** Projection to pixels *)

Definition projectEntry (minYear : num) (viewState : ViewState)
    (groupYMap : list (string * num)) (i : nat) (le : LayoutEntry)
    : PositionedEvent :=
  let startX := yearToX minYear viewState (getYear (le_entry le) false) in
  let w :=
    if isPeriod (le_entry le)
    then
      let endX := yearToX minYear viewState (getYear (le_entry le) true) in
      nmax (endX - startX) (measureEventWidth (le_entry le))
    else measureEventWidth (le_entry le) in
  let groupY :=
    match map_get (le_group le) groupYMap with
    | Some v => nor v AXIS_HEIGHT
    | None => AXIS_HEIGHT
    end in
  {| ref := i;
     entry := le_entry le;
     x := startX;
     y := groupY + ofNat (le_row le) * ROW_HEIGHT;
     width := w;
     height := ROW_HEIGHT - MARKER_PADDING;
     group := le_group le;
     row := le_row le |}.

Fixpoint mapi_from (A B : Type) (f : nat -> A -> B) (i : nat) (l : list A) : list B :=
  match l with
  | [] => []
  | a :: l' => f i a :: mapi_from f (S i) l'
  end.

Definition computeLayout (sl : StableLayout) (minYear : num) (viewState : ViewState)
    : list PositionedEvent :=
  let groupYMap :=
    fold_left (fun m g => map_set (key g) (g_y g) m) (groups sl) [] in
  mapi_from (projectEntry minYear viewState groupYMap) 0 (layoutEntries sl).

(* ------------------------------------------------------------------ *)
(** ** Visibility culling and hidden-run badges *)

Definition string_of_nat (n : nat) : string := NilZero.string_of_uint (Nat.to_uint n).

(** The row key [`${pos.group}:${pos.row}`]. *)
Definition rowKey (pos : PositionedEvent) : string :=
  String.append (group pos) (String.append ":" (string_of_nat (row pos))).

Definition rowEventsStep (rowEvents : list (string * list PositionedEvent))
    (pos : PositionedEvent) : list (string * list PositionedEvent) :=
  let rk := rowKey pos in
  let rowEvents :=
    if map_has rk rowEvents then rowEvents else map_set rk [] rowEvents in
  match map_get rk rowEvents with
  | Some l => map_set rk (l ++ [pos]) rowEvents
  | None => rowEvents
  end.

Definition groupRows (positioned : list PositionedEvent)
    : list (string * list PositionedEvent) :=
  fold_left rowEventsStep positioned [].

(** [visibleSet] is a [Set<string>] of entry ids. *)
Definition set_add_id (s : string) (visibleSet : list string) : list string :=
  set_add string_dec s visibleSet.

Definition set_has_id (s : string) (visibleSet : list string) : bool :=
  set_mem string_dec s visibleSet.

Record Visibility : Type := {
  visibleSet : list string;
  hiddenBadges : list HiddenBadge
}.

(** The years a badge covers. *)
Definition badgeYearMax (p : PositionedEvent) : num :=
  nor (getYear (entry p) true) (getYear (entry p) false).

(** Body of [for (let i = 1; i < events.length; i++)]; the state is
    [lastVisibleIdx] with the two accumulators.  Indices are in range for
    every [i] the loop visits. *)
Definition scanStep (events : list PositionedEvent)
    (st : nat * Visibility) (i : nat) : nat * Visibility :=
  let '(lastVisibleIdx, v) := st in
  match nth_error events (i - 1), nth_error events i,
        nth_error events lastVisibleIdx with
  | Some prev, Some curr, Some lastVisible =>
      if x curr >=? x prev + width prev + OVERLAP_GAP then
        let hiddenCount := (i - lastVisibleIdx - 1)%nat in
        let hiddenBadges :=
          if (0 <? hiddenCount)%nat then
            hiddenBadges v ++
              [{| afterPos := lastVisible; beforePos := curr;
                  count := hiddenCount;
                  yearMin := getYear (entry lastVisible) false;
                  yearMax := badgeYearMax curr;
                  rightmostLabelWidth := measureEventWidth (entry curr) |}]
          else hiddenBadges v in
        (i, {| visibleSet := set_add_id (id (entry curr)) (visibleSet v);
               hiddenBadges := hiddenBadges |})
      else st
  | _, _, _ => st
  end.

(** Body of [for (const [, events] of rowEvents)]. *)
Definition processRow (v : Visibility) (events : list PositionedEvent) : Visibility :=
  match events with
  | [] => v
  | first :: _ =>
      let v := {| visibleSet := set_add_id (id (entry first)) (visibleSet v);
                  hiddenBadges := hiddenBadges v |} in
      let '(lastVisibleIdx, v) :=
        fold_left (scanStep events) (seq 1 (List.length events - 1)) (0%nat, v) in
      let trailingHidden := (List.length events - 1 - lastVisibleIdx)%nat in
      if (0 <? trailingHidden)%nat then
        match nth_error events lastVisibleIdx, last events first with
        | Some lastVisible, lastEv =>
            {| visibleSet := visibleSet v;
               hiddenBadges :=
                 hiddenBadges v ++
                   [{| afterPos := lastVisible; beforePos := lastVisible;
                       count := trailingHidden;
                       yearMin := getYear (entry lastVisible) false;
                       yearMax := badgeYearMax lastEv;
                       rightmostLabelWidth := measureEventWidth (entry lastEv) |}] |}
        | None, _ => v
        end
      else v
  end.

Definition cullRows (rowEvents : list (string * list PositionedEvent)) : Visibility :=
  fold_left processRow (map snd rowEvents)
            {| visibleSet := []; hiddenBadges := [] |}.

(** The whole pass, with the selected entry forced into the visible set. *)
Definition visibility (positioned : list PositionedEvent)
    (selectedEntry : option TimelineEntry) : Visibility :=
  let v := cullRows (groupRows positioned) in
  match selectedEntry with
  | Some s => {| visibleSet := set_add_id (id s) (visibleSet v);
                 hiddenBadges := hiddenBadges v |}
  | None => v
  end.

(* ------------------------------------------------------------------ *)
(** ** Badge painting and hit rectangles *)

Inductive DrawOp : Type :=
| RoundRect (rx ry rw rh rr : num)
| FillText (text : string) (tx ty : num).

Definition badgeH : num := 16.

Definition badgeLabel (b : HiddenBadge) : string :=
  String.append "+" (string_of_nat (count b)).

(** One iteration of the badge loop; [None] is a [continue]. *)
Definition paintBadge (dimensions : Dimensions) (viewState : ViewState)
    (b : HiddenBadge) : option (list DrawOp * BadgeHitRect) :=
  let py := y (afterPos b) + offsetY viewState in
  if (py + height (afterPos b) <? AXIS_HEIGHT) || (py >? dim_height dimensions)
  then None
  else
    let afterEndX := x (afterPos b) + width (afterPos b) in
    let isTrailing := Nat.eqb (ref (afterPos b)) (ref (beforePos b)) in
    let placed : option num :=
      if isTrailing then Some (afterEndX + 4)
      else
        let beforeStartX := x (beforePos b) in
        let gapWidth := beforeStartX - afterEndX in
        if gapWidth <? 24 then None
        else
          let tw := measureText "9px system-ui, sans-serif" (badgeLabel b) in
          Some (afterEndX + (gapWidth - tw - 8) / 2) in
    match placed with
    | None => None
    | Some bx =>
        if (bx >? dim_width dimensions) || (bx + 40 <? GROUP_LABEL_WIDTH)
        then None
        else
          let tw := measureText "9px system-ui, sans-serif" (badgeLabel b) in
          let bw := tw + 8 in
          let by_ := py + (height (afterPos b) - badgeH) / 2 in
          Some ([RoundRect bx by_ bw badgeH 3;
                 FillText (badgeLabel b) (bx + bw / 2) (by_ + badgeH / 2)],
                {| b_x := bx; b_y := by_; b_w := bw; b_h := badgeH;
                   b_minYear := yearMin b; b_maxYear := yearMax b;
                   b_rightmostLabelWidth := rightmostLabelWidth b |})
    end.

Definition paintBadges (dimensions : Dimensions) (viewState : ViewState)
    (hidden : list HiddenBadge) : list DrawOp * list BadgeHitRect :=
  fold_left
    (fun acc b =>
       match paintBadge dimensions viewState b with
       | Some (ops, r) => (fst acc ++ ops, snd acc ++ [r])
       | None => acc
       end)
    hidden ([], []).

(* ------------------------------------------------------------------ *)
(** ** Component state and camera operations *)

Record DragStart : Type := {
  ds_x : num;
  ds_y : num;
  ds_offsetX : num;
  ds_offsetY : num
}.

(** Props, React state and refs of the component.  Hover and tooltip
    state are left out. *)
Record Timeline : Type := {
  t_entries : list TimelineEntry;
  groupingMode : GroupingMode;
  selectedEntry : option TimelineEntry;
  dimensions : Dimensions;
  viewState : ViewState;
  isDragging : bool;
  dragStart : DragStart;
  targetState : ViewState;
  isAnimating : bool;
  hasDragged : bool;
  positionedEvents : list PositionedEvent;
  totalHeightRef : num;
  badgeHitRects : list BadgeHitRect
}.

Definition minYear (t : Timeline) : num := minYearOf (t_entries t).
Definition maxYear (t : Timeline) : num := maxYearOf (t_entries t).
Definition t_minScale (t : Timeline) : num :=
  minScale (dimensions t) (minYear t) (maxYear t).
Definition t_stableLayout (t : Timeline) : StableLayout :=
  stableLayout (t_entries t) (groupingMode t).

Definition withTarget (t : Timeline) (target : ViewState) (animating : bool) : Timeline :=
  {| t_entries := t_entries t; groupingMode := groupingMode t;
     selectedEntry := selectedEntry t; dimensions := dimensions t;
     viewState := viewState t; isDragging := isDragging t;
     dragStart := dragStart t; targetState := target;
     isAnimating := animating; hasDragged := hasDragged t;
     positionedEvents := positionedEvents t;
     totalHeightRef := totalHeightRef t; badgeHitRects := badgeHitRects t |}.

(** [setTargetState(updater)]: update the target, start the animation. *)
Definition setTargetState (t : Timeline) (updater : ViewState -> ViewState) : Timeline :=
  withTarget t (updater (targetState t)) true.

(** One frame of [animateToTarget]. *)
Definition animateToTarget (t : Timeline) : Timeline :=
  let target := targetState t in
  let prev := viewState t in
  let newOffsetX := lerp (offsetX prev) (offsetX target) LERP_FACTOR in
  let newOffsetY := lerp (offsetY prev) (offsetY target) LERP_FACTOR in
  let newScale := lerp (scale prev) (scale target) LERP_FACTOR in
  let offsetXDiff := nabs (offsetX target - newOffsetX) in
  let offsetYDiff := nabs (offsetY target - newOffsetY) in
  let scaleDiff := nabs (scale target - newScale) in
  let settle :=
    (offsetXDiff <? 0.5) && (offsetYDiff <? 0.5) && (scaleDiff <? 0.0001) in
  {| t_entries := t_entries t; groupingMode := groupingMode t;
     selectedEntry := selectedEntry t; dimensions := dimensions t;
     viewState :=
       if settle then target
       else {| offsetX := newOffsetX; offsetY := newOffsetY; scale := newScale |};
     isDragging := isDragging t; dragStart := dragStart t;
     targetState := target;
     isAnimating := if settle then false else isAnimating t;
     hasDragged := hasDragged t;
     positionedEvents := positionedEvents t;
     totalHeightRef := totalHeightRef t; badgeHitRects := badgeHitRects t |}.

(** The draw effect, as far as it writes the refs the handlers read. *)
Definition draw (t : Timeline) : Timeline :=
  let sl := t_stableLayout t in
  let positioned := computeLayout sl (minYear t) (viewState t) in
  let v := visibility positioned (selectedEntry t) in
  let '(_, rects) := paintBadges (dimensions t) (viewState t) (hiddenBadges v) in
  {| t_entries := t_entries t; groupingMode := groupingMode t;
     selectedEntry := selectedEntry t; dimensions := dimensions t;
     viewState := viewState t; isDragging := isDragging t;
     dragStart := dragStart t; targetState := targetState t;
     isAnimating := isAnimating t; hasDragged := hasDragged t;
     positionedEvents := positioned;
     totalHeightRef := totalHeight sl; badgeHitRects := rects |}.

(** [zoomIn] and [zoomOut], in exact arithmetic; [zoomInRounded] and
    [zoomOutRounded] below make the rounding explicit. *)
Definition zoomIn (t : Timeline) : Timeline :=
  setTargetState t (fun prev =>
    {| offsetX := offsetX prev; offsetY := offsetY prev;
       scale := nmin 5 (scale prev * 1.3) |}).

Definition zoomOut (t : Timeline) : Timeline :=
  setTargetState t (fun prev =>
    {| offsetX := offsetX prev; offsetY := offsetY prev;
       scale := nmax (t_minScale t) (scale prev / 1.3) |}).

Definition findPos (ident : string) (l : list PositionedEvent) : option PositionedEvent :=
  find (fun p => String.eqb (id (entry p)) ident) l.

Definition fit (t : Timeline) : Timeline :=
  let yearRange := maxYear t - minYear t in
  let availableWidth := dim_width (dimensions t) - GROUP_LABEL_WIDTH - 100 in
  let newScale := availableWidth / (yearRange * 10) in
  let finalScale := nmax (t_minScale t) (nmin 5 newScale) in
  let contentHeight := totalHeight (t_stableLayout t) - AXIS_HEIGHT in
  let viewportHeight := dim_height (dimensions t) - AXIS_HEIGHT in
  let newOffsetY :=
    if contentHeight <=? viewportHeight then (viewportHeight - contentHeight) / 2
    else
      match selectedEntry t with
      | Some s =>
          match findPos (id s) (positionedEvents t) with
          | Some pos =>
              let oy := - (y pos - dim_height (dimensions t) / 2
                           + ROW_HEIGHT / 2 - AXIS_HEIGHT) in
              let minOffsetY :=
                nmin 0 (dim_height (dimensions t) - AXIS_HEIGHT
                        - totalHeight (t_stableLayout t)) in
              nmax minOffsetY (nmin 0 oy)
          | None => 0
          end
      | None => 0
      end in
  let newOffsetX :=
    match selectedEntry t with
    | Some s =>
        let entryYear :=
          match era (date_start s) with
          | BCE => ofZ (- year (date_start s))
          | CE => ofZ (year (date_start s))
          end in
        let pixelsPerYear := finalScale * 10 in
        - (entryYear - minYear t) * pixelsPerYear
        + (dim_width (dimensions t) - GROUP_LABEL_WIDTH) / 2 - 50
    | None => 0
    end in
  setTargetState t (fun _ =>
    {| offsetX := newOffsetX; offsetY := newOffsetY; scale := finalScale |}).

(** [findIndex]; [None] stands for [-1]. *)
Fixpoint findIndex (A : Type) (f : A -> bool) (l : list A) : option nat :=
  match l with
  | [] => None
  | a :: l' =>
      if f a then Some 0%nat
      else match findIndex f l' with
           | Some i => Some (S i)
           | None => None
           end
  end.

Definition scrollToEntry (t : Timeline) (e : TimelineEntry) : Timeline :=
  match findPos (id e) (positionedEvents t) with
  | None => t
  | Some pos =>
      let entryYear := getYear e false in
      let entryWidth := measureEventWidth e in
      let sameRow :=
        jsSort (fun a b => getYear (entry a) false - getYear (entry b) false)
          (filter (fun p => String.eqb (group p) (group pos)
                            && Nat.eqb (row p) (row pos))
                  (positionedEvents t)) in
      let idx := findIndex (fun p => String.eqb (id (entry p)) (id e)) sameRow in
      let neededScale : num := 0 in
      let neededScale :=
        match idx with
        | Some (S i) =>
            match nth_error sameRow i with
            | Some leftPos =>
                let yearGap := entryYear - getYear (entry leftPos) false in
                if yearGap >? 0
                then nmax neededScale
                       ((measureEventWidth (entry leftPos) + OVERLAP_GAP) / (yearGap * 10))
                else neededScale
            | None => neededScale
            end
        | _ => neededScale
        end in
      let neededScale :=
        (* [idx + 1], where [findIndex] returned [-1] for [None] *)
        let next := match idx with Some i => S i | None => 0%nat end in
        match nth_error sameRow next with
        | Some rightPos =>
            let yearGap := getYear (entry rightPos) false - entryYear in
            if yearGap >? 0
            then nmax neededScale ((entryWidth + OVERLAP_GAP) / (yearGap * 10))
            else neededScale
        | None => neededScale
        end in
      let finalScale :=
        if neededScale >? 0 then nmin 5 (neededScale * 1.1)
        else scale (targetState t) in
      let pixelsPerYear := finalScale * 10 in
      let targetX :=
        - (entryYear - minYear t) * pixelsPerYear
        + (dim_width (dimensions t) - GROUP_LABEL_WIDTH) / 2 - 50 in
      let targetY :=
        - (y pos - dim_height (dimensions t) / 2 + ROW_HEIGHT / 2 - AXIS_HEIGHT) in
      setTargetState t (fun _ =>
        {| offsetX := targetX; offsetY := targetY; scale := finalScale |})
  end.

(* ------------------------------------------------------------------ *)
(** ** Pointer and wheel handlers *)

(** [canvas.getBoundingClientRect()], as far as it is read. *)
Record Rect : Type := {
  rect_left : num;
  rect_top : num
}.

Record MouseEvent : Type := {
  clientX : num;
  clientY : num
}.

Record WheelEvent : Type := {
  w_clientX : num;
  deltaX : num;
  deltaY : num;
  ctrlKey : bool;
  metaKey : bool;
  shiftKey : bool
}.

Definition handleMouseDown (t : Timeline) (e : MouseEvent) : Timeline :=
  {| t_entries := t_entries t; groupingMode := groupingMode t;
     selectedEntry := selectedEntry t; dimensions := dimensions t;
     viewState := viewState t; isDragging := true;
     dragStart := {| ds_x := clientX e; ds_y := clientY e;
                     ds_offsetX := offsetX (targetState t);
                     ds_offsetY := offsetY (targetState t) |};
     targetState := targetState t; isAnimating := false; hasDragged := false;
     positionedEvents := positionedEvents t;
     totalHeightRef := totalHeightRef t; badgeHitRects := badgeHitRects t |}.

(** [handleMouseMove]; when no drag is in progress only hover state
    changes, which the model leaves out. *)
Definition handleMouseMove (t : Timeline) (e : MouseEvent) : Timeline :=
  if isDragging t then
    let dx := clientX e - ds_x (dragStart t) in
    let dy := clientY e - ds_y (dragStart t) in
    let dragged := (nabs dx >? 5) || (nabs dy >? 5) in
    let maxOffsetY : num := 0 in
    let minOffsetY :=
      nmin 0 (dim_height (dimensions t) - AXIS_HEIGHT - totalHeightRef t) in
    let newOffsetX := ds_offsetX (dragStart t) + dx in
    let newOffsetY :=
      nmax minOffsetY (nmin maxOffsetY (ds_offsetY (dragStart t) + dy)) in
    let newState :=
      {| offsetX := newOffsetX; offsetY := newOffsetY;
         scale := scale (viewState t) |} in
    {| t_entries := t_entries t; groupingMode := groupingMode t;
       selectedEntry := selectedEntry t; dimensions := dimensions t;
       viewState := newState; isDragging := isDragging t;
       dragStart := dragStart t; targetState := newState;
       isAnimating := isAnimating t;
       hasDragged := if dragged then true else hasDragged t;
       positionedEvents := positionedEvents t;
       totalHeightRef := totalHeightRef t; badgeHitRects := badgeHitRects t |}
  else t.

Definition hitBadge (px py : num) (badge : BadgeHitRect) : bool :=
  (px >=? b_x badge) && (px <=? b_x badge + b_w badge)
  && (py >=? b_y badge) && (py <=? b_y badge + b_h badge).

Definition hitEvent (viewState : ViewState) (px py : num) (pos : PositionedEvent) : bool :=
  let posY := y pos + offsetY viewState in
  (px >=? x pos) && (px <=? x pos + width pos)
  && (py >=? posY) && (py <=? posY + height pos).

(** The zoom-to-fit a badge click asks for. *)
Definition badgeClickTarget (t : Timeline) (badge : BadgeHitRect)
    (prev : ViewState) : ViewState :=
  let yearRange := b_maxYear badge - b_minYear badge in
  let padding := nmax (yearRange * 0.15) 20 in
  let fitMin := b_minYear badge - padding in
  let fitMax := b_maxYear badge + padding in
  let fitRange := fitMax - fitMin in
  let availableWidth :=
    dim_width (dimensions t) - GROUP_LABEL_WIDTH - b_rightmostLabelWidth badge in
  let newScale := nmax 0.05 (nmin 5 (availableWidth / (fitRange * 10))) in
  let newOffsetX := - (fitMin - minYear t) * newScale * 10 - 50 in
  {| offsetX := newOffsetX; offsetY := offsetY prev; scale := newScale |}.

(** [handleClick]; the second component is the call of [onSelectEntry],
    if one is made. *)
Definition handleClick (t : Timeline) (rect : Rect) (e : MouseEvent)
    : Timeline * option (option TimelineEntry) :=
  if hasDragged t then (t, None)
  else
    let px := clientX e - rect_left rect in
    let py := clientY e - rect_top rect in
    if (px <? GROUP_LABEL_WIDTH) || (py <? AXIS_HEIGHT) then (t, None)
    else
      match find (hitBadge px py) (badgeHitRects t) with
      | Some badge => (setTargetState t (badgeClickTarget t badge), None)
      | None =>
          match find (hitEvent (viewState t) px py) (positionedEvents t) with
          | Some pos => (t, Some (Some (entry pos)))
          | None => (t, Some None)
          end
      end.

Definition handleWheel (t : Timeline) (rect : Rect) (e : WheelEvent) : Timeline :=
  let mouseX := w_clientX e - rect_left rect in
  let vs := viewState t in
  if ctrlKey e || metaKey e then
    let zoomFactor := 1 - deltaY e * ZOOM_SPEED in
    let currentPixelsPerYear := scale vs * 10 in
    let yearAtMouse :=
      (mouseX - offsetX vs - GROUP_LABEL_WIDTH - 50) / currentPixelsPerYear
      + minYear t in
    let newScale := nmax (t_minScale t) (nmin 5 (scale vs * zoomFactor)) in
    let newPixelsPerYear := newScale * 10 in
    let newOffsetX :=
      mouseX - (yearAtMouse - minYear t) * newPixelsPerYear
      - GROUP_LABEL_WIDTH - 50 in
    withTarget t
      {| offsetX := newOffsetX; offsetY := offsetY vs; scale := newScale |} true
  else
    let dX := deltaX e * SCROLL_SPEED in
    let dY := deltaY e * SCROLL_SPEED in
    if shiftKey e || (nabs (deltaX e) >? nabs (deltaY e)) then
      setTargetState t (fun prev =>
        {| offsetX := offsetX prev - dX; offsetY := offsetY prev;
           scale := scale prev |})
    else
      let maxOffsetY : num := 0 in
      let minOffsetY :=
        nmin 0 (dim_height (dimensions t) - AXIS_HEIGHT - totalHeightRef t) in
      setTargetState t (fun prev =>
        {| offsetX := offsetX prev;
           offsetY := nmax minOffsetY (nmin maxOffsetY (offsetY prev - dY));
           scale := scale prev |}).

(* ------------------------------------------------------------------ *)
(** ** Mounting, resizing and the initial fit *)

Definition initialViewState : ViewState :=
  {| offsetX := 0; offsetY := 0; scale := 0.3 |}.

(** The component as first rendered, before any measurement. *)
Definition mount (es : list TimelineEntry) (mode : GroupingMode)
    (selected : option TimelineEntry) : Timeline :=
  {| t_entries := es; groupingMode := mode; selectedEntry := selected;
     dimensions := {| dim_width := 800; dim_height := 600 |};
     viewState := initialViewState; isDragging := false;
     dragStart := {| ds_x := 0; ds_y := 0; ds_offsetX := 0; ds_offsetY := 0 |};
     targetState := initialViewState; isAnimating := false;
     hasDragged := false; positionedEvents := [];
     totalHeightRef := 0; badgeHitRects := [] |}.

(** The [ResizeObserver] callback. *)
Definition resize (t : Timeline) (w h : num) : Timeline :=
  {| t_entries := t_entries t; groupingMode := groupingMode t;
     selectedEntry := selectedEntry t;
     dimensions := {| dim_width := w; dim_height := h |};
     viewState := viewState t; isDragging := isDragging t;
     dragStart := dragStart t; targetState := targetState t;
     isAnimating := isAnimating t; hasDragged := hasDragged t;
     positionedEvents := positionedEvents t;
     totalHeightRef := totalHeightRef t; badgeHitRects := badgeHitRects t |}.

(** The fit-on-load effect, run once after the first measurement. *)
Definition initialFit (t : Timeline) : Timeline :=
  let yearRange := maxYear t - minYear t in
  if yearRange <=? 0 then t
  else
    let availableWidth := dim_width (dimensions t) - GROUP_LABEL_WIDTH - 100 in
    let fitScale := availableWidth / (yearRange * 10) in
    let target :=
      {| offsetX := 0; offsetY := 0;
         scale := nmax (t_minScale t) (nmin 5 fitScale) |} in
    {| t_entries := t_entries t; groupingMode := groupingMode t;
       selectedEntry := selectedEntry t; dimensions := dimensions t;
       viewState := target; isDragging := isDragging t;
       dragStart := dragStart t; targetState := target;
       isAnimating := isAnimating t; hasDragged := hasDragged t;
       positionedEvents := positionedEvents t;
       totalHeightRef := totalHeightRef t; badgeHitRects := badgeHitRects t |}.

(** The host selects another entry (the [selectedEntry] prop changes). *)
Definition select (t : Timeline) (selected : option TimelineEntry) : Timeline :=
  {| t_entries := t_entries t; groupingMode := groupingMode t;
     selectedEntry := selected; dimensions := dimensions t;
     viewState := viewState t; isDragging := isDragging t;
     dragStart := dragStart t; targetState := targetState t;
     isAnimating := isAnimating t; hasDragged := hasDragged t;
     positionedEvents := positionedEvents t;
     totalHeightRef := totalHeightRef t; badgeHitRects := badgeHitRects t |}.

End Engine.

(* ================================================================== *)
(** * Vocabulary of the specification *)

Section Vocabulary.

Variable measureText : string -> string -> num.

(** The records of the row with key [rk], in array order. *)
Definition rowOf (rk : string) (positioned : list PositionedEvent)
    : list PositionedEvent :=
  filter (fun p => String.eqb (rowKey p) rk) positioned.

(** The records of a row that are in the visible set. *)
Definition visibleInRow (rk : string) (positioned : list PositionedEvent)
    (v : Visibility) : list PositionedEvent :=
  filter (fun p => set_has_id (id (entry p)) (visibleSet v)) (rowOf rk positioned).

(** The badges anchored in a row. *)
Definition badgesOfRow (rk : string) (v : Visibility) : list HiddenBadge :=
  filter (fun b => String.eqb (rowKey (afterPos b)) rk) (hiddenBadges v).

Definition hiddenTotal (bs : list HiddenBadge) : nat := list_sum (map count bs).

Fixpoint distinctb (A : Type) (eqb : A -> A -> bool) (l : list A) : bool :=
  match l with
  | [] => true
  | a :: l' => negb (existsb (eqb a) l') && distinctb eqb l'
  end.

Definition distinctIds (positioned : list PositionedEvent) : bool :=
  distinctb String.eqb (map (fun p => id (entry p)) positioned).

Definition distinctRefs (positioned : list PositionedEvent) : bool :=
  distinctb Nat.eqb (map ref positioned).

(** The test of the scan: [curr] clears the record just before it. *)
Definition clears (prev curr : PositionedEvent) : bool :=
  x curr >=? x prev + width prev + OVERLAP_GAP.

(** The records of [rest] the scan makes visible, [prev] being the record
    just before [rest]. *)
Fixpoint keptTail (prev : PositionedEvent) (rest : list PositionedEvent)
    : list PositionedEvent :=
  match rest with
  | [] => []
  | curr :: rest' =>
      if clears prev curr then curr :: keptTail curr rest'
      else keptTail curr rest'
  end.

Definition kept (events : list PositionedEvent) : list PositionedEvent :=
  match events with
  | [] => []
  | first :: rest => first :: keptTail first rest
  end.

(** [run] is a hidden run after [a]: no record of it clears the record
    just before it. *)
Fixpoint allHidden (a : PositionedEvent) (run : list PositionedEvent) : bool :=
  match run with
  | [] => true
  | c :: run' => negb (clears a c) && allHidden c run'
  end.

(** [a] is made visible by the scan of [pre ++ [a]]. *)
Definition startsVisible (pre : list PositionedEvent) (a : PositionedEvent) : Prop :=
  pre = [] \/ clears (last pre a) a = true.

(** A badge for a hidden run [run] closed by the visible record [c]. *)
Inductive closedBadge (events : list PositionedEvent) (b : HiddenBadge) : Prop :=
| ClosedBadge (pre : list PositionedEvent) (a : PositionedEvent)
    (run : list PositionedEvent) (c : PositionedEvent)
    (post : list PositionedEvent) :
    events = pre ++ a :: run ++ c :: post ->
    run <> [] ->
    startsVisible pre a ->
    allHidden a run = true ->
    clears (last run a) c = true ->
    afterPos b = a ->
    beforePos b = c ->
    count b = List.length run ->
    yearMin b = getYear (entry a) false ->
    yearMax b = badgeYearMax c ->
    rightmostLabelWidth b = measureEventWidth measureText (entry c) ->
    closedBadge events b.

(** A badge for a hidden run that reaches the end of the row. *)
Inductive trailingBadge (events : list PositionedEvent) (b : HiddenBadge) : Prop :=
| TrailingBadge (pre : list PositionedEvent) (a : PositionedEvent)
    (run : list PositionedEvent) :
    events = pre ++ a :: run ->
    run <> [] ->
    startsVisible pre a ->
    allHidden a run = true ->
    afterPos b = a ->
    beforePos b = a ->
    count b = List.length run ->
    yearMin b = getYear (entry a) false ->
    yearMax b = badgeYearMax (last run a) ->
    rightmostLabelWidth b = measureEventWidth measureText (entry (last run a)) ->
    trailingBadge events b.

(** The badge the scan emits when the visible record [c] closes the hidden
    run [run] that follows the visible record [a]. *)
Definition closingBadge (a : PositionedEvent) (run : list PositionedEvent)
    (c : PositionedEvent) : HiddenBadge :=
  {| afterPos := a; beforePos := c; count := List.length run;
     yearMin := getYear (entry a) false;
     yearMax := badgeYearMax c;
     rightmostLabelWidth := measureEventWidth measureText (entry c) |}.

(** The badge for the hidden run [run] that ends the row. *)
Definition trailingBadgeOf (a : PositionedEvent) (run : list PositionedEvent)
    : HiddenBadge :=
  {| afterPos := a; beforePos := a; count := List.length run;
     yearMin := getYear (entry a) false;
     yearMax := badgeYearMax (last run a);
     rightmostLabelWidth :=
       measureEventWidth measureText (entry (last run a)) |}.

(** The scan of a row, told by lists: [a] is the last visible record and
    [run] the records hidden since; [scanBadges] are the badges emitted
    over [rest] and [scanEnd] the state at the end of the row. *)
Fixpoint scanBadges (a : PositionedEvent) (run rest : list PositionedEvent)
    : list HiddenBadge :=
  match rest with
  | [] => []
  | c :: rest' =>
      if clears (last run a) c then
        match run with
        | [] => scanBadges c [] rest'
        | _ :: _ => closingBadge a run c :: scanBadges c [] rest'
        end
      else scanBadges a (run ++ [c]) rest'
  end.

Fixpoint scanEnd (a : PositionedEvent) (run rest : list PositionedEvent)
    : PositionedEvent * list PositionedEvent :=
  match rest with
  | [] => (a, run)
  | c :: rest' =>
      if clears (last run a) c then scanEnd c [] rest'
      else scanEnd a (run ++ [c]) rest'
  end.

Definition rowBadges (events : list PositionedEvent) : list HiddenBadge :=
  match events with
  | [] => []
  | first :: rest =>
      scanBadges first [] rest ++
      match scanEnd first [] rest with
      | (_, []) => []
      | (a, run) => [trailingBadgeOf a run]
      end
  end.

Definition addVisible (visibleSet : list string) (p : PositionedEvent) : list string :=
  set_add_id (id (entry p)) visibleSet.

(** The selected entry is a record of the row and the scan hid it. *)
Definition selectedCulled (rk : string) (positioned : list PositionedEvent)
    (selected : option TimelineEntry) : bool :=
  match selected with
  | Some s =>
      existsb (fun p => String.eqb (id (entry p)) (id s)) (rowOf rk positioned)
      && negb (set_has_id (id s)
                 (visibleSet (visibility measureText positioned None)))
  | None => false
  end.

(** Membership of a scale in the camera's range. *)
Definition scaleInRange (lo s : num) : Prop := lo <= s /\ s <= 5.

(** What the badge loop paints for a trailing badge: the gap between two
    visible records plays no part. *)
Definition paintTrailing (dimensions : Dimensions) (viewState : ViewState)
    (b : HiddenBadge) : option (list DrawOp * BadgeHitRect) :=
  let py := y (afterPos b) + offsetY viewState in
  let bx := x (afterPos b) + width (afterPos b) + 4 in
  if (py + height (afterPos b) <? AXIS_HEIGHT) || (py >? dim_height dimensions)
     || (bx >? dim_width dimensions) || (bx + 40 <? GROUP_LABEL_WIDTH)
  then None
  else
    let tw := measureText "9px system-ui, sans-serif" (badgeLabel b) in
    let bw := tw + 8 in
    let by_ := py + (height (afterPos b) - badgeH) / 2 in
    Some ([RoundRect bx by_ bw badgeH 3;
           FillText (badgeLabel b) (bx + bw / 2) (by_ + badgeH / 2)],
          {| b_x := bx; b_y := by_; b_w := bw; b_h := badgeH;
             b_minYear := yearMin b; b_maxYear := yearMax b;
             b_rightmostLabelWidth := rightmostLabelWidth b |}).

(** The pixel gap between the two visible records around a closed run. *)
Definition badgeGap (b : HiddenBadge) : num :=
  x (beforePos b) - (x (afterPos b) + width (afterPos b)).

(** The end year of a record when it has one that is not zero, its start
    year otherwise. *)
Definition endOrStartYear (e : TimelineEntry) : num :=
  match date_end e with
  | Some d => if neqb (dateYear d) 0 then getYear e false else dateYear d
  | None => getYear e false
  end.

(** The padding, the width and the scale a badge click solves for. *)
Definition badgePadding (badge : BadgeHitRect) : num :=
  nmax ((b_maxYear badge - b_minYear badge) * 0.15) 20.

Definition badgeAvailableWidth (t : Timeline) (badge : BadgeHitRect) : num :=
  dim_width (dimensions t) - GROUP_LABEL_WIDTH - b_rightmostLabelWidth badge.

Definition badgeSolvedScale (t : Timeline) (badge : BadgeHitRect) : num :=
  badgeAvailableWidth t badge
  / (((b_maxYear badge + badgePadding badge)
      - (b_minYear badge - badgePadding badge)) * 10).

(** Appending to the array a [Map] holds under the key of [a], created
    empty when the key is new: the body both grouping loops share. *)
Definition pushStep (A : Type) (keyOf : A -> string)
    (m : list (string * list A)) (a : A) : list (string * list A) :=
  let k := keyOf a in
  let m := if map_has k m then m else map_set k [] m in
  match map_get k m with
  | Some l => map_set k (l ++ [a]) m
  | None => m
  end.

(** The entries of a group as the packing loop visits them. *)
Definition sortedGroup (gm : list (string * list TimelineEntry)) (k : string)
    : list TimelineEntry :=
  jsSort (fun a b => getYear a false - getYear b false)
    match map_get k gm with Some l => l | None => [] end.

(** No character of [s] is a colon. *)
Fixpoint noColon (s : string) : bool :=
  match s with
  | EmptyString => true
  | String c s' => negb (Ascii.eqb c ":") && noColon s'
  end.

(** The bounds the handlers clamp the vertical offset to. *)
Definition offsetYInBounds (h total oy : num) : Prop :=
  nmin 0 (h - AXIS_HEIGHT - total) <= oy /\ oy <= 0.

End Vocabulary.

(* ================================================================== *)
(** * Sample timelines *)

(** A text measure of 6 pixels a character. *)
Definition monoText (font text : string) : num := ofNat (6 * String.length text).

Definition pointEntry (ident : string) (yr : Z) (ttl : string) : TimelineEntry :=
  {| id := ident; date_start := {| year := yr; era := CE |}; date_end := None;
     title := ttl; group_dynasty := "Capetiens"; group_era := "Moyen Age";
     image_url := None |}.

(** Three point records a thousand years apart, in a 1260 x 600 viewport,
    after the initial fit and a paint. *)
Definition sparseEntries : list TimelineEntry :=
  [pointEntry "e0" 0 "A"; pointEntry "e1000" 1000 "B"; pointEntry "e2000" 2000 "C"].

Definition sparse : Timeline :=
  draw monoText (initialFit (resize (mount sparseEntries dynasty None) 1260 600)).

(** Records a hundred years apart, followed by a distant one. *)
Definition denseEntries : list TimelineEntry :=
  [pointEntry "e0" 0 "A"; pointEntry "e100" 100 "B";
   pointEntry "e200" 200 "C"; pointEntry "e2000" 2000 "D"].

Definition dense (selected : option TimelineEntry) : Timeline :=
  draw monoText (initialFit (resize (mount denseEntries dynasty selected) 1260 600)).

(** [sparse] after seventeen calls of [zoomIn]. *)
Definition zoomedIn : Timeline := Nat.iter 17 zoomIn sparse.

(** Scenario A: three point records in one row at years 100, 105 and 900
    with 40 pixel labels, projected by the camera [viewState]. *)
Definition labelText (font text : string) : num := 2.5.

Definition scenarioEntries : list LayoutEntry :=
  map (fun e => {| le_entry := e; le_row := 0; le_group := "Capetiens" |})
      [pointEntry "r100" 100 "a"; pointEntry "r105" 105 "b";
       pointEntry "r900" 900 "c"].

Definition scenarioA (minYear : num) (viewState : ViewState) : list PositionedEvent :=
  mapi_from (projectEntry labelText minYear viewState []) 0 scenarioEntries.

(** A cluster of records twenty years apart between two distant ones. *)
Definition clusteredEntries : list TimelineEntry :=
  [pointEntry "e0" 0 "A"; pointEntry "e1000" 1000 "B";
   pointEntry "e1020" 1020 "C"; pointEntry "e1040" 1040 "D";
   pointEntry "e2000" 2000 "E"].

Definition clustered : Timeline :=
  draw monoText (initialFit (resize (mount clusteredEntries dynasty None) 1260 600)).

(** A record with a long label, a record hidden under it and a third
    record that starts before the label ends, in a 460 pixel wide
    viewport. *)
Definition overlappedEntries : list TimelineEntry :=
  [pointEntry "e0" 0 "Bataille de Bouvines (Flandre)";
   pointEntry "e47" 47 "B"; pointEntry "e80" 80 "C"].

Definition overlapped : Timeline :=
  draw monoText (initialFit (resize (mount overlappedEntries dynasty None) 460 600)).

(** [sparse] in a viewport lower than its content, with a selection. *)
Definition squat : Timeline :=
  draw monoText
    (resize (select sparse (Some (pointEntry "e1000" 1000 "B"))) 1260 60).

(** Pointer and wheel events used with the samples; the canvas sits at the
    origin of the page. *)
Definition originRect : Rect := {| rect_left := 0; rect_top := 0 |}.
Definition dragDown : MouseEvent := {| clientX := 500; clientY := 300 |}.
Definition dragMove : MouseEvent := {| clientX := 520; clientY := 250 |}.
Definition badgeClick : MouseEvent := {| clientX := 990; clientY := 50 |}.

Definition panWheel : WheelEvent :=
  {| w_clientX := 500; deltaX := 0; deltaY := 40;
     ctrlKey := false; metaKey := false; shiftKey := false |}.

Definition zoomWheel : WheelEvent :=
  {| w_clientX := 710; deltaX := 0; deltaY := 100;
     ctrlKey := true; metaKey := false; shiftKey := false |}.

Open Scope string_scope.
Open Scope list_scope.
Open Scope num_scope.

(* ================================================================== *)
(** * The rest of the draw effect *)

(** [Math.floor] and [Math.ceil]. *)
Definition nfloor (a : num) : num :=
  match a with
  | Fin q => ofZ (Qfloor q)
  | _ => a
  end.

Definition nceil (a : num) : num :=
  match a with
  | Fin q => ofZ (Qceiling q)
  | _ => a
  end.

(** [s.slice(0, -1)]: [s] without its last character. *)
Fixpoint dropLast (s : string) : string :=
  match s with
  | EmptyString => EmptyString
  | String c s' =>
      match s' with
      | EmptyString => EmptyString
      | String _ _ => String c (dropLast s')
      end
  end.

(** The image cache, a [Map] from entry ids to loaded images, as the set
    of ids it holds. *)
Definition hasIcon (imagesCache : list string) (pos : PositionedEvent) : bool :=
  set_has_id (id (entry pos)) imagesCache.

(** The preloading effect creates an image for these entries, and the
    [onload] handler of the image of [e] stores it. *)
Definition preloaded (imagesCache : list string) (es : list TimelineEntry)
    : list TimelineEntry :=
  filter (fun e => negb (negb (hasImage e) || set_has_id (id e) imagesCache)) es.

Definition imageLoaded (imagesCache : list string) (e : TimelineEntry) : list string :=
  set_add_id (id e) imagesCache.

Section Paint.

Variable measureText : string -> string -> num.

(* ------------------------------------------------------------------ *)
(** ** Group labels *)

(** [while (measureText(label).width > maxWidth && label.length > 0)
      label = label.slice(0, -1)], run for at most [fuel] tests. *)
Fixpoint shrinkLabel (fuel : nat) (label : string) : string :=
  match fuel with
  | O => label
  | S fuel' =>
      if (measureText "12px system-ui, sans-serif" label >? GROUP_LABEL_WIDTH - 16)
         && (0 <? String.length label)%nat
      then shrinkLabel fuel' (dropLast label)
      else label
  end.

(** The label painted for a group; the loop tests at most
    [key.length + 1] labels. *)
Definition groupLabel (g : Group) : string :=
  let label := shrinkLabel (S (String.length (key g))) (key g) in
  if String.eqb label (key g) then label else String.append label "...".

(** Whether the loops over the groups paint [g] ([continue] otherwise). *)
Definition groupOnScreen (dimensions : Dimensions) (viewState : ViewState)
    (g : Group) : bool :=
  let py := g_y g + offsetY viewState in
  negb ((py + g_height g <? AXIS_HEIGHT) || (py >? dim_height dimensions)).

(* ------------------------------------------------------------------ *)
(** ** Events *)

(** The title loop of [drawEvent], run for at most [fuel] tests. *)
Fixpoint shrinkTitle (fuel : nat) (maxTextWidth : num) (title : string) : string :=
  match fuel with
  | O => title
  | S fuel' =>
      if (measureText "11px system-ui, sans-serif" (String.append title "...")
          >? maxTextWidth)
         && (0 <? String.length title)%nat
      then shrinkTitle fuel' maxTextWidth (dropLast title)
      else title
  end.

(** The two texts [drawEvent] paints: the year, and the title when there
    is room for it. *)
Record EventText : Type := {
  et_year : string;
  et_yearX : num;
  et_title : option string;
  et_titleX : num;
  et_maxTextWidth : num;
  et_textY : num
}.

Definition drawEventText (imagesCache : list string) (pos : PositionedEvent)
    (px py : num) : EventText :=
  let isPeriod := isPeriod (entry pos) in
  let hasIcon := hasIcon imagesCache pos in
  let leftInset := if hasIcon then ICON_SIZE + 4 else DOT_RADIUS in
  let yearStr := formatYear (date_start (entry pos)) in
  let iconOffset : num := if hasIcon then ICON_SIZE + 6 else 0 in
  let textStartX :=
    if isPeriod then px + iconOffset + 6
    else px + leftInset + (if hasIcon then ICON_SIZE / 2 + 4 else 6) in
  let availableWidth :=
    if isPeriod then width pos - iconOffset - 12
    else width pos - leftInset
         - (if hasIcon then ICON_SIZE / 2 + 4 + EVENT_PADDING else 12) in
  let yearWidth := measureText "bold 10px system-ui, sans-serif" yearStr in
  let titleX := textStartX + yearWidth + 6 in
  let maxTextWidth := availableWidth - yearWidth - 6 in
  let shown :=
    if maxTextWidth >? 20 then
      let title := title (entry pos) in
      let textWidth := measureText "11px system-ui, sans-serif" title in
      if textWidth >? maxTextWidth
      then Some (String.append
                   (shrinkTitle (S (String.length title)) maxTextWidth title) "...")
      else Some title
    else None in
  {| et_year := yearStr; et_yearX := textStartX; et_title := shown;
     et_titleX := titleX; et_maxTextWidth := maxTextWidth;
     et_textY := py + height pos / 2 |}.

(** A call [drawEvent(pos, x, y)]. *)
Record DrawCall : Type := {
  dc_pos : PositionedEvent;
  dc_x : num;
  dc_y : num
}.

(** Whether the loop over the events skips [pos] as out of the plot. *)
Definition offScreen (dimensions : Dimensions) (viewState : ViewState)
    (pos : PositionedEvent) : bool :=
  let px := x pos in
  let py := y pos + offsetY viewState in
  ((px + width pos <? GROUP_LABEL_WIDTH) || (px >? dim_width dimensions))
  || ((py + height pos <? AXIS_HEIGHT) || (py >? dim_height dimensions)).

(** Body of [for (let pi = positioned.length - 1; pi >= 0; pi--)]; the
    state is the calls made so far and [selectedPos]. *)
Definition eventLoopStep (dimensions : Dimensions) (viewState : ViewState)
    (visibleSet : list string) (selectedEntry : option TimelineEntry)
    (st : list DrawCall * option PositionedEvent) (pos : PositionedEvent)
    : list DrawCall * option PositionedEvent :=
  let '(calls, selectedPos) := st in
  if negb (set_has_id (id (entry pos)) visibleSet) then st
  else if offScreen dimensions viewState pos then st
  else
    let isSelected :=
      match selectedEntry with
      | Some s => String.eqb (id (entry pos)) (id s)
      | None => false
      end in
    if isSelected then (calls, Some pos)
    else (calls ++ [{| dc_pos := pos; dc_x := x pos;
                       dc_y := y pos + offsetY viewState |}], selectedPos).

(** The calls of [drawEvent] of a frame, in order. *)
Definition drawEvents (dimensions : Dimensions) (viewState : ViewState)
    (positioned : list PositionedEvent) (visibleSet : list string)
    (selectedEntry : option TimelineEntry) : list DrawCall :=
  let '(calls, selectedPos) :=
    fold_left (eventLoopStep dimensions viewState visibleSet selectedEntry)
              (rev positioned) ([], None) in
  match selectedPos with
  | Some pos =>
      calls ++ [{| dc_pos := pos; dc_x := x pos;
                   dc_y := y pos + offsetY viewState |}]
  | None => calls
  end.

(* ------------------------------------------------------------------ *)
(** ** Year markers *)

Definition yearStep (viewState : ViewState) : num :=
  let pixelsPerYear := scale viewState * 10 in
  let yearStep : num := 100 in
  let yearStep := if pixelsPerYear >? 2 then 50 else yearStep in
  let yearStep := if pixelsPerYear >? 5 then 20 else yearStep in
  let yearStep := if pixelsPerYear >? 10 then 10 else yearStep in
  let yearStep := if pixelsPerYear >? 20 then 5 else yearStep in
  yearStep.

(** The label of a year marker; [year] is a whole number. *)
Definition markerLabel (year : num) : string :=
  match year with
  | Fin q =>
      if year <? 0
      then String.append (string_of_Z (Z.abs (Qfloor q))) " av. J.-C."
      else string_of_Z (Qfloor q)
  | _ => ""
  end.

(** A marker: the tick and the grid line at [mk_x], and the label when it
    is painted. *)
Record Marker : Type := {
  mk_year : num;
  mk_x : num;
  mk_label : option string
}.

(** [for (let year = startYear; year <= endYear; year += yearStep)], run
    for at most [fuel] iterations; [None] when the loop has not ended by
    then. *)
Fixpoint markerLoop (minYear : num) (dimensions : Dimensions) (viewState : ViewState)
    (fuel : nat) (year endYear step lastLabelRight : num) : option (list Marker) :=
  if year <=? endYear then
    match fuel with
    | O => None
    | S fuel' =>
        let px := yearToX minYear viewState year in
        if (px <? GROUP_LABEL_WIDTH) || (px >? dim_width dimensions)
        then markerLoop minYear dimensions viewState fuel'
               (year + step) endYear step lastLabelRight
        else
          let label := markerLabel year in
          let labelWidth := measureText "11px system-ui, sans-serif" label in
          let labelLeft := px - labelWidth / 2 in
          if labelLeft >? lastLabelRight + 8 then
            option_map
              (cons {| mk_year := year; mk_x := px; mk_label := Some label |})
              (markerLoop minYear dimensions viewState fuel'
                 (year + step) endYear step (px + labelWidth / 2))
          else
            option_map
              (cons {| mk_year := year; mk_x := px; mk_label := None |})
              (markerLoop minYear dimensions viewState fuel'
                 (year + step) endYear step lastLabelRight)
    end
  else Some [].

Definition markerStart (minYear : num) (viewState : ViewState) : num :=
  nfloor (xToYear minYear viewState GROUP_LABEL_WIDTH / yearStep viewState)
  * yearStep viewState.

Definition markerEnd (minYear : num) (dimensions : Dimensions)
    (viewState : ViewState) : num :=
  nceil (xToYear minYear viewState (dim_width dimensions) / yearStep viewState)
  * yearStep viewState.

Definition yearMarkers (minYear : num) (dimensions : Dimensions)
    (viewState : ViewState) (fuel : nat) : option (list Marker) :=
  markerLoop minYear dimensions viewState fuel
    (markerStart minYear viewState) (markerEnd minYear dimensions viewState)
    (yearStep viewState) NInf.

(* ------------------------------------------------------------------ *)
(** ** Scrollbar *)

(** The rectangle of the scrollbar indicator, when one is painted. *)
Record FillRect : Type := {
  fr_x : num;
  fr_y : num;
  fr_w : num;
  fr_h : num
}.

Definition scrollbar (dimensions : Dimensions) (viewState : ViewState)
    (totalHeight : num) : option FillRect :=
  if totalHeight >? dim_height dimensions - AXIS_HEIGHT then
    let scrollbarHeight :=
      ((dim_height dimensions - AXIS_HEIGHT) / totalHeight)
      * (dim_height dimensions - AXIS_HEIGHT) in
    let scrollbarY :=
      AXIS_HEIGHT
      + (- offsetY viewState / totalHeight) * (dim_height dimensions - AXIS_HEIGHT) in
    Some {| fr_x := dim_width dimensions - 8; fr_y := scrollbarY;
            fr_w := 6; fr_h := nmax scrollbarHeight 20 |}
  else None.

End Paint.

(* ================================================================== *)
(** * Hovering and the end of a drag *)

Inductive Cursor : Set := cursor_default | cursor_pointer | cursor_grab.

Record TooltipData : Type := {
  tip_entry : TimelineEntry;
  tip_x : num;
  tip_y : num;
  tip_eventBottom : num
}.

(** What a pointer move does to the tooltip: nothing; or drop the pending
    timeout and clear the tooltip; or drop the pending timeout and show
    another tooltip after 400 ms. *)
Inductive TooltipChange : Type :=
| tip_keep
| tip_clear
| tip_schedule (d : TooltipData).

Record Hover : Type := {
  hoveredEvent : option TimelineEntry;
  cursor : Cursor;
  tooltipChange : TooltipChange
}.

(** [handleMouseMove] when no drag is in progress. *)
Definition hover (t : Timeline) (rect : Rect) (e : MouseEvent) : Hover :=
  let px := clientX e - rect_left rect in
  let py := clientY e - rect_top rect in
  if (px <? GROUP_LABEL_WIDTH) || (py <? AXIS_HEIGHT) then
    {| hoveredEvent := None; cursor := cursor_default; tooltipChange := tip_keep |}
  else
    let onBadge := existsb (hitBadge px py) (badgeHitRects t) in
    let foundPos :=
      if onBadge then None
      else find (hitEvent (viewState t) px py) (positionedEvents t) in
    {| hoveredEvent := option_map entry foundPos;
       cursor :=
         match foundPos with
         | Some _ => cursor_pointer
         | None => if onBadge then cursor_pointer else cursor_grab
         end;
       tooltipChange :=
         match foundPos with
         | Some pos =>
             let posY := y pos + offsetY (viewState t) in
             tip_schedule {| tip_entry := entry pos;
                             tip_x := x pos + width pos / 2;
                             tip_y := posY;
                             tip_eventBottom := posY + height pos |}
         | None => tip_clear
         end |}.

(** Whether [TooltipCard] sits above the event. *)
Definition showAbove (d : TooltipData) (containerHeight : num) : bool :=
  tip_y d - AXIS_HEIGHT >? containerHeight - tip_eventBottom d.

(** [handleMouseUp], and [handleMouseLeave] as far as the state kept here
    goes. *)
Definition handleMouseUp (t : Timeline) : Timeline :=
  {| t_entries := t_entries t; groupingMode := groupingMode t;
     selectedEntry := selectedEntry t; dimensions := dimensions t;
     viewState := viewState t; isDragging := false;
     dragStart := dragStart t; targetState := targetState t;
     isAnimating := isAnimating t; hasDragged := hasDragged t;
     positionedEvents := positionedEvents t;
     totalHeightRef := totalHeightRef t; badgeHitRects := badgeHitRects t |}.

(* ================================================================== *)
(** * The host application ([App.tsx]) *)

Section App.

Variable measureText : string -> string -> num.

(** The ordering year the host sorts by. *)
Definition sortYear (e : TimelineEntry) : num :=
  match era (date_start e) with
  | BCE => ofZ (- year (date_start e))
  | CE => ofZ (year (date_start e))
  end.

Definition sortedEntries (filteredEntries : list TimelineEntry) : list TimelineEntry :=
  jsSort (fun a b => sortYear a - sortYear b) filteredEntries.

(** State of [App], as far as selection and navigation go.  [canvas] is
    the [CanvasTimeline] the host holds a ref to; its [entries] and
    [selectedEntry] props are [filteredEntries] and [app_selectedEntry]. *)
Record App : Type := {
  filteredEntries : list TimelineEntry;
  app_selectedEntry : option TimelineEntry;
  selectedIndex : option Z;
  searchQuery : string;
  searchExpanded : bool;
  canvas : Timeline
}.

Definition withSelection (a : App) (selected : option TimelineEntry)
    (index : option Z) (c : Timeline) : App :=
  {| filteredEntries := filteredEntries a;
     app_selectedEntry := selected; selectedIndex := index;
     searchQuery := searchQuery a; searchExpanded := searchExpanded a;
     canvas := select c selected |}.

(** [findIndex] by id, as a JavaScript index ([-1] when absent). *)
Definition indexOfId (ident : string) (l : list TimelineEntry) : Z :=
  match findIndex (fun e => String.eqb (id e) ident) l with
  | Some i => Z.of_nat i
  | None => (-1)%Z
  end.

Definition navigateToEntry (a : App) (index : Z) : App :=
  let entries := sortedEntries (filteredEntries a) in
  if (index <? 0)%Z || (index >=? Z.of_nat (List.length entries))%Z then a
  else
    match nth_error entries (Z.to_nat index) with
    | Some entry =>
        withSelection a (Some entry) (Some index)
          (scrollToEntry measureText (canvas a) entry)
    | None => a
    end.

Definition handlePrevEntry (a : App) : App :=
  match selectedIndex a with
  | None => navigateToEntry a 0
  | Some i => if (i >? 0)%Z then navigateToEntry a (i - 1) else a
  end.

Definition handleNextEntry (a : App) : App :=
  match selectedIndex a with
  | None => navigateToEntry a 0
  | Some i =>
      if (i <? Z.of_nat (List.length (sortedEntries (filteredEntries a))) - 1)%Z
      then navigateToEntry a (i + 1)
      else a
  end.

(** [selectEntry], the [onSelectEntry] callback of the canvas. *)
Definition selectEntry (a : App) (entry : option TimelineEntry) : App :=
  match entry with
  | Some e =>
      let idx := indexOfId (id e) (sortedEntries (filteredEntries a)) in
      withSelection a entry (if (idx >=? 0)%Z then Some idx else None) (canvas a)
  | None => withSelection a None None (canvas a)
  end.

(** A click on the canvas, with the callback it makes. *)
Definition clickCanvas (a : App) (rect : Rect) (e : MouseEvent) : App :=
  match handleClick (canvas a) rect e with
  | (c, Some entry) =>
      selectEntry
        {| filteredEntries := filteredEntries a;
           app_selectedEntry := app_selectedEntry a;
           selectedIndex := selectedIndex a;
           searchQuery := searchQuery a; searchExpanded := searchExpanded a;
           canvas := c |} entry
  | (c, None) =>
      {| filteredEntries := filteredEntries a;
         app_selectedEntry := app_selectedEntry a;
         selectedIndex := selectedIndex a;
         searchQuery := searchQuery a; searchExpanded := searchExpanded a;
         canvas := c |}
  end.

(** The effect that re-syncs the selection when the filtered list
    changes. *)
Definition resyncSelection (a : App) : App :=
  match app_selectedEntry a with
  | None => a
  | Some s =>
      let idx := indexOfId (id s) (sortedEntries (filteredEntries a)) in
      if (idx >=? 0)%Z
      then {| filteredEntries := filteredEntries a;
              app_selectedEntry := app_selectedEntry a;
              selectedIndex := Some idx;
              searchQuery := searchQuery a; searchExpanded := searchExpanded a;
              canvas := canvas a |}
      else withSelection a None None (canvas a)
  end.

(** The filters change: the host renders with another filtered list. *)
Definition setFilteredEntries (a : App) (es : list TimelineEntry) : App :=
  resyncSelection
    {| filteredEntries := es;
       app_selectedEntry := app_selectedEntry a;
       selectedIndex := selectedIndex a;
       searchQuery := searchQuery a; searchExpanded := searchExpanded a;
       canvas :=
         {| t_entries := es; groupingMode := groupingMode (canvas a);
            selectedEntry := selectedEntry (canvas a);
            dimensions := dimensions (canvas a);
            viewState := viewState (canvas a);
            isDragging := isDragging (canvas a);
            dragStart := dragStart (canvas a);
            targetState := targetState (canvas a);
            isAnimating := isAnimating (canvas a);
            hasDragged := hasDragged (canvas a);
            positionedEvents := positionedEvents (canvas a);
            totalHeightRef := totalHeightRef (canvas a);
            badgeHitRects := badgeHitRects (canvas a) |} |}.

(** The [keydown] listener; [inSearch] tells whether the search input has
    the focus. *)
Definition handleKeyDown (a : App) (inSearch : bool) (k : string) : App :=
  if String.eqb k "Escape" then
    if inSearch then
      {| filteredEntries := filteredEntries a;
         app_selectedEntry := app_selectedEntry a;
         selectedIndex := selectedIndex a;
         searchQuery := ""; searchExpanded := false;
         canvas := canvas a |}
    else withSelection a None None (canvas a)
  else if inSearch then a
  else if String.eqb k "ArrowLeft" || String.eqb k "ArrowUp" then
    match selectedIndex a with
    | None => navigateToEntry a 0
    | Some idx => if (idx >? 0)%Z then navigateToEntry a (idx - 1) else a
    end
  else if String.eqb k "ArrowRight" || String.eqb k "ArrowDown" then
    match selectedIndex a with
    | None => navigateToEntry a 0
    | Some idx =>
        if (idx <? Z.of_nat (List.length (sortedEntries (filteredEntries a))) - 1)%Z
        then navigateToEntry a (idx + 1)
        else a
    end
  else
    let onCanvas (f : Timeline -> Timeline) :=
      {| filteredEntries := filteredEntries a;
         app_selectedEntry := app_selectedEntry a;
         selectedIndex := selectedIndex a;
         searchQuery := searchQuery a; searchExpanded := searchExpanded a;
         canvas := f (canvas a) |} in
    if String.eqb k "=" || String.eqb k "+" then onCanvas zoomIn
    else if String.eqb k "-" then onCanvas zoomOut
    else if String.eqb k "f" then onCanvas (fit measureText)
    else a.

End App.

(* ------------------------------------------------------------------ *)
(** ** Tags *)

(** [toggleTag]: [activeTags] is a [Set<string>]. *)
Definition toggleTag (tag : string) (activeTags : list string) : list string :=
  if set_mem string_dec tag activeTags
  then set_remove string_dec tag activeTags
  else set_add string_dec tag activeTags.

(** The fields of a [TimelineEntry] that the tag cloud reads. *)
Record TaggedEntry : Type := {
  importance : nat;
  tags : option (list string)
}.

(** [e.importance || 3] *)
Definition importanceOr3 (e : TaggedEntry) : nat :=
  match importance e with
  | O => 3
  | n => n
  end.

Definition countTag (counts : list (string * nat)) (t : string) : list (string * nat) :=
  map_set t
    (match map_get t counts with
     | Some n => n
     | None => 0
     end + 1)%nat
    counts.

Definition countEntry (minImportance : nat) (counts : list (string * nat))
    (e : TaggedEntry) : list (string * nat) :=
  if (importanceOr3 e <? minImportance)%nat then counts
  else
    fold_left countTag
      match tags e with
      | Some ts => ts
      | None => []
      end
      counts.

Definition allTags (timelineEntries : list TaggedEntry) (minImportance : nat)
    : list (string * nat) :=
  jsSort (fun a b => ofNat (snd b) - ofNat (snd a))
    (fold_left (countEntry minImportance) timelineEntries []).

(* ================================================================== *)
(** * Vocabulary of the further properties *)

Section Terms.

Variable measureText : string -> string -> num.

(** The text measure gives widths: finite numbers that are not negative. *)
Definition textWidths : Prop :=
  forall font text, exists q, measureText font text = Fin q /\ (0 <= q)%Q.

(** The end of a record in the row packing, and the gap between two
    records of a row, in years at the layout scale. *)
Definition layoutGap : num := pixelsToYears 5 LAYOUT_SCALE.

Definition layoutEnd (e : TimelineEntry) : num :=
  let startYear := getYear e false in
  let textYearWidth := pixelsToYears (measureEventWidth measureText e) LAYOUT_SCALE in
  if isPeriod e
  then nmax (getYear e true) (startYear + textYearWidth)
  else startYear + textYearWidth.

(** The packing loop over the entries of one group. *)
Definition packGroup (groupKey : string) (es : list TimelineEntry)
    : list num * list LayoutEntry :=
  fold_left (packStep measureText groupKey) es ([], []).

(** [groupMap] and [sortedGroupKeys] of the stable layout. *)
Definition groupMapOf (mode : GroupingMode) (es : list TimelineEntry)
    : list (string * list TimelineEntry) :=
  fold_left (pushStep (getGroupKey mode)) es [].

Definition sortedGroupKeys (mode : GroupingMode) (es : list TimelineEntry)
    : list string :=
  let '(groupMap, groupFirstYear) := fold_left (groupStep mode) es ([], []) in
  jsSort (fun a b => firstYearOr0 groupFirstYear a - firstYearOr0 groupFirstYear b)
         (map fst groupMap).

(** The groups are stacked from [top] down to [bottom], each below the
    one before. *)
Fixpoint stacked (top : num) (gs : list Group) (bottom : num) : Prop :=
  match gs with
  | [] => bottom = top
  | g :: gs' => g_y g = top /\ stacked (top + g_height g) gs' bottom
  end.

End Terms.

Section Terms2.

Variable measureText : string -> string -> num.

(** The year a record ends at for the year range: its end year when it
    has one. *)
Definition spanEnd (e : TimelineEntry) : num :=
  if isPeriod e then getYear e true else getYear e false.

(** What the packing loop pushes to [groups] for the key [k]. *)
Definition packedGroup (gm : list (string * list TimelineEntry)) (k : string)
    : PackedGroup :=
  {| pg_key := k; pg_entries := sortedGroup gm k;
     pg_rowCount :=
       Nat.max (List.length (fst (packGroup measureText k (sortedGroup gm k)))) 1 |}.

(** The layout entries of a group. *)
Definition groupBlock (gm : list (string * list TimelineEntry)) (k : string)
    : list LayoutEntry :=
  snd (packGroup measureText k (sortedGroup gm k)).

End Terms2.

Section Terms3.

Variable measureText : string -> string -> num.

(** Two layout entries of one group and row are apart: the second starts
    a gap after the end of the first, gap included. *)
Definition apart (le1 le2 : LayoutEntry) : Prop :=
  le_group le1 = le_group le2 -> le_row le1 = le_row le2 ->
  layoutEnd measureText (le_entry le1) + layoutGap
  <= getYear (le_entry le2) false - layoutGap.

End Terms3.

(** Two records of one group and row of which the second clears the
    first. *)
Definition clearsInRow (p q : PositionedEvent) : Prop :=
  group p = group q -> row p = row q -> clears p q = true.

(** A frame of the animation ends it: three quarters of what is left of
    each component is under its threshold. *)
Definition settling (view target : ViewState) : Prop :=
  nabs (offsetX target - offsetX view) * 0.75 < 0.5
  /\ nabs (offsetY target - offsetY view) * 0.75 < 0.5
  /\ nabs (scale target - scale view) * 0.75 < 0.0001.

(** The states in which every number is finite. *)
Definition finiteState (v : ViewState) : Prop :=
  is_finite (offsetX v) /\ is_finite (offsetY v) /\ is_finite (scale v).

(** [n] frames of the animation. *)
Definition frames (n : nat) (t : Timeline) : Timeline :=
  Nat.iter n animateToTarget t.

Section Terms4.

Variable measureText : string -> string -> num.

(** The middle of the plot area. *)
Definition plotCentre (t : Timeline) : num :=
  GROUP_LABEL_WIDTH + (dim_width (dimensions t) - GROUP_LABEL_WIDTH) / 2.

(** [sameRow] of [scrollToEntry]: the records of the group and row of
    [pos], in the order of their years. *)
Definition sameRowOf (t : Timeline) (pos : PositionedEvent) : list PositionedEvent :=
  jsSort (fun a b => getYear (entry a) false - getYear (entry b) false)
    (filter (fun p => String.eqb (group p) (group pos) && Nat.eqb (row p) (row pos))
            (positionedEvents t)).

(** The scale a neighbour [gapYears] away asks for, for a label of width
    [labelWidth] to end before it. *)
Definition scaleFor (labelWidth gapYears : num) : num :=
  (labelWidth + OVERLAP_GAP) / (gapYears * 10).

(** The span of the year range, and the scale at which it fills the
    viewport less the label column and a margin of 50 on both sides. *)
Definition yearRangeOf (t : Timeline) : num := maxYear t - minYear t.

Definition fitScaleOf (t : Timeline) : num :=
  (dim_width (dimensions t) - GROUP_LABEL_WIDTH - 100) / (yearRangeOf t * 10).

End Terms4.

Section Terms5.

Variable measureText : string -> string -> num.

(** [neededScale] of [scrollToEntry] after the neighbour on the left, and
    after both neighbours; [idx] is the index of the entry in [sameRow]
    ([None] for -1). *)
Definition leftScale (e : TimelineEntry) (sameRow : list PositionedEvent)
    (idx : option nat) : num :=
  match idx with
  | Some (S i) =>
      match nth_error sameRow i with
      | Some leftPos =>
          let yearGap := getYear e false - getYear (entry leftPos) false in
          if yearGap >? 0
          then nmax 0 (scaleFor (measureEventWidth measureText (entry leftPos)) yearGap)
          else 0
      | None => 0
      end
  | _ => 0
  end.

Definition neededScale (e : TimelineEntry) (sameRow : list PositionedEvent)
    (idx : option nat) : num :=
  match nth_error sameRow (match idx with Some i => S i | None => 0%nat end) with
  | Some rightPos =>
      let yearGap := getYear (entry rightPos) false - getYear e false in
      if yearGap >? 0
      then nmax (leftScale e sameRow idx)
                (scaleFor (measureEventWidth measureText e) yearGap)
      else leftScale e sameRow idx
  | None => leftScale e sameRow idx
  end.

(** The index of the entry in its row. *)
Definition indexInRow (e : TimelineEntry) (sameRow : list PositionedEvent)
    : option nat :=
  findIndex (fun p => String.eqb (id (entry p)) (id e)) sameRow.

End Terms5.

Section Terms6.

Variable measureText : string -> string -> num.

(** The test of the loop that shortens a group label. *)
Definition labelTooWide (label : string) : bool :=
  (measureText "12px system-ui, sans-serif" label >? GROUP_LABEL_WIDTH - 16)
  && (0 <? String.length label)%nat.

(** An event the loop over the events paints: it is in the visible set and
    on screen. *)
Definition painted (dimensions : Dimensions) (viewState : ViewState)
    (visibleSet : list string) (pos : PositionedEvent) : bool :=
  set_has_id (id (entry pos)) visibleSet
  && negb (offScreen dimensions viewState pos).

Definition isSelected (selectedEntry : option TimelineEntry)
    (pos : PositionedEvent) : bool :=
  match selectedEntry with
  | Some s => String.eqb (id (entry pos)) (id s)
  | None => false
  end.

End Terms6.

(** The call [drawEvent(pos, pos.x, pos.y + offsetY)]. *)
Definition callOf (viewState : ViewState) (pos : PositionedEvent) : DrawCall :=
  {| dc_pos := pos; dc_x := x pos; dc_y := y pos + offsetY viewState |}.

(** The painted events that are not the selected one, and those that
    are. *)
Definition paintedPlain (dimensions : Dimensions) (viewState : ViewState)
    (visibleSet : list string) (selectedEntry : option TimelineEntry)
    (pos : PositionedEvent) : bool :=
  painted dimensions viewState visibleSet pos && negb (isSelected selectedEntry pos).

Definition paintedSelected (dimensions : Dimensions) (viewState : ViewState)
    (visibleSet : list string) (selectedEntry : option TimelineEntry)
    (pos : PositionedEvent) : bool :=
  painted dimensions viewState visibleSet pos && isSelected selectedEntry pos.

(** A pixel abscissa the marker loop keeps: within the plot area. *)
Definition inPlot (dimensions : Dimensions) (px : num) : bool :=
  negb ((px <? GROUP_LABEL_WIDTH) || (px >? dim_width dimensions)).

(** [year] is a whole number of steps. *)
Definition isMultiple (step year : num) : Prop :=
  exists k : Z, year == ofZ k * step.

(** The camera of a frame with finite numbers and a positive scale. *)
Definition liveCamera (minYear : num) (v : ViewState) : Prop :=
  is_finite minYear /\ finiteState v /\ 0 < scale v.

Section Terms7.

Variable measureText : string -> string -> num.

(** The left and right ends of the label of a marker. *)
Definition labelLeftOf (mk : Marker) (text : string) : num :=
  mk_x mk - measureText "11px system-ui, sans-serif" text / 2.

Definition labelRightOf (mk : Marker) (text : string) : num :=
  mk_x mk + measureText "11px system-ui, sans-serif" text / 2.

(** The label of [mk2] starts more than 8 pixels after the end of the
    label of [mk1], when both have one. *)
Definition labelsApart (mk1 mk2 : Marker) : Prop :=
  forall t1 t2, mk_label mk1 = Some t1 -> mk_label mk2 = Some t2 ->
                labelRightOf mk1 t1 + 8 < labelLeftOf mk2 t2.

End Terms7.

(** The selection of the host is coherent: the index, when there is one,
    points in the navigation list at an entry with the id of the selected
    entry, and the canvas has the list and the selection of the host as
    props. *)
Definition coherent (a : App) : Prop :=
  match selectedIndex a with
  | None => True
  | Some i =>
      exists e s,
        (0 <= i)%Z
        /\ nth_error (sortedEntries (filteredEntries a)) (Z.to_nat i) = Some e
        /\ app_selectedEntry a = Some s /\ id s = id e
  end
  /\ selectedEntry (canvas a) = app_selectedEntry a
  /\ t_entries (canvas a) = filteredEntries a.

(** Three point records a hundred years apart, in a 1260 x 600 viewport:
    the initial fit is at the layout scale. *)
Definition compactEntries : list TimelineEntry :=
  [pointEntry "e0" 0 "A"; pointEntry "e100" 100 "B"; pointEntry "e200" 200 "C"].

Definition compact : Timeline :=
  draw monoText (initialFit (resize (mount compactEntries dynasty None) 1260 600)).

(** The tags of an entry, none when the field is absent. *)
Definition tagsOf (e : TaggedEntry) : list string :=
  match tags e with
  | Some ts => ts
  | None => []
  end.

(** The entries the importance filter lets through. *)
Definition importantEnough (minImportance : nat) (e : TaggedEntry) : bool :=
  negb (importanceOr3 e <? minImportance)%nat.

(** How many times a tag is carried by the entries that pass the
    importance filter. *)
Definition occurrences (timelineEntries : list TaggedEntry) (minImportance : nat)
    (t : string) : nat :=
  count_occ string_dec
    (flat_map tagsOf (List.filter (importantEnough minImportance) timelineEntries)) t.

(** The host over the sample [sparse], nothing selected. *)
Definition sparseApp : App :=
  {| filteredEntries := sparseEntries; app_selectedEntry := None;
     selectedIndex := None; searchQuery := ""; searchExpanded := false;
     canvas := sparse |}.

(** Entries with tags, one of them below importance 3. *)
Definition taggedEntries : list TaggedEntry :=
  [ {| importance := 5; tags := Some ["guerre"; "roi"] |};
    {| importance := 0; tags := Some ["roi"] |};
    {| importance := 1; tags := Some ["roi"; "paix"] |};
    {| importance := 4; tags := None |} ].

(** The counts hold, for every tag of [l], how many times it occurs. *)
Definition countsOf (m : list (string * nat)) (l : list string) : Prop :=
  NoDup (map fst m)
  /\ forall t, map_get t m =
       if (count_occ string_dec l t =? 0)%nat then None
       else Some (count_occ string_dec l t).


(** What holds of the rows and the layout entries of a group while it is
    packed. *)
Definition packed (mt : string -> string -> num) (k : string) (st : list num * list LayoutEntry) : Prop :=
  (forall le, In le (snd st) ->
     le_group le = k
     /\ exists q r, layoutEnd mt (le_entry le) + layoutGap = Fin q
                    /\ nth_error (fst st) (le_row le) = Some (Fin r) /\ (q <= r)%Q)
  /\ ForallOrdPairs (apart mt) (snd st).

(** [sparseEntries] in a viewport 260 pixels wide: no width is left for
    the years, and the initial fit sets the scale to 0. *)
Definition narrow : Timeline :=
  draw monoText (initialFit (resize (mount sparseEntries dynasty None) 260 600)).

(** One record in a viewport 260 pixels wide: the year range is empty, no
    initial fit takes place, and [minScale] is zero divided by zero. *)
Definition lone : Timeline :=
  draw monoText
    (initialFit (resize (mount [pointEntry "e0" 0 "A"] dynasty None) 260 600)).

(** The records of scenario A as the component lays them out, in a
    viewport 660 pixels wide, where the initial fit sets the scale to
    0.05. *)
Definition scenarioTimeline : Timeline :=
  draw labelText
    (initialFit (resize (mount (map le_entry scenarioEntries) dynasty None) 660 600)).

(** Three records of one row, the second too close to the first. *)
Definition tripleEntries : list TimelineEntry :=
  [pointEntry "e0" 0 "A"; pointEntry "e100" 100 "B"; pointEntry "e2000" 2000 "C"].

Definition triple : Timeline :=
  draw monoText (initialFit (resize (mount tripleEntries dynasty None) 1260 600)).

(** A wheel zoom towards the pointer at pixel 710, and wheel zooms at
    pixel 210, where the plot starts. *)
Definition zoomInWheel : WheelEvent :=
  {| w_clientX := 710; deltaX := 0; deltaY := -10;
     ctrlKey := true; metaKey := false; shiftKey := false |}.

Definition edgeWheel : WheelEvent :=
  {| w_clientX := 210; deltaX := 0; deltaY := -10;
     ctrlKey := true; metaKey := false; shiftKey := false |}.

(* ------------------------------------------------------------------ *)
(** ** The zoom buttons with rounding

    The arithmetic of the engine above is exact.  [zoomIn] and [zoomOut]
    are given here once more with the rounding of binary64 explicit:
    [rnd] rounds the literal [1.3] and the result of each multiplication
    and division, and [minScale] is the value of the constant of that
    name in the closure. *)

Section Rounded.

Variable rnd : Q -> Q.

Definition nround (a : num) : num :=
  match a with
  | Fin q => Fin (rnd q)
  | _ => a
  end.

Definition zoomInRounded (t : Timeline) : Timeline :=
  setTargetState t (fun prev =>
    {| offsetX := offsetX prev; offsetY := offsetY prev;
       scale := nmin 5 (nround (scale prev * nround 1.3)) |}).

Definition zoomOutRounded (minScale : num) (t : Timeline) : Timeline :=
  setTargetState t (fun prev =>
    {| offsetX := offsetX prev; offsetY := offsetY prev;
       scale := nmax minScale (nround (scale prev / nround 1.3)) |}).

(** [rnd] rounds the numbers of [[lo, hi]] with a relative error of at
    most [u]. *)
Definition roundsWithin (u lo hi : Q) : Prop :=
  forall x : Q, (lo <= x)%Q -> (x <= hi)%Q ->
    (x * (1 - u) <= rnd x)%Q /\ (rnd x <= x * (1 + u))%Q.

End Rounded.

(** Rounding to the nearest multiple of [2^-60], a rounding of relative
    error at most [2^-53] from [2^-8] on. *)
Definition roundGrid (x : Q) : Q :=
  (inject_Z (Qfloor (x * inject_Z (2 ^ 60) + (1 # 2))) / inject_Z (2 ^ 60))%Q.

(** The scale that [zoomIn] and [zoomOut] compute, on the binary64 numbers
    of the program; [Math.min] and [Math.max] give [NaN] when an argument
    is [NaN]. *)
Definition min64 (a b : float) : float :=
  if orb (PrimFloat.is_nan a) (PrimFloat.is_nan b) then PrimFloat.nan
  else if PrimFloat.ltb b a then b else a.

Definition max64 (a b : float) : float :=
  if orb (PrimFloat.is_nan a) (PrimFloat.is_nan b) then PrimFloat.nan
  else if PrimFloat.ltb a b then b else a.

#[local] Set Warnings "-inexact-float".

Definition factor64 : float := 1.3%float.

Definition zoomInScale64 (s : float) : float :=
  min64 5%float (PrimFloat.mul s factor64).

Definition zoomOutScale64 (minScale s : float) : float :=
  max64 minScale (PrimFloat.div s factor64).

(** The fit scale of [sparse] and the scale three calls of [zoomIn]
    later. *)
Definition fitScale64 : float := 0.05%float.

Definition zoomedThrice64 : float := Nat.iter 3 zoomInScale64 fitScale64.

(* ================================================================== *)
(** * Facts about numbers *)

Unset Implicit Arguments.

Open Scope string_scope.
Open Scope list_scope.
Open Scope num_scope.

Lemma Qle_bool_false (a b : Q) : Qle_bool a b = false <-> (b < a)%Q.
Proof.
  split; intros H.
  - apply Qnot_le_lt. intros Hle. apply Qle_bool_iff in Hle. congruence.
  - destruct (Qle_bool a b) eqn:E; [|reflexivity].
    apply Qle_bool_iff in E. exfalso. apply (Qlt_not_le _ _ H E).
Qed.

Lemma Qlt_bool_iff (a b : Q) : Qlt_bool a b = true <-> (a < b)%Q.
Proof. unfold Qlt_bool. rewrite negb_true_iff. apply Qle_bool_false. Qed.

Lemma Qlt_bool_false (a b : Q) : Qlt_bool a b = false <-> (b <= a)%Q.
Proof. unfold Qlt_bool. rewrite negb_false_iff. apply Qle_bool_iff. Qed.

Lemma Qeq_bool_false (a b : Q) : Qeq_bool a b = false <-> ~ (a == b)%Q.
Proof.
  split; [apply Qeq_bool_neq|]. intros H.
  destruct (Qeq_bool a b) eqn:E; [|reflexivity].
  apply Qeq_bool_iff in E. contradiction.
Qed.

(** Turns the boolean tests on rationals of the goal and of the
    hypotheses into propositions, case by case. *)
Ltac qprop :=
  repeat match goal with
  | H : Qle_bool _ _ = true |- _ => apply Qle_bool_iff in H
  | H : Qle_bool _ _ = false |- _ => apply Qle_bool_false in H
  | H : Qlt_bool _ _ = true |- _ => apply Qlt_bool_iff in H
  | H : Qlt_bool _ _ = false |- _ => apply Qlt_bool_false in H
  | H : Qeq_bool _ _ = true |- _ => apply Qeq_bool_iff in H
  | H : Qeq_bool _ _ = false |- _ => apply Qeq_bool_false in H
  | |- Qle_bool _ _ = true => apply Qle_bool_iff
  | |- Qle_bool _ _ = false => apply Qle_bool_false
  | |- Qlt_bool _ _ = true => apply Qlt_bool_iff
  | |- Qlt_bool _ _ = false => apply Qlt_bool_false
  | |- Qeq_bool _ _ = true => apply Qeq_bool_iff
  | |- Qeq_bool _ _ = false => apply Qeq_bool_false
  end.

(** Splits on one boolean test that guards an [if] of the goal. *)
Ltac qcase :=
  match goal with
  | |- context [if Qle_bool ?a ?b then _ else _] => destruct (Qle_bool a b) eqn:?
  | |- context [if Qeq_bool ?a ?b then _ else _] => destruct (Qeq_bool a b) eqn:?
  | |- context [if Qlt_bool ?a ?b then _ else _] => destruct (Qlt_bool a b) eqn:?
  end.

Ltac qcases :=
  repeat (qcase; cbn [nle nlt neqb nmin nmax nadd nsub nmul nneg]); qprop.

(** Unfolds the named constants of the component. *)
Ltac consts :=
  unfold ROW_HEIGHT, MARKER_PADDING, AXIS_HEIGHT, GROUP_LABEL_WIDTH,
    SCROLL_SPEED, ZOOM_SPEED, LERP_FACTOR, DOT_RADIUS, EVENT_PADDING,
    ICON_SIZE, LAYOUT_SCALE, OVERLAP_GAP, badgeH in *.

(** Computes operations and comparisons whose operands are constructors. *)
Ltac nred := cbn [nle nlt neqb nmin nmax nadd nsub nmul nneg] in *.

Lemma nadd_fin (a b : Q) : Fin a + Fin b = Fin (a + b).
Proof. reflexivity. Qed.

Lemma nsub_fin (a b : Q) : Fin a - Fin b = Fin (a - b).
Proof. reflexivity. Qed.

Lemma nmul_fin (a b : Q) : Fin a * Fin b = Fin (a * b).
Proof. reflexivity. Qed.

Lemma nneg_fin (a : Q) : - Fin a = Fin (- a).
Proof. reflexivity. Qed.

Lemma nle_fin (a b : Q) : (Fin a <=? Fin b) = Qle_bool a b.
Proof. reflexivity. Qed.

Lemma nlt_fin (a b : Q) : (Fin a <? Fin b) = Qlt_bool a b.
Proof. reflexivity. Qed.

Lemma neqb_fin (a b : Q) : (Fin a =? Fin b) = Qeq_bool a b.
Proof. reflexivity. Qed.

Create Rewrite HintDb num_fin.
#[export] Hint Rewrite nadd_fin nsub_fin nmul_fin nneg_fin nle_fin nlt_fin neqb_fin
  : num_fin.

(** Computes the arithmetic of finite numbers, leaving the rest alone. *)
Ltac nfin := autorewrite with num_fin in *.

Lemma ndiv_fin (a b : Q) : ~ (b == 0)%Q -> Fin a / Fin b = Fin (a / b).
Proof.
  intros H. unfold ndiv. destruct (Qeq_bool b 0) eqn:E; [|reflexivity].
  apply Qeq_bool_iff in E. contradiction.
Qed.

(** A lower bound that is not [NaN] bounds [Math.max] from below. *)
Lemma nmax_lower (lo v : num) : lo <> NaN -> v <> NaN -> lo <= nmax lo v.
Proof.
  intros Hlo Hv. destruct lo as [a| | |], v as [b| | |]; try congruence;
    try reflexivity; cbn.
  - qcases; lra.
  - qprop. lra.
Qed.

(* ------------------------------------------------------------------ *)
(** * Year range *)

Lemma getYear_finite e isEnd : exists q, getYear e isEnd = Fin q.
Proof.
  unfold getYear, dateYear, ofZ.
  destruct isEnd, (date_end e) as [d|];
    match goal with |- context [era ?d] => destruct (era d) end; eauto.
Qed.

Lemma yearBoundsStep_finite a b e :
  exists a' b', yearBoundsStep (Fin a, Fin b) e = (Fin a', Fin b').
Proof.
  unfold yearBoundsStep. cbn [fst snd].
  destruct (getYear_finite e false) as [s ->].
  destruct (isPeriod e).
  - destruct (getYear_finite e true) as [f ->]. cbn.
    destruct (Qle_bool a s), (Qle_bool b f); eauto.
  - cbn. destruct (Qle_bool a s), (Qle_bool b s); eauto.
Qed.

Lemma yearBounds_fold_finite es : forall a b,
  exists a' b', fold_left yearBoundsStep es (Fin a, Fin b) = (Fin a', Fin b').
Proof.
  induction es as [|e es IH]; intros a b; [simpl; eauto|].
  cbn [fold_left]. destruct (yearBoundsStep_finite a b e) as [a' [b' ->]].
  apply IH.
Qed.

Lemma yearBounds_finite es :
  exists a b, yearBounds es = (Fin a, Fin b).
Proof.
  destruct es as [|e es]; [simpl; eauto|].
  unfold yearBounds. cbn [fold_left].
  assert (H : exists a b, yearBoundsStep (PInf, NInf) e = (Fin a, Fin b)).
  { unfold yearBoundsStep. cbn [fst snd].
    destruct (getYear_finite e false) as [s ->].
    destruct (isPeriod e); [destruct (getYear_finite e true) as [f ->]|];
      cbn; eauto. }
  destruct H as [a [b ->]]. apply yearBounds_fold_finite.
Qed.

(** A finite value inside the clamp's range goes through it unchanged. *)
Lemma clamp_fin_id (lo q : Q) :
  (lo <= q)%Q -> (q <= 5)%Q ->
  exists q', nmax (Fin lo) (nmin 5 (Fin q)) = Fin q' /\ (q' == q)%Q.
Proof.
  intros Hlo Hhi. cbn [nmin]. qcase; cbn [nmax]; qcase; qprop;
    eexists; (split; [reflexivity|]); lra.
Qed.

(** A quotient that compares with finite bounds on both sides is the
    quotient of two finite numbers by a non-zero divisor. *)
Lemma ndiv_bounded (a b lo hi : Q) :
  Fin lo <= Fin a / Fin b -> Fin a / Fin b <= Fin hi ->
  ~ (b == 0)%Q /\ Fin a / Fin b = Fin (a / b) /\ (lo <= a / b <= hi)%Q.
Proof.
  unfold ndiv. destruct (Qeq_bool b 0) eqn:E.
  - destruct (Qsign a); cbn; discriminate.
  - cbn. intros H1 H2. qprop. auto.
Qed.

(** [Math.max(lo, Math.min(hi, v))] lies in [[lo, hi]]. *)
Lemma clamp_between (lo hi v : num) :
  lo <= hi -> v <> NaN ->
  lo <= nmax lo (nmin hi v) /\ nmax lo (nmin hi v) <= hi.
Proof.
  intros Hlo Hv.
  destruct lo as [a| | |], hi as [c| | |], v as [b| | |];
    try congruence; try discriminate; cbn in *; qprop;
    split; repeat (qcase; nfin; cbn [nle nmax nmin]); qprop;
    try lra; try reflexivity.
Qed.

Lemma nmin0_fin (q : Q) : exists r, nmin 0 (Fin q) = Fin r /\ (r <= 0)%Q.
Proof.
  cbn [nmin]. qcase; qprop; eexists; (split; [reflexivity|]); lra.
Qed.

Lemma nadd_fin_not_nan (a : num) (b : Q) : a <> NaN -> a + Fin b <> NaN.
Proof. destruct a; cbn; congruence. Qed.

Lemma nsub_fin_not_nan (a : num) (b : Q) : a <> NaN -> a - Fin b <> NaN.
Proof. destruct a; cbn; congruence. Qed.

Lemma nneg_not_nan (a : num) : a <> NaN -> - a <> NaN.
Proof. destruct a; cbn; congruence. Qed.

Lemma nmin_nan_r (a b : num) : nmin a b <> NaN -> b <> NaN.
Proof. destruct a, b; cbn; congruence. Qed.

Lemma minScale_le_5 dims lo hi :
  minScale dims lo hi <> NaN -> minScale dims lo hi <= 5.
Proof.
  unfold minScale.
  destruct ((dim_width dims - GROUP_LABEL_WIDTH - 100) / ((hi - lo) * 10))
    as [q| | |]; cbn; try congruence; try reflexivity.
  intros _. qcase; cbn [nle]; qprop; lra.
Qed.

Lemma minScale_le_cap dims lo hi :
  minScale dims lo hi <> NaN -> minScale dims lo hi <= 0.05.
Proof.
  unfold minScale.
  destruct ((dim_width dims - GROUP_LABEL_WIDTH - 100) / ((hi - lo) * 10))
    as [q| | |]; cbn; try congruence; try reflexivity.
  intros _. qcase; cbn [nle]; qprop; lra.
Qed.

(* ================================================================== *)
(** * Facts about the row scan *)

Section MapFacts.
Variable V : Type.
Implicit Types (m : list (string * V)) (k : string).

Lemma map_get_set_eq k (v : V) m : map_get k (map_set k v m) = Some v.
Proof.
  induction m as [|[k' v'] m IH]; simpl.
  - now rewrite String.eqb_refl.
  - destruct (String.eqb k k') eqn:E; simpl; rewrite E; auto.
Qed.

Lemma map_get_set_neq k k' (v : V) m :
  k <> k' -> map_get k' (map_set k v m) = map_get k' m.
Proof.
  intros Hne. induction m as [|[k0 v0] m IH]; simpl.
  - destruct (String.eqb_spec k' k); congruence.
  - destruct (String.eqb_spec k k0) as [->|Hk]; simpl.
    + destruct (String.eqb_spec k' k0); congruence.
    + now rewrite IH.
Qed.

Lemma map_set_keys k (v : V) m :
  map fst (map_set k v m) =
  if map_has k m then map fst m else map fst m ++ [k].
Proof.
  unfold map_has. induction m as [|[k0 v0] m IH]; simpl; auto.
  destruct (String.eqb_spec k k0) as [->|Hk]; simpl; auto.
  rewrite IH. now destruct (map_get k m).
Qed.

Lemma map_get_None_keys k m : map_get k m = None -> ~ In k (map fst m).
Proof.
  induction m as [|[k0 v0] m IH]; simpl; auto.
  destruct (String.eqb_spec k k0); [discriminate|].
  intros H [E|HI]; [congruence | now apply IH].
Qed.

Lemma map_get_In k (v : V) m :
  NoDup (map fst m) -> In (k, v) m -> map_get k m = Some v.
Proof.
  induction m as [|[k0 v0] m IH]; simpl; [tauto|].
  intros Hnd [E|HI].
  - inversion E; subst. now rewrite String.eqb_refl.
  - inversion Hnd; subst.
    destruct (String.eqb_spec k k0) as [->|Hk]; auto.
    exfalso. apply H1. now apply (in_map fst) in HI.
Qed.
End MapFacts.

Lemma rowEventsStep_get rk m p :
  map_get rk (rowEventsStep m p) =
  if String.eqb (rowKey p) rk
  then Some (match map_get rk m with Some l => l | None => [] end ++ [p])
  else map_get rk m.
Proof.
  unfold rowEventsStep, map_has.
  destruct (String.eqb_spec (rowKey p) rk) as [<-|Hne].
  - destruct (map_get (rowKey p) m) eqn:E.
    + rewrite E. apply map_get_set_eq.
    + rewrite map_get_set_eq. now rewrite map_get_set_eq.
  - destruct (map_get (rowKey p) m) eqn:E.
    + rewrite E. now apply map_get_set_neq.
    + rewrite map_get_set_eq. rewrite !map_get_set_neq; auto.
Qed.

Lemma rowEventsStep_keys m p :
  NoDup (map fst m) -> NoDup (map fst (rowEventsStep m p)).
Proof.
  intros Hnd. unfold rowEventsStep, map_has.
  destruct (map_get (rowKey p) m) eqn:E.
  - rewrite E, map_set_keys. unfold map_has. now rewrite E.
  - rewrite map_get_set_eq, map_set_keys. unfold map_has.
    rewrite map_get_set_eq, map_set_keys. unfold map_has. rewrite E.
    apply NoDup_app; auto.
    + constructor; [intros []|constructor].
    + intros a Ha [<-|[]]. revert Ha. now apply map_get_None_keys.
Qed.

Lemma fold_rows_get rk l : forall m,
  map_get rk (fold_left rowEventsStep l m) =
  match map_get rk m, rowOf rk l with
  | None, [] => None
  | None, r => Some r
  | Some e, r => Some (e ++ r)
  end.
Proof.
  induction l as [|p l IH]; intros m; simpl.
  - destruct (map_get rk m); auto. now rewrite app_nil_r.
  - rewrite IH, rowEventsStep_get.
    destruct (String.eqb (rowKey p) rk).
    + destruct (map_get rk m); simpl.
      * now rewrite <- app_assoc.
      * reflexivity.
    + reflexivity.
Qed.

Lemma fold_rows_keys l : forall m,
  NoDup (map fst m) -> NoDup (map fst (fold_left rowEventsStep l m)).
Proof.
  induction l as [|p l IH]; intros m H; simpl; auto.
  apply IH. now apply rowEventsStep_keys.
Qed.

Lemma groupRows_get rk positioned :
  map_get rk (groupRows positioned) =
  match rowOf rk positioned with
  | [] => None
  | r => Some r
  end.
Proof. unfold groupRows. now rewrite fold_rows_get. Qed.

Lemma groupRows_keys positioned : NoDup (map fst (groupRows positioned)).
Proof. apply fold_rows_keys. constructor. Qed.

Lemma groupRows_In rk evs positioned :
  In (rk, evs) (groupRows positioned) ->
  evs = rowOf rk positioned /\ evs <> [].
Proof.
  intros HI. apply map_get_In in HI; [|apply groupRows_keys].
  rewrite groupRows_get in HI.
  destruct (rowOf rk positioned); [discriminate|].
  inversion HI; subst. split; [reflexivity|discriminate].
Qed.

Section ScanFacts.
Variable mt : string -> string -> num.

Lemma last_cons_ne (A : Type) (l : list A) (a d : A) :
  l <> [] -> last (a :: l) d = last l d.
Proof. destruct l; [congruence|reflexivity]. Qed.

Lemma last_indep (A : Type) (l : list A) (d d' : A) :
  l <> [] -> last l d = last l d'.
Proof.
  induction l as [|a l IH]; [congruence|]. intros _.
  destruct l as [|b l]; [reflexivity|].
  change (last (b :: l) d = last (b :: l) d'). apply IH. discriminate.
Qed.

Lemma last_run_cons (A : Type) (run : list A) (a d : A) :
  last (a :: run) d = last run a.
Proof.
  destruct run as [|b run]; [reflexivity|].
  rewrite last_cons_ne by discriminate. apply last_indep. discriminate.
Qed.

Lemma last_app_cons (A : Type) (pre run : list A) (a d : A) :
  last (pre ++ a :: run) d = last run a.
Proof.
  induction pre as [|b pre IH]; simpl app.
  - apply last_run_cons.
  - rewrite last_cons_ne; [exact IH|]. now destruct pre.
Qed.

Lemma last_snoc (A : Type) (l : list A) (c d : A) : last (l ++ [c]) d = c.
Proof. now rewrite last_app_cons. Qed.

Lemma nth_error_mid (A : Type) (pre : list A) (a : A) (tl : list A) :
  nth_error (pre ++ a :: tl) (List.length pre) = Some a.
Proof. rewrite nth_error_app2, Nat.sub_diag by lia. reflexivity. Qed.

Lemma nth_error_run_last (A : Type) (pre : list A) (a : A) (run tl : list A) :
  nth_error (pre ++ a :: run ++ tl) (List.length pre + List.length run)
  = Some (last run a).
Proof.
  revert pre a. induction run as [|b run IH]; intros pre a.
  - rewrite Nat.add_0_r. apply nth_error_mid.
  - specialize (IH (pre ++ [a]) b).
    rewrite <- app_assoc in IH. simpl in IH.
    rewrite length_app in IH. simpl in IH.
    replace (List.length pre + List.length (b :: run))%nat
      with (List.length pre + 1 + List.length run)%nat by (simpl; lia).
    simpl app. rewrite IH. f_equal. symmetry. apply last_run_cons.
Qed.

Lemma nth_error_run_next (A : Type) (pre : list A) (a : A) (run : list A)
    (c : A) (tl : list A) :
  nth_error (pre ++ a :: run ++ c :: tl) (List.length pre + 1 + List.length run)
  = Some c.
Proof.
  replace (pre ++ a :: run ++ c :: tl) with ((pre ++ a :: run) ++ c :: tl)
    by (rewrite <- app_assoc; reflexivity).
  replace (List.length pre + 1 + List.length run)%nat
    with (List.length (pre ++ a :: run)) by (rewrite length_app; simpl; lia).
  apply nth_error_mid.
Qed.

(** One iteration of the loop, in a row split at its pending run. *)
Lemma scanStep_run events pre a run c rest v :
  events = pre ++ a :: run ++ c :: rest ->
  scanStep mt events (List.length pre, v) (List.length pre + 1 + List.length run)
  = if clears (last run a) c
    then (List.length pre + 1 + List.length run,
          {| visibleSet := addVisible (visibleSet v) c;
             hiddenBadges :=
               match run with
               | [] => hiddenBadges v
               | _ :: _ => hiddenBadges v ++ [closingBadge mt a run c]
               end |})%nat
    else (List.length pre, v).
Proof.
  intros ->. unfold scanStep.
  replace (List.length pre + 1 + List.length run - 1)%nat
    with (List.length pre + List.length run)%nat by lia.
  rewrite nth_error_run_last, nth_error_run_next.
  replace (pre ++ a :: run ++ c :: rest)
    with (pre ++ a :: (run ++ c :: rest)) by reflexivity.
  rewrite nth_error_mid.
  fold (clears (last run a) c).
  destruct (clears (last run a) c); [|reflexivity].
  replace (List.length pre + 1 + List.length run - List.length pre - 1)%nat
    with (List.length run) by lia.
  destruct run; reflexivity.
Qed.

(** The loop over indices computes the scan told by lists. *)
Lemma scan_fold rest : forall events pre a run v,
  events = pre ++ a :: run ++ rest ->
  exists pre',
    events = pre' ++ fst (scanEnd a run rest) :: snd (scanEnd a run rest) /\
    fold_left (scanStep mt events)
      (seq (List.length pre + 1 + List.length run) (List.length rest))
      (List.length pre, v)
    = (List.length pre',
       {| visibleSet := fold_left addVisible (keptTail (last run a) rest) (visibleSet v);
          hiddenBadges := hiddenBadges v ++ scanBadges mt a run rest |}).
Proof.
  induction rest as [|c rest IH]; intros events pre a run v Hev.
  - exists pre. simpl. rewrite app_nil_r in *. split; [assumption|].
    destruct v; reflexivity.
  - cbn [List.length seq fold_left].
    rewrite (scanStep_run events pre a run c rest v Hev).
    cbn [scanEnd scanBadges keptTail].
    destruct (clears (last run a) c) eqn:Hc.
    + match goal with
      | |- context [fold_left _ _ (_, ?v0)] =>
          destruct (IH events (pre ++ a :: run) c [] v0) as [pre' [E1 E2]]
      end.
      { rewrite Hev, <- app_assoc. reflexivity. }
      exists pre'. split; [exact E1|].
      rewrite length_app in E2. cbn [List.length] in E2.
      replace (List.length pre + S (List.length run) + 1 + 0)%nat
        with (S (List.length pre + 1 + List.length run)) in E2 by lia.
      replace (List.length pre + S (List.length run))%nat
        with (List.length pre + 1 + List.length run)%nat in E2 by lia.
      rewrite E2. f_equal. cbn [visibleSet hiddenBadges last fold_left].
      f_equal.
      destruct run as [|r0 run].
      * reflexivity.
      * rewrite <- app_assoc. reflexivity.
    + destruct (IH events pre a (run ++ [c]) v) as [pre' [E1 E2]].
      { rewrite Hev, <- app_assoc. reflexivity. }
      exists pre'. split; [exact E1|].
      rewrite length_app in E2. cbn [List.length] in E2.
      replace (List.length pre + 1 + (List.length run + 1))%nat
        with (S (List.length pre + 1 + List.length run)) in E2 by lia.
      rewrite E2. rewrite last_snoc. reflexivity.
Qed.

(** The row loop is the scan told by lists. *)
Lemma processRow_spec v events :
  processRow mt v events =
  {| visibleSet := fold_left addVisible (kept events) (visibleSet v);
     hiddenBadges := hiddenBadges v ++ rowBadges mt events |}.
Proof.
  destruct events as [|first rest].
  - simpl. rewrite app_nil_r. destruct v; reflexivity.
  - unfold processRow.
    destruct (scan_fold rest (first :: rest) [] first []
                {| visibleSet := set_add_id (id (entry first)) (visibleSet v);
                   hiddenBadges := hiddenBadges v |} eq_refl)
      as [pre' [E1 E2]].
    cbn [List.length Nat.add] in E2.
    replace (List.length (first :: rest) - 1)%nat with (List.length rest)
      by (simpl; lia).
    rewrite E2. cbn [visibleSet hiddenBadges kept fold_left rowBadges].
    destruct (scanEnd first [] rest) as [a run] eqn:Hend.
    cbn [fst snd] in E1.
    assert (Hlen : (List.length rest - List.length pre')%nat = List.length run).
    { apply (f_equal (@List.length _)) in E1. rewrite length_app in E1.
      simpl in E1. lia. }
    assert (Hlast : last (first :: rest) first = last run a).
    { rewrite E1. apply last_app_cons. }
    assert (Hnth : nth_error (first :: rest) (List.length pre') = Some a).
    { rewrite E1. apply nth_error_mid. }
    rewrite Hlen, Hnth, Hlast.
    change (fold_left addVisible (keptTail (last [] first) rest)
              (set_add_id (id (entry first)) (visibleSet v)))
      with (fold_left addVisible (keptTail first rest)
              (addVisible (visibleSet v) first)).
    destruct run as [|r0 run].
    + cbn [List.length Nat.ltb Nat.leb]. rewrite app_nil_r. reflexivity.
    + cbn [List.length Nat.ltb Nat.leb].
      rewrite <- app_assoc. reflexivity.
Qed.

End ScanFacts.

Section RowFacts.
Variable mt : string -> string -> num.

Lemma hiddenTotal_app l1 l2 :
  hiddenTotal (l1 ++ l2) = (hiddenTotal l1 + hiddenTotal l2)%nat.
Proof. unfold hiddenTotal. now rewrite map_app, list_sum_app. Qed.

Lemma allHidden_snoc run : forall a c,
  allHidden a (run ++ [c]) = allHidden a run && negb (clears (last run a) c).
Proof.
  induction run as [|b run IH]; intros a c.
  - simpl. now rewrite andb_true_r.
  - cbn [app allHidden]. rewrite IH, last_run_cons, andb_assoc.
    reflexivity.
Qed.

(** Every record scanned is kept or counted once. *)
Lemma scan_accounting rest : forall a run,
  (hiddenTotal (scanBadges mt a run rest)
   + List.length (keptTail (last run a) rest)
   + List.length (snd (scanEnd a run rest)))%nat
  = (List.length run + List.length rest)%nat.
Proof.
  induction rest as [|c rest IH]; intros a run.
  - simpl. unfold hiddenTotal. simpl. lia.
  - cbn [scanBadges scanEnd keptTail].
    destruct (clears (last run a) c).
    + specialize (IH c []). cbn [last List.length] in IH.
      destruct run as [|r0 run].
      * cbn [List.length]. lia.
      * change (closingBadge mt a (r0 :: run) c :: scanBadges mt c [] rest)
          with ([closingBadge mt a (r0 :: run) c] ++ scanBadges mt c [] rest).
        rewrite hiddenTotal_app. unfold hiddenTotal at 1.
        cbn [map list_sum fold_right count closingBadge List.length] in *. lia.
    + specialize (IH a (run ++ [c])). rewrite last_snoc in IH.
      rewrite length_app in IH. cbn [List.length] in *. lia.
Qed.

Lemma row_accounting events :
  (hiddenTotal (rowBadges mt events) + List.length (kept events))%nat
  = List.length events.
Proof.
  destruct events as [|first rest]; [reflexivity|].
  cbn [rowBadges kept List.length].
  pose proof (scan_accounting rest first []) as H.
  cbn [last List.length] in H.
  rewrite hiddenTotal_app.
  destruct (scanEnd first [] rest) as [a run]. cbn [snd] in H.
  destruct run as [|r0 run].
  - unfold hiddenTotal at 2. cbn in *. lia.
  - unfold hiddenTotal at 2.
    cbn [map list_sum fold_right count trailingBadgeOf List.length] in *. lia.
Qed.

(** The shape of the badges of a scan. *)
Lemma scan_shapes rest : forall events pre a run,
  events = pre ++ a :: run ++ rest ->
  startsVisible pre a ->
  allHidden a run = true ->
  (forall b, In b (scanBadges mt a run rest) -> closedBadge mt events b)
  /\ exists pre',
       events = pre' ++ fst (scanEnd a run rest) :: snd (scanEnd a run rest)
       /\ startsVisible pre' (fst (scanEnd a run rest))
       /\ allHidden (fst (scanEnd a run rest)) (snd (scanEnd a run rest)) = true.
Proof.
  induction rest as [|c rest IH]; intros events pre a run Hev Hvis Hhid.
  - split; [intros b []|]. exists pre. simpl. rewrite app_nil_r in Hev. auto.
  - cbn [scanBadges scanEnd].
    destruct (clears (last run a) c) eqn:Hc.
    + destruct (IH events (pre ++ a :: run) c []) as [IHb IHe].
      { rewrite Hev, <- app_assoc. reflexivity. }
      { right. rewrite last_app_cons. exact Hc. }
      { reflexivity. }
      split; [|exact IHe].
      intros b Hb. destruct run as [|r0 run]; [now apply IHb|].
      destruct Hb as [<-|Hb]; [|now apply IHb].
      apply ClosedBadge with (pre := pre) (a := a) (run := r0 :: run)
                             (c := c) (post := rest);
        auto; discriminate.
    + apply (IH events pre a (run ++ [c])); auto.
      * rewrite Hev, <- app_assoc. reflexivity.
      * rewrite allHidden_snoc, Hhid, Hc. reflexivity.
Qed.

Lemma row_shapes events b :
  In b (rowBadges mt events) ->
  closedBadge mt events b \/ trailingBadge mt events b.
Proof.
  destruct events as [|first rest]; [intros []|].
  cbn [rowBadges]. intros Hb.
  destruct (scan_shapes rest (first :: rest) [] first [] eq_refl
              (or_introl eq_refl) eq_refl) as [Hc [pre' [E [Hv Hh]]]].
  apply in_app_or in Hb. destruct Hb as [Hb|Hb]; [left; now apply Hc|].
  right. destruct (scanEnd first [] rest) as [a run]. cbn [fst snd] in *.
  destruct run as [|r0 run]; [destruct Hb|].
  destruct Hb as [<-|[]].
  apply TrailingBadge with (pre := pre') (a := a) (run := r0 :: run);
    auto; discriminate.
Qed.

Lemma keptTail_incl rest : forall prev p, In p (keptTail prev rest) -> In p rest.
Proof.
  induction rest as [|c rest IH]; intros prev p; simpl; [tauto|].
  destruct (clears prev c); simpl; intros H.
  - destruct H; eauto.
  - eauto.
Qed.

Lemma kept_incl events p : In p (kept events) -> In p events.
Proof.
  destruct events as [|first rest]; simpl; [tauto|].
  intros [H|H]; [now left | right; eapply keptTail_incl; eauto].
Qed.

(** All rows, one after the other. *)
Lemma cullRows_fold rows : forall v,
  fold_left (processRow mt) rows v =
  {| visibleSet := fold_left addVisible (List.concat (map kept rows)) (visibleSet v);
     hiddenBadges := hiddenBadges v ++ List.concat (map (rowBadges mt) rows) |}.
Proof.
  induction rows as [|events rows IH]; intros v.
  - simpl. rewrite app_nil_r. destruct v; reflexivity.
  - cbn [fold_left map List.concat]. rewrite IH, processRow_spec.
    cbn [visibleSet hiddenBadges]. rewrite fold_left_app, <- app_assoc.
    reflexivity.
Qed.

Lemma addVisible_mem l : forall V s,
  set_has_id s (fold_left addVisible l V) = true <->
  (exists p, In p l /\ id (entry p) = s) \/ In s V.
Proof.
  unfold set_has_id.
  induction l as [|q l IH]; intros V s.
  - simpl. split.
    + intros H. right. now apply set_mem_correct1 in H.
    + intros [[p [[] _]]|H]. now apply set_mem_correct2.
  - cbn [fold_left]. rewrite IH. unfold addVisible, set_add_id. split.
    + intros [[p [Hp E]]|H].
      * left. exists p. split; [now right|assumption].
      * apply set_add_elim in H. destruct H as [->|H]; [|now right].
        left. exists q. split; [now left|reflexivity].
    + intros [[p [[->|Hp] E]]|H].
      * right. apply set_add_intro2. now symmetry.
      * left. now exists p.
      * right. now apply set_add_intro1.
Qed.

End RowFacts.

Lemma distinctb_NoDup (A : Type) (eqb : A -> A -> bool) (l : list A) :
  (forall a b, eqb a b = true <-> a = b) ->
  distinctb eqb l = true -> NoDup l.
Proof.
  intros Heq. induction l as [|a l IH]; simpl; [constructor|].
  intros H. apply andb_true_iff in H. destruct H as [H1 H2].
  constructor; [|now apply IH].
  intros HI. apply negb_true_iff in H1.
  assert (existsb (eqb a) l = true); [|congruence].
  apply existsb_exists. exists a. split; [assumption|now apply Heq].
Qed.

Lemma NoDup_map_inj (A B : Type) (f : A -> B) (l : list A) :
  NoDup (map f l) -> forall a b, In a l -> In b l -> f a = f b -> a = b.
Proof.
  induction l as [|c l IH]; simpl; [tauto|].
  intros Hnd a b Ha Hb E. inversion Hnd as [|? ? Hc Hl]; subst.
  destruct Ha as [->|Ha], Hb as [->|Hb]; auto.
  - exfalso. apply Hc. rewrite E. now apply in_map.
  - exfalso. apply Hc. rewrite <- E. now apply in_map.
Qed.

Lemma distinctIds_NoDup positioned :
  distinctIds positioned = true ->
  NoDup (map (fun p => id (entry p)) positioned).
Proof. apply distinctb_NoDup. intros a b. apply String.eqb_eq. Qed.

Lemma distinctRefs_NoDup positioned :
  distinctRefs positioned = true -> NoDup (map ref positioned).
Proof. apply distinctb_NoDup. intros a b. apply Nat.eqb_eq. Qed.

Lemma filter_none (A : Type) (f : A -> bool) (l : list A) :
  (forall a, In a l -> f a = false) -> filter f l = [].
Proof.
  induction l as [|a l IH]; intros H; [reflexivity|].
  simpl. rewrite (H a (or_introl eq_refl)). apply IH.
  intros b Hb. apply H. now right.
Qed.

Lemma rowOf_In rk positioned p :
  In p (rowOf rk positioned) <-> In p positioned /\ rowKey p = rk.
Proof. unfold rowOf. rewrite filter_In, String.eqb_eq. reflexivity. Qed.

Lemma map_get_Some_In (V : Type) k (v : V) m :
  map_get k m = Some v -> In (k, v) m.
Proof.
  induction m as [|[k0 v0] m IH]; simpl; [discriminate|].
  destruct (String.eqb_spec k k0) as [->|Hk].
  - intros E. inversion E. now left.
  - intros E. right. now apply IH.
Qed.

(** A filter that selects the kept records of a duplicate-free list
    returns them. *)
Lemma filter_keptTail (f : PositionedEvent -> bool) rest : forall prev,
  NoDup rest ->
  (forall p, In p rest -> (f p = true <-> In p (keptTail prev rest))) ->
  filter f rest = keptTail prev rest.
Proof.
  induction rest as [|c rest IH]; intros prev Hnd Hf; [reflexivity|].
  inversion Hnd as [|? ? Hc Hr]; subst.
  cbn [filter keptTail] in *.
  assert (Hrest : forall p, In p rest -> (f p = true <-> In p (keptTail c rest))).
  { intros p Hp. rewrite (Hf p (or_intror Hp)).
    destruct (clears prev c); [|reflexivity].
    split; [intros [->|H]; [contradiction|assumption] | now right]. }
  specialize (Hf c (or_introl eq_refl)).
  destruct (clears prev c).
  - destruct (f c) eqn:Efc.
    + f_equal. now apply IH.
    + exfalso. assert (false = true) by (apply Hf; now left). discriminate.
  - destruct (f c) eqn:Efc.
    + exfalso. apply Hc. apply (keptTail_incl rest c). now apply Hf.
    + now apply IH.
Qed.

Lemma filter_kept (f : PositionedEvent -> bool) events :
  NoDup events ->
  (forall p, In p events -> (f p = true <-> In p (kept events))) ->
  filter f events = kept events.
Proof.
  destruct events as [|first rest]; [reflexivity|].
  intros Hnd Hf. inversion Hnd as [|? ? Hc Hr]; subst.
  cbn [filter kept] in *.
  destruct (f first) eqn:Ef.
  - f_equal. apply filter_keptTail; auto.
    intros p Hp. rewrite (Hf p (or_intror Hp)).
    split; [intros [->|H]; [contradiction|assumption] | now right].
  - rewrite (proj2 (Hf first (or_introl eq_refl)) (or_introl eq_refl)) in Ef.
    discriminate.
Qed.

(** Adding one id to a set adds at most one record to a filter by id. *)
Lemma filter_add_one (s : string) (V : list string) (R : list PositionedEvent) :
  NoDup (map (fun p => id (entry p)) R) ->
  List.length (filter (fun p => set_has_id (id (entry p)) (set_add_id s V)) R)
  = (List.length (filter (fun p => set_has_id (id (entry p)) V) R)
     + if existsb (fun p => String.eqb (id (entry p)) s) R
          && negb (set_has_id s V)
       then 1 else 0)%nat.
Proof.
  assert (Hadd : forall i, set_has_id i (set_add_id s V)
                           = String.eqb i s || set_has_id i V).
  { intros i. unfold set_has_id, set_add_id.
    destruct (String.eqb_spec i s) as [->|Hne]; simpl.
    - apply set_mem_correct2. apply set_add_intro2. reflexivity.
    - destruct (set_mem string_dec i V) eqn:E.
      + apply set_mem_correct2. apply set_add_intro1.
        now apply set_mem_correct1 in E.
      + apply set_mem_complete2. intros HI.
        apply set_add_elim in HI. destruct HI as [HI|HI]; [contradiction|].
        apply set_mem_complete1 in E. contradiction. }
  induction R as [|a R IH]; intros Hnd; [reflexivity|].
  inversion Hnd as [|? ? Ha HR]; subst.
  cbn [filter existsb]. rewrite Hadd.
  destruct (String.eqb_spec (id (entry a)) s) as [E|Hne].
  - cbn [orb].
    assert (Hno : existsb (fun p => String.eqb (id (entry p)) s) R = false).
    { destruct (existsb _ R) eqn:Ex; [|reflexivity].
      apply existsb_exists in Ex. destruct Ex as [p [Hp Ep]].
      apply String.eqb_eq in Ep. exfalso. apply Ha.
      rewrite E, <- Ep. now apply (in_map (fun p => id (entry p))). }
    specialize (IH HR). rewrite Hno in IH. cbn [andb] in IH.
    rewrite E. destruct (set_has_id s V); cbn [List.length negb andb]; lia.
  - cbn [orb]. specialize (IH HR).
    destruct (set_has_id (id (entry a)) V); cbn [List.length]; lia.
Qed.

Section Accounting.
Variable mt : string -> string -> num.

Lemma cullRows_spec positioned :
  cullRows mt (groupRows positioned) =
  {| visibleSet :=
       fold_left addVisible
         (List.concat (map kept (map snd (groupRows positioned)))) [];
     hiddenBadges :=
       List.concat (map (rowBadges mt) (map snd (groupRows positioned))) |}.
Proof. unfold cullRows. now rewrite cullRows_fold. Qed.

Lemma badge_anchor events b :
  In b (rowBadges mt events) -> In (afterPos b) events.
Proof.
  intros H. apply row_shapes in H.
  destruct H as [H|H]; destruct H;
    match goal with
    | Hev : events = _, Ha : afterPos b = _ |- _ => rewrite Hev, Ha
    end; apply in_or_app; right; now left.
Qed.

(** The badges anchored in a row are the badges of its scan. *)
Lemma badgesOfRow_rows rk (positioned : list PositionedEvent)
    (m : list (string * list PositionedEvent)) :
  NoDup (map fst m) ->
  (forall k evs, In (k, evs) m -> evs = rowOf k positioned) ->
  filter (fun b => String.eqb (rowKey (afterPos b)) rk)
         (List.concat (map (rowBadges mt) (map snd m)))
  = match map_get rk m with
    | Some evs => rowBadges mt evs
    | None => []
    end.
Proof.
  induction m as [|[k evs] m IH]; intros Hnd Hrows; [reflexivity|].
  inversion Hnd as [|? ? Hk Hm]; subst.
  cbn [map List.concat snd map_get]. rewrite filter_app, IH; auto.
  2:{ intros k' evs' HI. apply Hrows. now right. }
  assert (Hkey : forall b, In b (rowBadges mt evs) -> rowKey (afterPos b) = k).
  { intros b Hb. apply badge_anchor in Hb.
    rewrite (Hrows k evs (or_introl eq_refl)) in Hb.
    now apply rowOf_In in Hb. }
  destruct (String.eqb_spec rk k) as [->|Hne].
  - replace (map_get k m) with (@None (list PositionedEvent)).
    + rewrite app_nil_r. apply forallb_filter_id. apply forallb_forall.
      intros b Hb. apply String.eqb_eq. now apply Hkey.
    + destruct (map_get k m) eqn:E; [|reflexivity].
      apply map_get_Some_In in E. exfalso. apply Hk.
      now apply (in_map fst) in E.
  - replace (filter _ (rowBadges mt evs)) with (@nil HiddenBadge); [reflexivity|].
    symmetry. apply filter_none.
    intros b Hb. apply String.eqb_neq. rewrite (Hkey b Hb). congruence.
Qed.

Lemma badgesOfRow_cull rk positioned :
  badgesOfRow rk (cullRows mt (groupRows positioned))
  = rowBadges mt (rowOf rk positioned).
Proof.
  unfold badgesOfRow. rewrite cullRows_spec. cbn [hiddenBadges].
  rewrite (badgesOfRow_rows rk positioned).
  - rewrite groupRows_get. now destruct (rowOf rk positioned).
  - apply groupRows_keys.
  - intros k evs HI. now apply groupRows_In in HI.
Qed.

(** A record is in the visible set of the scan iff its row keeps it. *)
Lemma visible_iff_kept rk positioned p :
  NoDup (map (fun p => id (entry p)) positioned) ->
  In p (rowOf rk positioned) ->
  set_has_id (id (entry p)) (visibleSet (cullRows mt (groupRows positioned))) = true
  <-> In p (kept (rowOf rk positioned)).
Proof.
  intros Hnd Hp. rewrite cullRows_spec. cbn [visibleSet].
  rewrite addVisible_mem. split.
  - intros [[q [Hq E]]|[]].
    apply in_concat in Hq. destruct Hq as [ks [Hks Hq]].
    apply in_map_iff in Hks. destruct Hks as [evs [<- Hevs]].
    apply in_map_iff in Hevs. destruct Hevs as [[k evs'] [<- Hin]].
    cbn [snd] in Hq. apply groupRows_In in Hin. destruct Hin as [-> _].
    assert (Hq' := kept_incl _ _ Hq).
    apply rowOf_In in Hq'. apply rowOf_In in Hp.
    assert (q = p)
      by (eapply NoDup_map_inj; [exact Hnd | tauto | tauto | exact E]).
    subst q.
    destruct Hq' as [_ <-]. destruct Hp as [_ Hp]. now rewrite <- Hp.
  - intros Hk. left. exists p. split; [|reflexivity].
    apply in_concat. exists (kept (rowOf rk positioned)). split; [|assumption].
    apply in_map. apply in_map_iff. exists (rk, rowOf rk positioned).
    split; [reflexivity|]. apply map_get_Some_In. rewrite groupRows_get.
    destruct (rowOf rk positioned); [destruct Hp|reflexivity].
Qed.

Lemma rowOf_NoDup_ids rk positioned :
  NoDup (map (fun p => id (entry p)) positioned) ->
  NoDup (map (fun p => id (entry p)) (rowOf rk positioned)).
Proof.
  unfold rowOf. induction positioned as [|a l IH]; simpl; [constructor|].
  intros H. inversion H as [|? ? Ha Hl]; subst.
  destruct (String.eqb (rowKey a) rk); simpl; auto.
  constructor; auto. intros HI. apply Ha.
  apply in_map_iff in HI. destruct HI as [q [E Hq]].
  apply filter_In in Hq. rewrite <- E.
  apply (in_map (fun p => id (entry p))). tauto.
Qed.

Lemma visibleInRow_cull rk positioned :
  NoDup (map (fun p => id (entry p)) positioned) ->
  visibleInRow rk positioned (cullRows mt (groupRows positioned))
  = kept (rowOf rk positioned).
Proof.
  intros Hnd. unfold visibleInRow. apply filter_kept.
  - eapply NoDup_map_inv. apply rowOf_NoDup_ids. exact Hnd.
  - intros p Hp. now apply visible_iff_kept.
Qed.

End Accounting.

Section BadgeFacts.
Variable mt : string -> string -> num.

Lemma dateYear_finite d : exists q, dateYear d = Fin q.
Proof. unfold dateYear, ofZ. destruct (era d); eauto. Qed.

Lemma badgeYearMax_spec p : badgeYearMax p = endOrStartYear (entry p).
Proof.
  unfold badgeYearMax, endOrStartYear, nor, getYear.
  destruct (date_end (entry p)) as [d|].
  - destruct (dateYear_finite d) as [q ->]. simpl.
    now destruct (Qeq_bool q 0).
  - now destruct (truthy (dateYear (date_start (entry p)))).
Qed.

(** Every badge of the pass is a badge of the scan of its row. *)
Lemma pass_badge_row positioned selected b :
  In b (hiddenBadges (visibility mt positioned selected)) ->
  In b (rowBadges mt (rowOf (rowKey (afterPos b)) positioned)).
Proof.
  intros Hb.
  assert (Hc : In b (hiddenBadges (cullRows mt (groupRows positioned)))).
  { unfold visibility in Hb. now destruct selected. }
  rewrite <- badgesOfRow_cull. unfold badgesOfRow.
  apply filter_In. split; [assumption|apply String.eqb_refl].
Qed.

Lemma pass_badge_shape positioned selected b :
  In b (hiddenBadges (visibility mt positioned selected)) ->
  closedBadge mt (rowOf (rowKey (afterPos b)) positioned) b
  \/ trailingBadge mt (rowOf (rowKey (afterPos b)) positioned) b.
Proof. intros Hb. apply row_shapes. eapply pass_badge_row; eauto. Qed.

Lemma rowOf_NoDup_refs rk positioned :
  NoDup (map ref positioned) -> NoDup (map ref (rowOf rk positioned)).
Proof.
  unfold rowOf. induction positioned as [|a l IH]; simpl; [constructor|].
  intros H. inversion H as [|? ? Ha Hl]; subst.
  destruct (String.eqb (rowKey a) rk); simpl; auto.
  constructor; auto. intros HI. apply Ha.
  apply in_map_iff in HI. destruct HI as [q [E Hq]].
  apply filter_In in Hq. rewrite <- E. apply in_map. tauto.
Qed.

(** The two ends of a closed run are different objects. *)
Lemma closed_refs_differ events b :
  NoDup (map ref events) -> closedBadge mt events b ->
  Nat.eqb (ref (afterPos b)) (ref (beforePos b)) = false.
Proof.
  intros Hnd [pre a run c post Hev _ _ _ _ Ha Hc _ _ _ _].
  rewrite Ha, Hc. apply Nat.eqb_neq. intros E.
  rewrite Hev, map_app in Hnd. apply NoDup_app_remove_l in Hnd.
  cbn [map] in Hnd. inversion Hnd as [|? ? Hin _]; subst.
  apply Hin. rewrite E, map_app. apply in_or_app. right. now left.
Qed.

Lemma trailing_refs_same events b :
  trailingBadge mt events b ->
  Nat.eqb (ref (afterPos b)) (ref (beforePos b)) = true.
Proof.
  intros [pre a run _ _ _ _ Ha Hc _ _ _ _].
  rewrite Ha, Hc. apply Nat.eqb_refl.
Qed.

Lemma paintBadge_closed_gap dimensions viewState b :
  Nat.eqb (ref (afterPos b)) (ref (beforePos b)) = false ->
  badgeGap b < 24 ->
  paintBadge mt dimensions viewState b = None.
Proof.
  intros Href Hgap. unfold paintBadge, badgeGap in *. rewrite Href, Hgap.
  now destruct (_ || _).
Qed.

Lemma paintBadge_trailing dimensions viewState b :
  Nat.eqb (ref (afterPos b)) (ref (beforePos b)) = true ->
  paintBadge mt dimensions viewState b = paintTrailing mt dimensions viewState b.
Proof.
  intros Href. unfold paintBadge, paintTrailing. rewrite Href.
  destruct (_ || _); [reflexivity|]. cbn [orb].
  now destruct (_ || _).
Qed.

(** A badge the loop skips leaves no trace in the frame. *)
Lemma paintBadges_skip dimensions viewState b l1 l2 :
  paintBadge mt dimensions viewState b = None ->
  paintBadges mt dimensions viewState (l1 ++ b :: l2)
  = paintBadges mt dimensions viewState (l1 ++ l2).
Proof.
  intros Hb. unfold paintBadges. rewrite !fold_left_app. cbn [fold_left].
  now rewrite Hb.
Qed.

End BadgeFacts.

Section OneRow.
Variable mt : string -> string -> num.

Lemma rowEventsStep_same k acc p :
  rowKey p = k -> rowEventsStep [(k, acc)] p = [(k, acc ++ [p])].
Proof.
  intros <-. unfold rowEventsStep, map_has. cbn [map_get].
  rewrite String.eqb_refl. cbn [map_get]. rewrite String.eqb_refl.
  cbn [map_set]. now rewrite String.eqb_refl.
Qed.

Lemma rowEventsStep_first p : rowEventsStep [] p = [(rowKey p, [p])].
Proof.
  unfold rowEventsStep, map_has. cbn [map_get map_set].
  rewrite String.eqb_refl. cbn [map_set]. rewrite ?String.eqb_refl.
  reflexivity.
Qed.

Lemma fold_rows_single k l : forall acc,
  (forall p, In p l -> rowKey p = k) ->
  fold_left rowEventsStep l [(k, acc)] = [(k, acc ++ l)].
Proof.
  induction l as [|p l IH]; intros acc Hk; cbn [fold_left].
  - now rewrite app_nil_r.
  - rewrite rowEventsStep_same by (apply Hk; now left).
    rewrite IH; [now rewrite <- app_assoc|].
    intros q Hq. apply Hk. now right.
Qed.

Lemma groupRows_single k p l :
  (forall q, In q (p :: l) -> rowKey q = k) ->
  groupRows (p :: l) = [(k, p :: l)].
Proof.
  intros Hk. unfold groupRows. cbn [fold_left].
  rewrite rowEventsStep_first, (Hk p (or_introl eq_refl)).
  apply fold_rows_single. intros q Hq. apply Hk. now right.
Qed.

(** Three records of one row, the second hidden and the third visible. *)
Lemma visibility_hidden_middle p1 p2 p3 :
  rowKey p2 = rowKey p1 -> rowKey p3 = rowKey p1 ->
  id (entry p3) <> id (entry p1) ->
  clears p1 p2 = false -> clears p2 p3 = true ->
  visibility mt [p1; p2; p3] None =
  {| visibleSet := [id (entry p1); id (entry p3)];
     hiddenBadges := [closingBadge mt p1 [p2] p3] |}.
Proof.
  intros K2 K3 Hid H12 H23. unfold visibility.
  rewrite cullRows_spec.
  rewrite (groupRows_single (rowKey p1)).
  2:{ intros q [<-|[<-|[<-|[]]]]; auto. }
  cbn [map snd List.concat kept keptTail rowBadges scanBadges scanEnd last app].
  rewrite H12. cbn [last app]. rewrite H23.
  cbn [fold_left app]. f_equal.
  unfold addVisible, set_add_id. cbn [set_add].
  destruct (string_dec (id (entry p3)) (id (entry p1))); [contradiction|].
  reflexivity.
Qed.

End OneRow.

(** The stable layout would not put the three records of scenario A in
    one row: at the reference scale the label of the record of year 100
    reaches past year 105. *)
Lemma scenarioA_rows_of_stableLayout :
  map (fun le => (id (le_entry le), le_row le))
      (layoutEntries (stableLayout labelText (map le_entry scenarioEntries) dynasty))
  = [("r100", 0%nat); ("r105", 1%nat); ("r900", 0%nat)].
Proof. vm_compute. reflexivity. Qed.

(** The tests of the scan in scenario A. *)
Lemma scenarioA_clears (m ox oy s : Q) :
  (45 <= 7950 * s)%Q -> (5 * (s * 10) < 5)%Q ->
  match scenarioA (Fin m) {| offsetX := Fin ox; offsetY := Fin oy; scale := Fin s |} with
  | [p1; p2; p3] =>
      clears p1 p2 = false /\ clears p2 p3 = true
      /\ rowKey p2 = rowKey p1 /\ rowKey p3 = rowKey p1
      /\ id (entry p1) = "r100"%string /\ id (entry p2) = "r105"%string
      /\ id (entry p3) = "r900"%string
      /\ getYear (entry p1) false = 100 /\ badgeYearMax p3 = 900
  | _ => False
  end.
Proof.
  intros H1 H2. unfold scenarioA, scenarioEntries.
  cbn [map mapi_from]. unfold clears, projectEntry, yearToX.
  cbn [x width le_entry pointEntry isPeriod date_end scale offsetX id entry].
  unfold measureEventWidth, labelText, hasImage. cbn [image_url pointEntry].
  unfold getYear, dateYear, ofZ. cbn [date_start pointEntry era year].
  consts. 
  change 160 with (Fin 160). change 50 with (Fin 50). change 10 with (Fin 10).
  change 5 with (Fin 5). change 12 with (Fin 12). change 6 with (Fin 6).
  change 2.5 with (Fin 2.5).
  nfin.
  repeat split; try reflexivity; qprop; unfold inject_Z in *.
  - lra.
  - lra.
Qed.

Lemma string_of_uint_noColon d : noColon (NilEmpty.string_of_uint d) = true.
Proof. induction d; simpl; auto. Qed.

Lemma string_of_nat_noColon n : noColon (string_of_nat n) = true.
Proof.
  unfold string_of_nat, NilZero.string_of_uint.
  destruct (Nat.to_uint n); try reflexivity; apply string_of_uint_noColon.
Qed.

Lemma to_uint_nonnil n : Nat.to_uint n <> Decimal.Nil.
Proof.
  rewrite <- (DecimalNat.Unsigned.of_to n) at 1.
  rewrite DecimalNat.Unsigned.to_of. apply DecimalFacts.unorm_nonnil.
Qed.

Lemma string_of_nat_inj n m : string_of_nat n = string_of_nat m -> n = m.
Proof.
  unfold string_of_nat. intros H.
  apply (f_equal NilZero.uint_of_string) in H.
  rewrite !NilZero.usu in H by apply to_uint_nonnil.
  injection H as H. now apply DecimalNat.Unsigned.to_uint_inj.
Qed.

Lemma append_colon_inj g1 : forall g2 d1 d2,
  noColon d1 = true -> noColon d2 = true ->
  String.append g1 (String.append ":" d1) = String.append g2 (String.append ":" d2) ->
  g1 = g2 /\ d1 = d2.
Proof.
  induction g1 as [|c g1 IH]; intros [|c2 g2] d1 d2 H1 H2 E; simpl in E.
  - injection E as E. auto.
  - injection E as Ec E. subst d1. exfalso.
    clear - H1. induction g2 as [|c g2 IHg]; simpl in H1.
    + discriminate.
    + apply andb_true_iff in H1. tauto.
  - injection E as Ec E. subst d2. exfalso.
    clear - H2. induction g1 as [|c g1 IHg]; simpl in H2.
    + discriminate.
    + apply andb_true_iff in H2. tauto.
  - injection E as Ec E. subst c2.
    destruct (IH g2 d1 d2 H1 H2 E) as [-> ->]. auto.
Qed.

Lemma rowKey_inj p q :
  rowKey p = rowKey q -> group p = group q /\ row p = row q.
Proof.
  unfold rowKey. intros E.
  apply append_colon_inj in E; try apply string_of_nat_noColon.
  destruct E as [Eg Er]. split; [assumption|now apply string_of_nat_inj].
Qed.

(** The row of a record: the records of its group that have its row. *)
Lemma rowOf_group_row positioned p q :
  In p (rowOf (rowKey q) positioned)
  <-> In p positioned /\ group p = group q /\ row p = row q.
Proof.
  rewrite rowOf_In. split.
  - intros [Hp E]. apply rowKey_inj in E. tauto.
  - intros [Hp [Eg Er]]. split; [assumption|].
    unfold rowKey. now rewrite Eg, Er.
Qed.

Lemma existsb_seq_lt i j n : (i < j)%nat -> existsb (Nat.eqb i) (seq j n) = false.
Proof.
  revert j. induction n as [|n IH]; intros j Hlt; [reflexivity|].
  cbn [seq existsb]. rewrite IH by lia.
  destruct (Nat.eqb_spec i j); [lia|reflexivity].
Qed.

Lemma distinctb_seq i n : distinctb Nat.eqb (seq i n) = true.
Proof.
  revert i. induction n as [|n IH]; intros i; [reflexivity|].
  cbn [seq distinctb]. rewrite existsb_seq_lt by lia. apply IH.
Qed.

Section Refs.
Variable mt : string -> string -> num.

Lemma mapi_refs minYear viewState groupYMap l : forall i,
  map ref (mapi_from (projectEntry mt minYear viewState groupYMap) i l)
  = seq i (List.length l).
Proof.
  induction l as [|a l IH]; intros i; [reflexivity|].
  cbn [mapi_from map List.length seq]. now rewrite IH.
Qed.

(** [computeLayout] allocates a fresh object for every record. *)
Lemma computeLayout_distinctRefs sl minYear viewState :
  distinctRefs (computeLayout mt sl minYear viewState) = true.
Proof.
  unfold distinctRefs, computeLayout. rewrite mapi_refs. apply distinctb_seq.
Qed.

End Refs.

(* ================================================================== *)
(** * Facts about the stable layout *)

Section Sorting.
Variable A : Type.
Variable cmp : A -> A -> num.

Lemma insertSorted_perm a l : Permutation (insertSorted cmp a l) (a :: l).
Proof.
  induction l as [|b l IH]; cbn [insertSorted]; [reflexivity|].
  destruct (cmp b a >? 0); [reflexivity|].
  rewrite IH. apply perm_swap.
Qed.

Lemma jsSort_fold_perm l : forall acc,
  Permutation (fold_left (fun acc a => insertSorted cmp a acc) l acc) (acc ++ l).
Proof.
  induction l as [|a l IH]; intros acc; simpl.
  - now rewrite app_nil_r.
  - rewrite IH, insertSorted_perm. apply Permutation_middle.
Qed.

(** [sort] permutes. *)
Lemma jsSort_perm l : Permutation (jsSort cmp l) l.
Proof. unfold jsSort. now rewrite jsSort_fold_perm. Qed.
End Sorting.

Lemma flat_map_ext_In (A B : Type) (f g : A -> list B) l :
  (forall a, In a l -> f a = g a) -> flat_map f l = flat_map g l.
Proof.
  induction l as [|a l IH]; intros H; [reflexivity|].
  cbn [flat_map]. rewrite (H a (or_introl eq_refl)). f_equal.
  apply IH. intros b Hb. apply H. now right.
Qed.

Section Grouping.
Variable A : Type.
Variable keyOf : A -> string.

Lemma map_set_present_perm (k : string) (l : list A) (a : A) m :
  map_get k m = Some l ->
  Permutation (List.concat (map snd (map_set k (l ++ [a]) m)))
              (a :: List.concat (map snd m)).
Proof.
  induction m as [|[k0 v0] m IH]; simpl; [discriminate|].
  destruct (String.eqb_spec k k0) as [->|Hne]; simpl.
  - intros E. inversion E; subst. rewrite <- app_assoc. simpl.
    symmetry. apply Permutation_middle.
  - intros E. rewrite (IH E). symmetry.
    apply (Permutation_middle v0 (List.concat (map snd m)) a).
Qed.

Lemma map_set_absent_concat (k : string) (v : list A) m :
  map_get k m = None ->
  List.concat (map snd (map_set k v m)) = List.concat (map snd m) ++ v.
Proof.
  induction m as [|[k0 v0] m IH]; simpl.
  - intros _. now rewrite app_nil_r.
  - destruct (String.eqb_spec k k0); [discriminate|]. simpl.
    intros E. now rewrite (IH E), app_assoc.
Qed.

Lemma pushStep_perm m a :
  Permutation (List.concat (map snd (pushStep keyOf m a)))
              (a :: List.concat (map snd m)).
Proof.
  unfold pushStep, map_has.
  destruct (map_get (keyOf a) m) as [l|] eqn:E.
  - rewrite E. now apply map_set_present_perm.
  - rewrite map_get_set_eq.
    rewrite (map_set_present_perm (keyOf a) [] a (map_set (keyOf a) [] m)
               (map_get_set_eq _ _ _ _)).
    rewrite map_set_absent_concat by assumption. now rewrite app_nil_r.
Qed.

Lemma pushStep_fold_perm l : forall m,
  Permutation (List.concat (map snd (fold_left (pushStep keyOf) l m)))
              (List.concat (map snd m) ++ l).
Proof.
  induction l as [|a l IH]; intros m; simpl.
  - now rewrite app_nil_r.
  - rewrite IH, pushStep_perm. apply Permutation_middle.
Qed.

Lemma pushStep_keys m a :
  NoDup (map fst m) -> NoDup (map fst (pushStep keyOf m a)).
Proof.
  intros Hnd. unfold pushStep, map_has.
  destruct (map_get (keyOf a) m) eqn:E.
  - rewrite E, map_set_keys. unfold map_has. now rewrite E.
  - rewrite map_get_set_eq, map_set_keys. unfold map_has.
    rewrite map_get_set_eq, map_set_keys. unfold map_has. rewrite E.
    apply NoDup_app; auto.
    + constructor; [intros []|constructor].
    + intros b Hb [<-|[]]. revert Hb. now apply map_get_None_keys.
Qed.

Lemma pushStep_fold_keys l : forall m,
  NoDup (map fst m) -> NoDup (map fst (fold_left (pushStep keyOf) l m)).
Proof.
  induction l as [|a l IH]; intros m H; simpl; auto.
  apply IH. now apply pushStep_keys.
Qed.

(** Reading every key of a map gives back its values. *)
Lemma flat_map_keys (m : list (string * list A)) :
  NoDup (map fst m) ->
  flat_map (fun k => match map_get k m with Some l => l | None => [] end)
           (map fst m)
  = List.concat (map snd m).
Proof.
  induction m as [|[k v] m IH]; intros Hnd; [reflexivity|].
  inversion Hnd as [|? ? Hk Hm]; subst.
  cbn [map fst snd flat_map List.concat map_get]. rewrite String.eqb_refl.
  f_equal. rewrite <- (IH Hm). apply flat_map_ext_In.
  intros k' Hk'. destruct (String.eqb_spec k' k) as [->|Hne]; [contradiction|].
  reflexivity.
Qed.
End Grouping.

Lemma flat_map_perm_pointwise (A B : Type) (f g : A -> list B) l :
  (forall a, In a l -> Permutation (f a) (g a)) ->
  Permutation (flat_map f l) (flat_map g l).
Proof.
  induction l as [|a l IH]; intros H; [reflexivity|].
  cbn [flat_map]. apply Permutation_app.
  - apply H. now left.
  - apply IH. intros b Hb. apply H. now right.
Qed.

Section LayoutEntries.
Variable mt : string -> string -> num.

Lemma groupStep_fold mode es : forall gm gfy,
  fst (fold_left (groupStep mode) es (gm, gfy))
  = fold_left (pushStep (getGroupKey mode)) es gm.
Proof.
  induction es as [|e es IH]; intros gm gfy; [reflexivity|].
  cbn [fold_left].
  assert (E : exists gfy', groupStep mode (gm, gfy) e
                           = (pushStep (getGroupKey mode) gm e, gfy')).
  { unfold groupStep, pushStep. eexists. reflexivity. }
  destruct E as [gfy' ->]. apply IH.
Qed.

Lemma packStep_fold k es : forall rows les,
  map le_entry (snd (fold_left (packStep mt k) es (rows, les)))
  = map le_entry les ++ es.
Proof.
  induction es as [|e es IH]; intros rows les; simpl.
  - now rewrite app_nil_r.
  - rewrite IH, map_app. simpl. now rewrite <- app_assoc.
Qed.

Lemma packGroups_fold gm keys : forall les gs,
  map le_entry (fst (fold_left (packGroups mt gm) keys (les, gs)))
  = map le_entry les ++ flat_map (sortedGroup gm) keys.
Proof.
  induction keys as [|k keys IH]; intros les gs.
  - simpl. now rewrite app_nil_r.
  - cbn [fold_left flat_map]. unfold packGroups at 2.
    fold (sortedGroup gm k).
    destruct (fold_left (packStep mt k) (sortedGroup gm k) ([], les))
      as [rows les'] eqn:E.
    rewrite IH.
    assert (E' := packStep_fold k (sortedGroup gm k) [] les).
    rewrite E in E'. cbn [snd] in E'. rewrite E'. now rewrite <- app_assoc.
Qed.

(** The layout entries are the entries, permuted. *)
Lemma stableLayout_entries_perm es mode :
  Permutation (map le_entry (layoutEntries (stableLayout mt es mode))) es.
Proof.
  unfold stableLayout.
  destruct (fold_left (groupStep mode) es ([], [])) as [gm gfy] eqn:Egm.
  assert (Hgm : gm = fold_left (pushStep (getGroupKey mode)) es []).
  { rewrite <- (groupStep_fold mode es [] []). now rewrite Egm. }
  match goal with
  | |- context [fold_left (packGroups mt gm) ?keys ([], [])] =>
      set (sortedKeys := keys);
      destruct (fold_left (packGroups mt gm) sortedKeys ([], [])) as [les gs] eqn:Epk
  end.
  destruct (fold_left placeGroup gs (AXIS_HEIGHT, [])) as [cy gp].
  cbn [layoutEntries].
  assert (Hles := packGroups_fold gm sortedKeys [] []).
  rewrite Epk in Hles. cbn [fst map app] in Hles. rewrite Hles.
  assert (Hkeys : NoDup (map fst gm)).
  { rewrite Hgm. apply pushStep_fold_keys. constructor. }
  transitivity (flat_map (fun k => match map_get k gm with Some l => l | None => [] end)
                         (map fst gm)).
  - transitivity (flat_map (sortedGroup gm) (map fst gm)).
    + apply Permutation_flat_map. apply jsSort_perm.
    + apply flat_map_perm_pointwise. intros k _. apply jsSort_perm.
  - rewrite flat_map_keys by assumption. rewrite Hgm.
    now rewrite pushStep_fold_perm.
Qed.

Lemma mapi_entries minYear viewState groupYMap l : forall i,
  map entry (mapi_from (projectEntry mt minYear viewState groupYMap) i l)
  = map le_entry l.
Proof.
  induction l as [|a l IH]; intros i; [reflexivity|].
  cbn [mapi_from map]. now rewrite IH.
Qed.

(** Records with distinct ids are projected to records with distinct
    ids. *)
Lemma computeLayout_ids es mode minYear viewState :
  NoDup (map id es) ->
  NoDup (map (fun p => id (entry p))
             (computeLayout mt (stableLayout mt es mode) minYear viewState)).
Proof.
  intros Hnd. unfold computeLayout.
  rewrite <- (map_map entry id), mapi_entries.
  eapply Permutation_NoDup; [|exact Hnd].
  apply Permutation_map. symmetry. apply stableLayout_entries_perm.
Qed.

End LayoutEntries.

Lemma NoDup_distinctb (A : Type) (eqb : A -> A -> bool) (l : list A) :
  (forall a b, eqb a b = true <-> a = b) ->
  NoDup l -> distinctb eqb l = true.
Proof.
  intros Heq. induction l as [|a l IH]; intros Hnd; [reflexivity|].
  inversion Hnd as [|? ? Ha Hl]; subst. cbn [distinctb].
  rewrite (IH Hl), andb_true_r. apply negb_true_iff.
  destruct (existsb (eqb a) l) eqn:E; [|reflexivity].
  apply existsb_exists in E. destruct E as [b [Hb Eab]].
  apply Heq in Eab. subst b. contradiction.
Qed.

(** Every frame of a record set with distinct ids has distinct ids. *)
Lemma computeLayout_distinctIds (mt : string -> string -> num)
    (es : list TimelineEntry) (mode : GroupingMode) (minYear : num)
    (viewState : ViewState) :
  NoDup (map id es) ->
  distinctIds (computeLayout mt (stableLayout mt es mode) minYear viewState) = true.
Proof.
  intros Hnd. apply NoDup_distinctb; [apply String.eqb_eq|].
  now apply computeLayout_ids.
Qed.

(* ================================================================== *)
(** * Facts about the camera *)

Lemma minScale_not_PInf dims lo hi : minScale dims lo hi <> PInf.
Proof.
  unfold minScale.
  destruct ((dim_width dims - GROUP_LABEL_WIDTH - 100) / ((hi - lo) * 10))
    as [q| | |]; cbn; try congruence.
  destruct (Qle_bool 0.05 q); congruence.
Qed.

(** At scale zero the inverse mapping divides zero by zero. *)
Lemma xToYear_zero_scale (minYear ox oy v : Q) :
  let viewState := {| offsetX := Fin ox; offsetY := Fin oy; scale := 0 |} in
  xToYear (Fin minYear) viewState (yearToX (Fin minYear) viewState (Fin v)) = NaN.
Proof.
  intros viewState. unfold xToYear, yearToX, viewState. consts.
  cbn [scale offsetX]. nred.
  unfold ndiv.
  replace (Qeq_bool (0 * 10) 0) with true by reflexivity.
  unfold Qsign.
  match goal with |- context [(?q ?= 0)%Q] =>
    assert (E : (q ?= 0)%Q = Eq) by (apply Qeq_alt; field) end.
  rewrite E. reflexivity.
Qed.

Section OffsetY.
Variable mt : string -> string -> num.

Lemma drag_offsetY_in_bounds (t : Timeline) (e : MouseEvent) (h th : Q) :
  isDragging t = true ->
  dim_height (dimensions t) = Fin h ->
  totalHeightRef t = Fin th ->
  ds_offsetY (dragStart t) + (clientY e - ds_y (dragStart t)) <> NaN ->
  offsetYInBounds (Fin h) (Fin th) (offsetY (targetState (handleMouseMove t e))).
Proof.
  intros Hd Hh Hth Hv. unfold handleMouseMove. rewrite Hd.
  cbn [targetState offsetY]. rewrite Hh, Hth. unfold offsetYInBounds.
  consts. change 40 with (Fin 40). nfin.
  destruct (nmin0_fin (h - 40 - th)) as [r [Hr Hr0]].
  change (Fin 0) with 0 in Hr. rewrite Hr.
  apply clamp_between; [|assumption]. cbn. qprop. assumption.
Qed.

Lemma wheel_pan_offsetY_in_bounds (t : Timeline) (rect : Rect) (e : WheelEvent)
    (h th : Q) :
  ctrlKey e || metaKey e = false ->
  shiftKey e || (nabs (deltaX e) >? nabs (deltaY e)) = false ->
  dim_height (dimensions t) = Fin h ->
  totalHeightRef t = Fin th ->
  offsetY (targetState t) - deltaY e * SCROLL_SPEED <> NaN ->
  offsetYInBounds (Fin h) (Fin th) (offsetY (targetState (handleWheel t rect e))).
Proof.
  intros Hc Hs Hh Hth Hv. unfold handleWheel. rewrite Hc, Hs.
  unfold setTargetState. cbn [targetState withTarget offsetY].
  rewrite Hh, Hth. unfold offsetYInBounds.
  consts. change 40 with (Fin 40). nfin.
  destruct (nmin0_fin (h - 40 - th)) as [r [Hr Hr0]].
  change (Fin 0) with 0 in Hr. rewrite Hr.
  apply clamp_between; [|assumption]. cbn. qprop. assumption.
Qed.

Lemma fit_offsetY (t : Timeline) (h tot : Q) :
  dim_height (dimensions t) = Fin h ->
  totalHeight (t_stableLayout mt t) = Fin tot ->
  (forall p, In p (positionedEvents t) -> y p <> NaN) ->
  let contentHeight := totalHeight (t_stableLayout mt t) - AXIS_HEIGHT in
  let viewportHeight := dim_height (dimensions t) - AXIS_HEIGHT in
  if contentHeight <=? viewportHeight
  then offsetY (targetState (fit mt t)) = (viewportHeight - contentHeight) / 2
       /\ 0 <= offsetY (targetState (fit mt t))
  else offsetYInBounds (Fin h) (Fin tot) (offsetY (targetState (fit mt t))).
Proof.
  intros Hh Htot Hy contentHeight viewportHeight.
  unfold fit, setTargetState. cbn [targetState withTarget offsetY].
  fold contentHeight viewportHeight.
  destruct (contentHeight <=? viewportHeight) eqn:Hcmp.
  - split; [reflexivity|].
    unfold contentHeight, viewportHeight in *. rewrite Hh, Htot in *.
    consts. change 40 with (Fin 40) in *. change 2 with (Fin 2). nfin.
    rewrite ndiv_fin by (intros H; discriminate).
    change 0 with (Fin 0). nfin. qprop.
    assert (E : ((h - 40 - (tot - 40)) / 2 == (h - tot) * (1 # 2))%Q) by field.
    rewrite E. lra.
  - clear Hcmp. subst contentHeight viewportHeight.
    unfold offsetYInBounds. rewrite Hh, Htot.
    consts. change 40 with (Fin 40). nfin.
    destruct (nmin0_fin (h - 40 - tot)) as [r [Hr Hr0]].
    change (Fin 0) with 0 in Hr. rewrite Hr.
    assert (Hzero : Fin r <= 0 /\ 0 <= 0).
    { split; [|reflexivity]. cbn. qprop. assumption. }
    destruct (selectedEntry t) as [s|]; [|exact Hzero].
    destruct (findPos (id s) (positionedEvents t)) as [pos|] eqn:Hfind;
      [|exact Hzero].
    apply clamp_between; [cbn; qprop; assumption|].
    apply nneg_not_nan.
    change 28 with (Fin 28). change 2 with (Fin 2).
    rewrite !ndiv_fin by (intros H; discriminate).
    apply nsub_fin_not_nan, nadd_fin_not_nan, nsub_fin_not_nan.
    apply Hy. unfold findPos in Hfind. now apply find_some in Hfind.
Qed.

End OffsetY.

(** The operations that do not move the camera vertically: the zoom
    buttons, a badge click and a horizontal pan keep the target offset,
    and a wheel zoom takes the offset of the rendered state. *)
Lemma offsetY_of_other_operations (t : Timeline) :
  offsetY (targetState (zoomIn t)) = offsetY (targetState t)
  /\ offsetY (targetState (zoomOut t)) = offsetY (targetState t)
  /\ (forall badge prev, offsetY (badgeClickTarget t badge prev) = offsetY prev)
  /\ (forall rect e,
        ctrlKey e || metaKey e = true ->
        offsetY (targetState (handleWheel t rect e)) = offsetY (viewState t))
  /\ (forall rect e,
        ctrlKey e || metaKey e = false ->
        shiftKey e || (nabs (deltaX e) >? nabs (deltaY e)) = true ->
        offsetY (targetState (handleWheel t rect e)) = offsetY (targetState t)).
Proof.
  split; [reflexivity|]. split; [reflexivity|]. split; [reflexivity|]. split.
  - intros rect e Hmod. unfold handleWheel. now rewrite Hmod.
  - intros rect e Hmod Hpan. unfold handleWheel. now rewrite Hmod, Hpan.
Qed.

Section ScaleRange.
Variable mt : string -> string -> num.

(** The operations that clamp keep the target scale in [[minScale, 5]]. *)
Lemma clamping_operations_keep_scale (t : Timeline) :
  t_minScale t <> NaN ->
  scaleInRange (t_minScale t) (scale (targetState (fit mt t)))
  /\ (forall rect e,
        ctrlKey e || metaKey e = true ->
        scale (viewState t) * (1 - deltaY e * ZOOM_SPEED) <> NaN ->
        scaleInRange (t_minScale t) (scale (targetState (handleWheel t rect e))))
  /\ (forall s, scale (targetState t) = Fin s -> (s <= 5)%Q ->
        scaleInRange (t_minScale t) (scale (targetState (zoomOut t))))
  /\ (forall badge prev,
        badgeSolvedScale t badge <> NaN ->
        scaleInRange (t_minScale t) (scale (badgeClickTarget t badge prev))).
Proof.
  intros Hlo.
  pose proof (minScale_le_5 (dimensions t) (minYear t) (maxYear t) Hlo) as H5.
  pose proof (minScale_le_cap (dimensions t) (minYear t) (maxYear t) Hlo) as Hcap.
  fold (t_minScale t) in H5, Hcap.
  split; [|split; [|split]].
  - unfold scaleInRange. apply clamp_between; [exact H5|].
    unfold t_minScale, minScale in Hlo. now apply nmin_nan_r in Hlo.
  - intros rect e Hmod Hv. unfold scaleInRange, handleWheel. rewrite Hmod.
    cbn [targetState withTarget scale]. now apply clamp_between.
  - intros s Hs Hs5. unfold scaleInRange, zoomOut, setTargetState.
    cbn [targetState withTarget scale]. rewrite Hs.
    rewrite ndiv_fin by (intros E; discriminate). split.
    + apply nmax_lower; [exact Hlo|discriminate].
    + assert (E : (s / 1.3 == s * (10 # 13))%Q) by field.
      destruct (t_minScale t) as [lo| | |]; try congruence; try discriminate;
        cbn in *; qprop.
      * qcase; cbn [nle]; qprop; lra.
      * qprop. lra.
  - intros badge prev Hv. unfold scaleInRange, badgeClickTarget. cbn [scale].
    fold (badgePadding badge). fold (badgeAvailableWidth t badge).
    fold (badgeSolvedScale t badge).
    destruct (clamp_between 0.05 5 (badgeSolvedScale t badge) eq_refl Hv)
      as [Hl Hu].
    split; [|exact Hu].
    destruct (t_minScale t) as [lo| | |]; try congruence; try discriminate;
      destruct (nmax 0.05 (nmin 5 (badgeSolvedScale t badge))) as [v| | |];
      cbn in *; try discriminate; try reflexivity.
    qprop. lra.
Qed.

End ScaleRange.

Lemma npos_le (lo v : num) : 0 < lo -> lo <= v -> 0 < v.
Proof.
  destruct lo as [a| | |], v as [b| | |]; cbn; try discriminate;
    try reflexivity.
  intros H1 H2. qprop. lra.
Qed.

Lemma npos_not_nan (v : num) : 0 < v -> v <> NaN.
Proof. destruct v; cbn; congruence. Qed.

Lemma npos_mul_fin (v : num) (q : Q) : 0 < v -> (0 < q)%Q -> 0 < v * Fin q.
Proof.
  destruct v as [a| | |]; cbn; try discriminate.
  - intros H1 H2. qprop. nra.
  - intros _ H. unfold Qsign.
    assert (E : (q ?= 0)%Q = Gt) by (apply Qgt_alt; assumption).
    now rewrite E.
Qed.

Lemma npos_div_fin (v : num) (q : Q) : 0 < v -> (0 < q)%Q -> 0 < v / Fin q.
Proof.
  destruct v as [a| | |]; cbn; try discriminate.
  - intros H1 H2. destruct (Qeq_bool q 0) eqn:E; qprop; [lra|].
    cbn. qprop. apply Qlt_shift_div_l; lra.
  - intros _ H. unfold Qsign.
    assert (E : (q ?= 0)%Q = Gt) by (apply Qgt_alt; assumption).
    now rewrite E.
Qed.

Lemma npos_nmin (a b : num) : 0 < a -> 0 < b -> 0 < nmin a b.
Proof.
  destruct a as [x| | |], b as [y| | |]; cbn; try discriminate;
    try reflexivity; try tauto.
  intros H1 H2. qcase; assumption.
Qed.

Section Positive.
Variable mt : string -> string -> num.

(** While [minScale] is positive the target scale stays positive. *)
Lemma scale_stays_positive (t : Timeline) :
  0 < t_minScale t ->
  0 < scale (targetState t) ->
  0 < scale (targetState (zoomIn t))
  /\ 0 < scale (targetState (zoomOut t))
  /\ 0 < scale (targetState (fit mt t))
  /\ (forall rect e,
        ctrlKey e || metaKey e = true ->
        scale (viewState t) * (1 - deltaY e * ZOOM_SPEED) <> NaN ->
        0 < scale (targetState (handleWheel t rect e)))
  /\ (forall badge prev,
        badgeSolvedScale t badge <> NaN ->
        0 < scale (badgeClickTarget t badge prev))
  /\ (forall e, 0 < scale (targetState (scrollToEntry mt t e))).
Proof.
  intros Hlo Hs.
  pose proof (npos_not_nan _ Hlo) as Hnan.
  destruct (clamping_operations_keep_scale mt t Hnan)
    as [[Hfit _] [Hwheel [_ Hbadge]]].
  split; [|split; [|split; [|split; [|split]]]].
  - unfold zoomIn, setTargetState. cbn [targetState withTarget scale].
    apply npos_nmin; [reflexivity|].
    apply (npos_mul_fin _ 1.3); [assumption|reflexivity].
  - unfold zoomOut, setTargetState. cbn [targetState withTarget scale].
    apply (npos_le (t_minScale t)); [assumption|].
    apply nmax_lower; [assumption|]. apply npos_not_nan.
    apply (npos_div_fin _ 1.3); [assumption|reflexivity].
  - now apply (npos_le (t_minScale t)).
  - intros rect e Hmod Hv. apply (npos_le (t_minScale t)); [assumption|].
    now apply (Hwheel rect e).
  - intros badge prev Hv. apply (npos_le (t_minScale t)); [assumption|].
    now apply (Hbadge badge prev).
  - intros e. unfold scrollToEntry.
    destruct (findPos (id e) (positionedEvents t)) as [pos|]; [|assumption].
    unfold setTargetState. cbn [targetState withTarget scale].
    match goal with
    | |- context [if ?n >? 0 then _ else _] => destruct (n >? 0) eqn:Hn
    end; [|assumption].
    apply npos_nmin; [reflexivity|].
    apply (npos_mul_fin _ 1.1); [assumption|reflexivity].
Qed.

End Positive.

(* ================================================================== *)
(** * Properties of the specification *)

(* ------------------------------------------------------------------ *)
(** ** Camera scale *)

(** C1.  The claim is that every operation leaves the target scale within
    [[minScale, 5]].  [scrollToEntry] does not: in the sample [sparse] the
    target scale is within [[minScale, 5]], and after [scrollToEntry] on
    the record of year 1000 it is below [minScale]. *)
Theorem scrollToEntry_leaves_scale_range :
  scaleInRange (t_minScale sparse) (scale (targetState sparse))
  /\ scale (targetState (scrollToEntry monoText sparse (pointEntry "e1000" 1000 "B")))
     < t_minScale sparse.
Proof. vm_compute. repeat split. Qed.

(** C9, amended.  For a record set that spans more than one year,
    [minScale] is the smaller of 0.05 and the scale [fitScale] at which
    the span fills the available width: it is [fitScale] when that is at
    most 0.05, and 0.05 otherwise. *)
Theorem minScale_is_capped_fit_scale (es : list TimelineEntry)
    (dims : Dimensions) (w : Q) :
  es <> [] ->
  dim_width dims = Fin w ->
  minYearOf es < maxYearOf es ->
  let span := maxYearOf es - minYearOf es in
  let available := dim_width dims - GROUP_LABEL_WIDTH - 100 in
  let fitScale := available / (span * 10) in
  span * fitScale * 10 == available
  /\ minScale dims (minYearOf es) (maxYearOf es) = nmin 0.05 fitScale
  /\ (if fitScale <=? 0.05
      then minScale dims (minYearOf es) (maxYearOf es) == fitScale
      else minScale dims (minYearOf es) (maxYearOf es) == 0.05).
Proof.
  intros _ Hw Hspan span available fitScale.
  unfold minScale, fitScale, available, span in *. rewrite Hw.
  unfold minYearOf, maxYearOf in *.
  destruct (yearBounds_finite es) as [lo [hi Hb]]. rewrite Hb in *.
  cbn [fst snd] in *. consts.
  change 160 with (Fin 160). change 100 with (Fin 100). change 10 with (Fin 10).
  nfin. qprop.
  assert (Hz : ~ ((hi - lo) * 10 == 0)%Q) by (intros H; lra).
  rewrite ndiv_fin by assumption. nfin.
  split; [|split].
  - qprop. field. intros H; apply Hz; lra.
  - reflexivity.
  - change 0.05 with (Fin 0.05). nfin. cbn [nmin].
    repeat (qcase; nfin); qprop; try lra; reflexivity.
Qed.

(** The theorem of C9 at a sample. *)
Lemma minScale_is_capped_fit_scale_witness :
  let span := maxYearOf sparseEntries - minYearOf sparseEntries in
  let available := 2260 - GROUP_LABEL_WIDTH - 100 in
  let fitScale := available / (span * 10) in
  span * fitScale * 10 == available
  /\ minScale {| dim_width := 2260; dim_height := 600 |}
       (minYearOf sparseEntries) (maxYearOf sparseEntries) = nmin 0.05 fitScale
  /\ (if fitScale <=? 0.05
      then minScale {| dim_width := 2260; dim_height := 600 |}
             (minYearOf sparseEntries) (maxYearOf sparseEntries) == fitScale
      else minScale {| dim_width := 2260; dim_height := 600 |}
             (minYearOf sparseEntries) (maxYearOf sparseEntries) == 0.05).
Proof.
  apply (minScale_is_capped_fit_scale sparseEntries
           {| dim_width := 2260; dim_height := 600 |} 2260).
  - discriminate.
  - reflexivity.
  - reflexivity.
Defined.

(** C9 as stated fails when the fit scale exceeds 0.05: for the sample
    records in a viewport 2260 pixels wide, [minScale] is 0.05 and the
    span takes 1000 of the 2000 available pixels. *)
Lemma minScale_not_fit_scale :
  ~ ((maxYearOf sparseEntries - minYearOf sparseEntries)
     * minScale {| dim_width := 2260; dim_height := 600 |}
         (minYearOf sparseEntries) (maxYearOf sparseEntries)
     * 10
     == 2260 - GROUP_LABEL_WIDTH - 100).
Proof. vm_compute. discriminate. Qed.

(* ------------------------------------------------------------------ *)
(** ** Year and pixel *)

(** C4, amended.  For every camera state whose scale is not zero and every year or
    pixel coordinate, [xToYear (yearToX y) = y] and
    [yearToX (xToYear x) = x]; exactly so, since rounding is not
    modelled.  The operations keep a positive scale positive while
    [minScale] is positive ([scale_stays_positive]). *)
Theorem year_pixel_roundtrip (minYear ox oy s v : Q) :
  ~ (s == 0)%Q ->
  let viewState := {| offsetX := Fin ox; offsetY := Fin oy; scale := Fin s |} in
  xToYear (Fin minYear) viewState (yearToX (Fin minYear) viewState (Fin v)) == Fin v
  /\ yearToX (Fin minYear) viewState (xToYear (Fin minYear) viewState (Fin v)) == Fin v.
Proof.
  intros Hs viewState.
  assert (Hppy : ~ (s * 10 == 0)%Q) by (intros H; apply Hs; lra).
  unfold xToYear, yearToX, viewState. consts.
  cbn [scale offsetX]. nred.
  rewrite !ndiv_fin by assumption.
  nred. split; qprop; field; assumption.
Qed.

(** The theorem of C4 at a sample. *)
Lemma year_pixel_roundtrip_witness :
  let viewState := {| offsetX := 0; offsetY := 0; scale := 0.05 |} in
  xToYear 0 viewState (yearToX 0 viewState 1000) == 1000
  /\ yearToX 0 viewState (xToYear 0 viewState 1000) == 1000.
Proof. apply (year_pixel_roundtrip 0 0 0 0.05 1000). intros H. discriminate. Defined.

(** C4 as stated fails at scale zero, which the component reaches: in a
    viewport 260 pixels wide the initial fit sets the scale to 0, every
    year projects to pixel 210, and the way back divides zero by zero. *)
Lemma year_pixel_roundtrip_fails_at_scale_zero :
  scale (viewState narrow) == 0
  /\ yearToX (minYear narrow) (viewState narrow) 1000 == 210
  /\ ~ (xToYear (minYear narrow) (viewState narrow)
          (yearToX (minYear narrow) (viewState narrow) 1000) == 1000).
Proof. vm_compute. repeat split. discriminate. Qed.

(* ------------------------------------------------------------------ *)
(** ** Zooming *)




(** In exact arithmetic, when the target scale [s] satisfies
    [minScale <= s] and [1.3 * s <= 5], [zoomIn] followed by [zoomOut]
    restores the target. *)
Lemma zoomIn_then_zoomOut_exact (t : Timeline) (s : Q) :
  scale (targetState t) = Fin s ->
  t_minScale t <= Fin s ->
  Fin s * 1.3 <= 5 ->
  offsetX (targetState (zoomOut (zoomIn t))) = offsetX (targetState t)
  /\ offsetY (targetState (zoomOut (zoomIn t))) = offsetY (targetState t)
  /\ scale (targetState (zoomOut (zoomIn t))) == scale (targetState t).
Proof.
  intros Hs Hlo Hhi. split; [reflexivity|]. split; [reflexivity|].
  unfold zoomOut, zoomIn, setTargetState.
  cbn [targetState withTarget scale].
  change (t_minScale (withTarget t _ true)) with (t_minScale t).
  rewrite Hs in *. cbn [nmul] in *.
  assert (H13 : ~ (1.3 == 0)%Q) by (intros H; discriminate).
  assert (Hv : exists v, nmin 5 (Fin (s * 1.3)) = Fin v /\ (v / 1.3 == s)%Q).
  { cbn [nmin nle] in *. qprop. qcase; qprop.
    - exists 5%Q. split; [reflexivity|].
      assert (E : (s * 1.3 == 5)%Q) by lra. rewrite <- E. now field.
    - exists (s * 1.3)%Q. split; [reflexivity|]. now field. }
  destruct Hv as [v [-> Hv]]. rewrite ndiv_fin by assumption.
  destruct (t_minScale t) as [lo| | |]; try discriminate; nred; qprop.
  - qcase; nred; qprop; lra.
  - qprop. assumption.
Qed.

(** Near the ceiling the target is not restored: from the target scale
    that seventeen calls of [zoomIn] reach (about 4.33), [zoomIn] stops at
    5 and [zoomOut] returns 5 / 1.3. *)
Lemma zoomIn_then_zoomOut_at_ceiling :
  ~ (scale (targetState (zoomOut (zoomIn zoomedIn)))
     == scale (targetState zoomedIn)).
Proof. vm_compute. discriminate. Qed.

(* ------------------------------------------------------------------ *)
(** ** The zoom buttons with rounding *)

Lemma zoomRounded_exact (t : Timeline) :
  zoomInRounded (fun x => x) t = zoomIn t
  /\ zoomOutRounded (fun x => x) (t_minScale t) t = zoomOut t.
Proof.
  unfold zoomInRounded, zoomOutRounded, zoomIn, zoomOut, setTargetState.
  assert (E : forall a, nround (fun x => x) a = a) by (intros [q| | |]; reflexivity).
  now rewrite !E.
Qed.

Lemma roundGrid_within :
  roundsWithin roundGrid (1 # 9007199254740992) (1 # 256) 16.
Proof.
  intros x Hlo Hhi. unfold roundGrid.
  set (k := inject_Z (2 ^ 60)).
  assert (Hk : (k == 1152921504606846976)%Q) by (vm_compute; reflexivity).
  set (y := (x * k + (1 # 2))%Q).
  pose proof (Qfloor_le y) as H1. pose proof (Qlt_floor y) as H2.
  assert (E : (inject_Z (Qfloor y + 1) == inject_Z (Qfloor y) + 1)%Q)
    by (rewrite inject_Z_plus; reflexivity).
  rewrite E in H2. clear E.
  set (f := inject_Z (Qfloor y)) in *.
  assert (Hk0 : (0 < k)%Q) by (rewrite Hk; reflexivity).
  split.
  - apply Qle_shift_div_l; [exact Hk0|]. unfold y in *. rewrite Hk in *. nra.
  - apply Qle_shift_div_r; [exact Hk0|]. unfold y in *. rewrite Hk in *. nra.
Qed.

Section RoundTrip.

Variable rnd : Q -> Q.
Variables u lo hi : Q.
Hypothesis Hu0 : (0 <= u)%Q.
Hypothesis Hu8 : (u <= 1 # 8)%Q.
Hypothesis Hlo0 : (0 < lo)%Q.
Hypothesis Hlo1 : (lo <= 1)%Q.
Hypothesis Hhi : (8 <= hi)%Q.
Hypothesis Hrnd : roundsWithin rnd u lo hi.

Lemma zoomFactor_bounds :
  (1.3 * (1 - u) <= rnd 1.3)%Q /\ (rnd 1.3 <= 1.3 * (1 + u))%Q /\ (1 < rnd 1.3)%Q.
Proof.
  destruct (Hrnd 1.3%Q) as [H1 H2]; [lra|lra|].
  repeat split; try assumption. nra.
Qed.

Lemma zoomRounded_scale (minScale : num) (t : Timeline) (s : Q) :
  scale (targetState t) = Fin s ->
  (2 * lo <= s)%Q ->
  minScale <= Fin s ->
  (s * rnd 1.3 <= 5)%Q ->
  exists s',
    scale (targetState (zoomOutRounded rnd minScale (zoomInRounded rnd t))) = Fin s'
    /\ (s * (1 - u) * (1 - u) <= s')%Q /\ (s' <= s * (1 + u) * (1 + u))%Q.
Proof.
  intros Hs Hs2 Hmin Hs5.
  destruct zoomFactor_bounds as [Hc1 [Hc2 Hc]].
  set (c := rnd 1.3%Q) in *.
  unfold zoomOutRounded, zoomInRounded, setTargetState.
  cbn [targetState withTarget scale nround]. fold c. rewrite Hs.
  cbn [nmul nround].
  (* the product *)
  destruct (Hrnd (s * c)%Q) as [Hp1 Hp2]; [nra|nra|].
  set (p := rnd (s * c)%Q) in *.
  assert (Hs1 : exists s1, nmin 5 (Fin p) = Fin s1
                           /\ (s * c * (1 - u) <= s1)%Q /\ (s1 <= s * c * (1 + u))%Q).
  { cbn [nmin nle]. qcase; qprop; eexists; (split; [reflexivity|]); split; nra. }
  destruct Hs1 as [s1 [-> [Hs1a Hs1b]]].
  assert (Hc0 : ~ (c == 0)%Q) by lra.
  rewrite ndiv_fin by exact Hc0. cbn [nround].
  (* the quotient *)
  assert (Hd1 : (s * (1 - u) <= s1 / c)%Q) by (apply Qle_shift_div_l; nra).
  assert (Hd2 : (s1 / c <= s * (1 + u))%Q) by (apply Qle_shift_div_r; nra).
  set (d := (s1 / c)%Q) in *.
  destruct (Hrnd d) as [Hq1 Hq2]; [nra|nra|].
  set (q := rnd d) in *.
  destruct minScale as [m| | |]; cbn [nle] in Hmin; try discriminate; cbn [nmax nle].
  - qprop. qcase; qprop; eexists; (split; [reflexivity|]); split; nra.
  - eexists. split; [reflexivity|]. split; nra.
Qed.

End RoundTrip.




(** C5.  A click that hits a badge sets a target under which the left end
    of the padded span [[yearMin - pad, yearMax + pad]] projects to the
    left edge of the plot and the padded span is as wide as the available
    width (the viewport width less the label column and the label of the
    rightmost record), whenever the solved scale lies within [[0.05, 5]],
    where [pad = max (0.15 * (yearMax - yearMin)) 20]; for a badge from
    100 to 105, [pad = 20]. *)
Theorem badge_click_fits_padded_span
    (t : Timeline) (rect : Rect) (e : MouseEvent) (badge : BadgeHitRect)
    (w l ymin ymax m : Q) :
  hasDragged t = false ->
  (clientX e - rect_left rect <? GROUP_LABEL_WIDTH)
  || (clientY e - rect_top rect <? AXIS_HEIGHT) = false ->
  find (hitBadge (clientX e - rect_left rect) (clientY e - rect_top rect))
       (badgeHitRects t) = Some badge ->
  dim_width (dimensions t) = Fin w ->
  b_rightmostLabelWidth badge = Fin l ->
  b_minYear badge = Fin ymin ->
  b_maxYear badge = Fin ymax ->
  minYear t = Fin m ->
  0.05 <= badgeSolvedScale t badge ->
  badgeSolvedScale t badge <= 5 ->
  let t' := fst (handleClick t rect e) in
  let pad := badgePadding badge in
  yearToX (minYear t') (targetState t') (b_minYear badge - pad) == GROUP_LABEL_WIDTH
  /\ yearToX (minYear t') (targetState t') (b_maxYear badge + pad)
     - yearToX (minYear t') (targetState t') (b_minYear badge - pad)
     == badgeAvailableWidth t badge
  /\ scale (targetState t') == badgeSolvedScale t badge
  /\ (forall bx by_ bw bh lw,
        badgePadding {| b_x := bx; b_y := by_; b_w := bw; b_h := bh;
                        b_minYear := 100; b_maxYear := 105;
                        b_rightmostLabelWidth := lw |} == 20).
Proof.
  intros Hdrag Hin Hfind Hw Hl Hmin Hmax Hm Hlo Hhi t' pad.
  assert (Ht' : t' = setTargetState t (badgeClickTarget t badge)).
  { unfold t', handleClick. now rewrite Hdrag, Hin, Hfind. }
  assert (Hpad : exists p, pad = Fin p /\ (20 <= p)%Q).
  { unfold pad, badgePadding. rewrite Hmin, Hmax. nred.
    qcase; qprop; eexists; split; try reflexivity; lra. }
  destruct Hpad as [p [Hp Hp20]].
  rewrite Ht'. unfold setTargetState, badgeClickTarget.
  change (minYear (withTarget t _ true)) with (minYear t).
  cbn [targetState withTarget scale offsetX offsetY].
  unfold badgeSolvedScale, badgeAvailableWidth in *.
  fold pad in Hlo, Hhi. fold (badgePadding badge). fold pad.
  rewrite Hw, Hl, Hmin, Hmax, Hm, Hp in *.
  unfold yearToX. consts. cbn [scale offsetX].
  cbn [nadd nsub nneg nmul] in Hlo, Hhi. cbn [nadd nsub nneg nmul].
  destruct (ndiv_bounded _ _ _ _ Hlo Hhi) as [Hz [Hdiv [Hq1 Hq2]]].
  rewrite Hdiv.
  destruct (clamp_fin_id _ _ Hq1 Hq2) as [q' [Hclamp Hq']].
  change (Fin 0.05) with 0.05 in Hclamp. rewrite Hclamp.
  nred. repeat split.
  - qprop. rewrite Hq'. field. intros H; apply Hz; lra.
  - qprop. rewrite Hq'. field. intros H; apply Hz; lra.
  - qprop. exact Hq'.
Qed.

(** The theorem of C5 at a sample. *)
Lemma badge_click_fits_padded_span_witness :
  exists badge,
    find (hitBadge 990 50) (badgeHitRects clustered) = Some badge
    /\ let t' := fst (handleClick clustered originRect badgeClick) in
       yearToX (minYear t') (targetState t') (b_minYear badge - badgePadding badge)
       == GROUP_LABEL_WIDTH
       /\ yearToX (minYear t') (targetState t') (b_maxYear badge + badgePadding badge)
          - yearToX (minYear t') (targetState t') (b_minYear badge - badgePadding badge)
          == badgeAvailableWidth clustered badge.
Proof.
  assert (Hfind : exists badge,
             find (hitBadge (clientX badgeClick - rect_left originRect)
                            (clientY badgeClick - rect_top originRect))
                  (badgeHitRects clustered) = Some badge
             /\ b_rightmostLabelWidth badge = Fin (65 # 1)
             /\ b_minYear badge = Fin 1000 /\ b_maxYear badge = Fin 2000).
  { vm_compute. eexists. repeat split. }
  destruct Hfind as [badge [Hfind [Hl [Hmin Hmax]]]].
  exists badge. split.
  { revert Hfind. vm_compute. exact (fun H => H). }
  destruct (badge_click_fits_padded_span clustered originRect badgeClick badge
              1260%Q 65%Q 1000%Q 2000%Q 0%Q) as [H1 [H2 _]];
    try assumption; try (vm_compute; reflexivity).
  - unfold badgeSolvedScale, badgeAvailableWidth, badgePadding.
    rewrite Hl, Hmin, Hmax. vm_compute. reflexivity.
  - unfold badgeSolvedScale, badgeAvailableWidth, badgePadding.
    rewrite Hl, Hmin, Hmax. vm_compute. reflexivity.
  - split; assumption.
Defined.

(* ------------------------------------------------------------------ *)
(** ** Vertical offset *)



(** After [fit] when the content is shorter than the viewport the target
    [offsetY] is above 0: in the sample [sparse] it is 266. *)
Lemma fit_centres_short_content :
  let contentHeight := totalHeight (t_stableLayout monoText sparse) - AXIS_HEIGHT in
  let viewportHeight := dim_height (dimensions sparse) - AXIS_HEIGHT in
  let oy := offsetY (targetState (fit monoText sparse)) in
  ~ (nmin 0 (viewportHeight - contentHeight) <= oy /\ oy <= 0).
Proof. vm_compute. intros [_ H]. discriminate. Qed.


(** [scrollToEntry] sets the target [offsetY] without the clamp that [fit]
    applies to the same expression: in the sample [squat] it is 16. *)
Lemma scrollToEntry_offsetY_unclamped :
  offsetY (targetState (scrollToEntry monoText squat (pointEntry "e1000" 1000 "B")))
  == 16
  /\ offsetY (targetState (fit monoText squat)) <= 0.
Proof. vm_compute. split; reflexivity. Qed.

(* ------------------------------------------------------------------ *)
(** ** Visibility and badges *)

(** C2, amended.  In every row, when ids are distinct, the visible records
    of the row plus the counts of the badges anchored in the row are the
    records of the row, plus one when the selected entry is a record of the
    row that the scan hid: that record is drawn and also counted by the
    badge of its run.  A row is the records of one row key, that is of one
    group and row ([rowOf_group_row]); the ids of a frame are distinct when
    the ids of the records are ([computeLayout_distinctIds]). *)
Theorem row_accounting_selected (mt : string -> string -> num)
    (positioned : list PositionedEvent) (selected : option TimelineEntry)
    (rk : string) :
  distinctIds positioned = true ->
  (List.length (visibleInRow rk positioned (visibility mt positioned selected))
   + hiddenTotal (badgesOfRow rk (visibility mt positioned selected)))%nat
  = (List.length (rowOf rk positioned)
     + if selectedCulled mt rk positioned selected then 1 else 0)%nat.
Proof.
  intros Hd. apply distinctIds_NoDup in Hd.
  pose proof (visibleInRow_cull mt rk positioned Hd) as Hvis.
  pose proof (badgesOfRow_cull mt rk positioned) as Hbad.
  pose proof (row_accounting mt (rowOf rk positioned)) as Hacc.
  unfold selectedCulled, visibility. destruct selected as [s|].
  - unfold visibleInRow, badgesOfRow in *. cbn [visibleSet hiddenBadges].
    rewrite filter_add_one by (now apply rowOf_NoDup_ids).
    rewrite Hvis, Hbad. lia.
  - rewrite Hvis, Hbad. lia.
Qed.

(** The theorem of C2 at a sample. *)
Lemma row_accounting_selected_witness :
  let positioned := positionedEvents (dense (Some (pointEntry "e100" 100 "B"))) in
  let selected := Some (pointEntry "e100" 100 "B") in
  (List.length (visibleInRow "Capetiens:0" positioned
                  (visibility monoText positioned selected))
   + hiddenTotal (badgesOfRow "Capetiens:0"
                    (visibility monoText positioned selected)))%nat
  = (List.length (rowOf "Capetiens:0" positioned)
     + if selectedCulled monoText "Capetiens:0" positioned selected
       then 1 else 0)%nat.
Proof.
  apply (row_accounting_selected monoText (positionedEvents (dense (Some (pointEntry "e100" 100 "B"))))
           (Some (pointEntry "e100" 100 "B")) "Capetiens:0").
  vm_compute. reflexivity.
Defined.

(** C2 as stated fails when the selected record lies inside a hidden run:
    in the sample [dense], with the record of year 100 selected, the row
    has 4 records, 3 of them visible, and a badge of count 2. *)
Lemma selected_hidden_record_counted_twice :
  let positioned := positionedEvents (dense (Some (pointEntry "e100" 100 "B"))) in
  let v := visibility monoText positioned (Some (pointEntry "e100" 100 "B")) in
  (List.length (visibleInRow "Capetiens:0" positioned v)
   + hiddenTotal (badgesOfRow "Capetiens:0" v))%nat
  <> List.length (rowOf "Capetiens:0" positioned).
Proof. vm_compute. discriminate. Qed.

(** C3, amended.  The records of scenario A are not laid out in one row:
    the stable layout puts the record of year 105 in a second row.  For
    three records that are in one row, the second not clearing the first
    and the third clearing the second, the first and the third are visible
    and the second is folded into one badge of count 1, with [yearMin] the
    ordering year of the first and [yearMax] the end year of the third, or
    its start year when it has no end year or the end year is zero.  In
    general a badge of the pass either closes a hidden run [run] between
    the records [a] and [c] of its row, where [a] is the visible record
    just before the run, with [yearMin] the ordering year of [a] and
    [yearMax] the end year of [c], or its start year when it has no end
    year or the end year is zero; or it is a trailing badge. *)
Theorem hidden_run_badge_years :
  map (fun le => (id (le_entry le), le_row le))
      (layoutEntries (stableLayout labelText (map le_entry scenarioEntries) dynasty))
  = [("r100", 0%nat); ("r105", 1%nat); ("r900", 0%nat)]
  /\ (forall mt p1 p2 p3,
        rowKey p2 = rowKey p1 -> rowKey p3 = rowKey p1 ->
        id (entry p3) <> id (entry p1) ->
        clears p1 p2 = false -> clears p2 p3 = true ->
        let v := visibility mt [p1; p2; p3] None in
        visibleSet v = [id (entry p1); id (entry p3)]
        /\ exists b, hiddenBadges v = [b] /\ count b = 1%nat
                     /\ yearMin b = getYear (entry p1) false
                     /\ yearMax b = endOrStartYear (entry p3))
  /\ (forall mt positioned selected b,
        In b (hiddenBadges (visibility mt positioned selected)) ->
        let events := rowOf (rowKey (afterPos b)) positioned in
        (exists pre a run c post,
            events = pre ++ a :: run ++ c :: post
            /\ run <> [] /\ startsVisible pre a /\ allHidden a run = true
            /\ clears (last run a) c = true
            /\ afterPos b = a /\ beforePos b = c
            /\ count b = List.length run
            /\ yearMin b = getYear (entry a) false
            /\ yearMax b = endOrStartYear (entry c))
        \/ trailingBadge mt events b).
Proof.
  split; [vm_compute; reflexivity|]. split.
  - intros mt p1 p2 p3 K2 K3 Hid H12 H23 v. unfold v.
    rewrite (visibility_hidden_middle mt p1 p2 p3 K2 K3 Hid H12 H23).
    cbn [visibleSet hiddenBadges]. split; [reflexivity|].
    exists (closingBadge mt p1 [p2] p3).
    cbn [closingBadge count yearMin yearMax List.length].
    rewrite badgeYearMax_spec. auto.
  - intros mt positioned selected b Hb events.
    destruct (pass_badge_shape mt positioned selected b Hb) as [Hc|Ht];
      [left|right; exact Ht].
    destruct Hc as [pre a run c post Hev Hrun Hvis Hhid Hcl Ha Hc Hn Hmin Hmax _].
    exists pre, a, run, c, post. rewrite <- badgeYearMax_spec. tauto.
Qed.

(** The theorem of C3 at two frames of the component: the three records
    of [triple], and the badges of [dense]. *)
Lemma hidden_run_badge_years_witness :
  (let v := visibility monoText (positionedEvents triple) None in
   visibleSet v = ["e0"; "e2000"]
   /\ exists b, hiddenBadges v = [b] /\ count b = 1%nat
                /\ yearMin b = 0 /\ yearMax b = 2000)
  /\ hiddenBadges (visibility monoText (positionedEvents (dense None)) None) <> []
  /\ Forall
       (fun b =>
          let events := rowOf (rowKey (afterPos b)) (positionedEvents (dense None)) in
          (exists pre a run c post,
              events = pre ++ a :: run ++ c :: post
              /\ run <> [] /\ startsVisible pre a /\ allHidden a run = true
              /\ clears (last run a) c = true
              /\ afterPos b = a /\ beforePos b = c
              /\ count b = List.length run
              /\ yearMin b = getYear (entry a) false
              /\ yearMax b = endOrStartYear (entry c))
          \/ trailingBadge monoText events b)
       (hiddenBadges (visibility monoText (positionedEvents (dense None)) None)).
Proof.
  destruct hidden_run_badge_years as [_ [Hthree Hgeneral]].
  split; [|split].
  - let l := eval vm_compute in (positionedEvents triple) in
    match l with
    | [?p1; ?p2; ?p3] =>
        change (positionedEvents triple) with [p1; p2; p3];
        apply (Hthree monoText p1 p2 p3)
    end.
    + reflexivity.
    + reflexivity.
    + discriminate.
    + vm_compute. reflexivity.
    + vm_compute. reflexivity.
  - vm_compute. discriminate.
  - apply Forall_forall. intros b Hb.
    exact (Hgeneral monoText (positionedEvents (dense None)) None b Hb).
Defined.

(** Were the three records of scenario A in one row, the only badge at
    scale 0.05 would not have [yearMax = 105]. *)
Lemma scenarioA_badge_spans_to_900 :
  let v :=
    visibility labelText
      (scenarioA 0 {| offsetX := 0; offsetY := 0; scale := 0.05 |}) None in
  ~ (exists b, hiddenBadges v = [b] /\ count b = 1%nat
               /\ yearMin b == 100 /\ yearMax b == 105).
Proof.
  vm_compute. intros [b [E [_ [_ H]]]].
  injection E as <-. discriminate.
Qed.

(** C3 as stated fails at frames of the component.  In [dense], at the fit
    scale, the row holds the records of years 0, 100, 200 and 2000; the
    pass keeps the first and the last and folds the run of the records of
    100 and 200 into one badge, whose [yearMin] is 0, the year of the
    visible record before the run, not 100, the year of the first hidden
    record.  And the three records of scenario A, laid out by the
    component and painted at scale 0.05, are all visible, with no badge:
    the record of year 105 is in a second row. *)
Lemma closed_badge_starts_at_visible_record :
  (let positioned := positionedEvents (dense None) in
   let v := visibility monoText positioned None in
   map (fun p => (id (entry p), rowKey p, getYear (entry p) false)) positioned
   = [("e0", "Capetiens:0", 0); ("e100", "Capetiens:0", 100);
      ("e200", "Capetiens:0", 200); ("e2000", "Capetiens:0", 2000)]
   /\ visibleSet v = ["e0"; "e2000"]
   /\ exists b, hiddenBadges v = [b] /\ count b = 2%nat
                /\ yearMin b = 0 /\ yearMax b = 2000
                /\ ~ (yearMin b == 100))
  /\ (let v := visibility labelText (positionedEvents scenarioTimeline) None in
      scale (viewState scenarioTimeline) == 0.05
      /\ map (fun p => (id (entry p), row p)) (positionedEvents scenarioTimeline)
         = [("r100", 0%nat); ("r105", 1%nat); ("r900", 0%nat)]
      /\ visibleSet v = ["r100"; "r900"; "r105"]
      /\ hiddenBadges v = []).
Proof.
  split.
  - vm_compute. split; [reflexivity|]. split; [reflexivity|].
    eexists. split; [reflexivity|]. repeat split. discriminate.
  - vm_compute. repeat split.
Qed.

(** C10.  A badge of the pass is either the badge of a hidden run closed
    between two visible records of its row, and then, when the pixel gap
    between these two records is below 24, the badge loop skips it: it
    paints nothing and adds no hit rectangle for it; or it is a trailing
    badge, and then what is painted does not depend on any such gap.  The
    records of a frame are distinct objects
    ([computeLayout_distinctRefs]). *)
Theorem narrow_gap_badge_is_dropped
    (mt : string -> string -> num) (positioned : list PositionedEvent)
    (selected : option TimelineEntry) (dimensions : Dimensions)
    (viewState : ViewState) (b : HiddenBadge) :
  distinctRefs positioned = true ->
  In b (hiddenBadges (visibility mt positioned selected)) ->
  let events := rowOf (rowKey (afterPos b)) positioned in
  (closedBadge mt events b
   /\ (badgeGap b < 24 ->
       paintBadge mt dimensions viewState b = None
       /\ forall l1 l2,
            paintBadges mt dimensions viewState (l1 ++ b :: l2)
            = paintBadges mt dimensions viewState (l1 ++ l2)))
  \/ (trailingBadge mt events b
      /\ paintBadge mt dimensions viewState b
         = paintTrailing mt dimensions viewState b).
Proof.
  intros Hrefs Hb events. apply distinctRefs_NoDup in Hrefs.
  destruct (pass_badge_shape mt positioned selected b Hb) as [Hc|Ht].
  - left. split; [exact Hc|]. intros Hgap.
    assert (Hnone : paintBadge mt dimensions viewState b = None).
    { apply paintBadge_closed_gap; [|exact Hgap].
      apply (closed_refs_differ mt events); [|exact Hc].
      now apply rowOf_NoDup_refs. }
    split; [exact Hnone|]. intros l1 l2. now apply paintBadges_skip.
  - right. split; [exact Ht|].
    apply paintBadge_trailing. now apply (trailing_refs_same mt events).
Qed.

(** The theorem of C10 at a sample: the only badge of [overlapped] closes a
    run between two records that overlap, and the frame has no hit
    rectangle. *)
Lemma narrow_gap_badge_is_dropped_witness :
  badgeHitRects overlapped = []
  /\ hiddenBadges (visibility monoText (positionedEvents overlapped) None) <> []
  /\ Forall
       (fun b =>
          badgeGap b < 24
          /\ let events := rowOf (rowKey (afterPos b)) (positionedEvents overlapped) in
             (closedBadge monoText events b
              /\ (badgeGap b < 24 ->
                  paintBadge monoText (dimensions overlapped) (viewState overlapped) b
                  = None
                  /\ forall l1 l2,
                       paintBadges monoText (dimensions overlapped)
                         (viewState overlapped) (l1 ++ b :: l2)
                       = paintBadges monoText (dimensions overlapped)
                           (viewState overlapped) (l1 ++ l2)))
             \/ (trailingBadge monoText events b
                 /\ paintBadge monoText (dimensions overlapped) (viewState overlapped) b
                    = paintTrailing monoText (dimensions overlapped)
                        (viewState overlapped) b))
       (hiddenBadges (visibility monoText (positionedEvents overlapped) None)).
Proof.
  split; [vm_compute; reflexivity|].
  split; [vm_compute; discriminate|].
  apply Forall_forall. intros b Hb. split.
  - revert Hb. vm_compute. intros [<-|[]]. reflexivity.
  - apply (narrow_gap_badge_is_dropped monoText (positionedEvents overlapped)
             None (dimensions overlapped) (viewState overlapped) b).
    + vm_compute. reflexivity.
    + exact Hb.
Defined.

(* ================================================================== *)
(** * Further facts about numbers *)

Lemma nle_trans (a b c : num) : a <= b -> b <= c -> a <= c.
Proof.
  destruct a, b, c; cbn; try discriminate; try reflexivity.
  intros H1 H2. qprop. lra.
Qed.

Lemma nle_refl (a : num) : a <> NaN -> a <= a.
Proof. destruct a; cbn; try congruence; intros _. qprop. lra. Qed.

Lemma nmin_cases (a b : num) : nmin a b = a \/ nmin a b = b.
Proof. destruct a, b; cbn; auto. destruct (Qle_bool q q0); auto. Qed.

Lemma nmax_cases (a b : num) : nmax a b = a \/ nmax a b = b.
Proof. destruct a, b; cbn; auto. destruct (Qle_bool q q0); auto. Qed.

Lemma nmin_le_l (a b : num) : a <> NaN -> b <> NaN -> nmin a b <= a.
Proof.
  destruct a, b; cbn; try congruence; try reflexivity; intros _ _.
  - qcases; lra.
  - qprop; lra.
Qed.

Lemma nmin_le_r (a b : num) : a <> NaN -> b <> NaN -> nmin a b <= b.
Proof.
  destruct a, b; cbn; try congruence; try reflexivity; intros _ _.
  - qcases; lra.
  - qprop; lra.
Qed.

Lemma nmax_ge_l (a b : num) : a <> NaN -> b <> NaN -> a <= nmax a b.
Proof.
  destruct a, b; cbn; try congruence; try reflexivity; intros _ _.
  - qcases; lra.
  - qprop; lra.
Qed.

Lemma nmax_ge_r (a b : num) : a <> NaN -> b <> NaN -> b <= nmax a b.
Proof.
  destruct a, b; cbn; try congruence; try reflexivity; intros _ _.
  - qcases; lra.
  - qprop; lra.
Qed.

Lemma nmin_not_nan (a b : num) : a <> NaN -> b <> NaN -> nmin a b <> NaN.
Proof. intros. destruct (nmin_cases a b) as [-> | ->]; auto. Qed.

Lemma nmax_not_nan (a b : num) : a <> NaN -> b <> NaN -> nmax a b <> NaN.
Proof. intros. destruct (nmax_cases a b) as [-> | ->]; auto. Qed.

Lemma getYear_not_nan e isEnd : getYear e isEnd <> NaN.
Proof. destruct (getYear_finite e isEnd) as [q ->]. discriminate. Qed.

Lemma spanEnd_not_nan e : spanEnd e <> NaN.
Proof. unfold spanEnd. destruct (isPeriod e); apply getYear_not_nan. Qed.

(* ================================================================== *)
(** * Facts about the year range *)

Lemma yearBoundsStep_spec acc e :
  yearBoundsStep acc e = (nmin (fst acc) (getYear e false), nmax (snd acc) (spanEnd e)).
Proof. reflexivity. Qed.

Lemma yearBounds_fold es : forall lo hi,
  lo <> NaN -> hi <> NaN ->
  let r := fold_left yearBoundsStep es (lo, hi) in
  fst r <> NaN /\ snd r <> NaN
  /\ fst r <= lo /\ hi <= snd r
  /\ (forall e, In e es -> fst r <= getYear e false /\ spanEnd e <= snd r)
  /\ (fst r = lo \/ exists e, In e es /\ fst r = getYear e false)
  /\ (snd r = hi \/ exists e, In e es /\ snd r = spanEnd e).
Proof.
  induction es as [|e es IH]; intros lo hi Hlo Hhi; cbn [fold_left].
  - cbn. repeat split; auto using nle_refl; intros e [].
  - rewrite yearBoundsStep_spec. cbn [fst snd].
    assert (Hy := getYear_not_nan e false). assert (Hs := spanEnd_not_nan e).
    specialize (IH (nmin lo (getYear e false)) (nmax hi (spanEnd e))
                   (nmin_not_nan _ _ Hlo Hy) (nmax_not_nan _ _ Hhi Hs)).
    cbn zeta in IH. destruct IH as (N1 & N2 & L & U & All & Lo & Hi).
    cbn zeta. repeat split; auto.
    + eapply nle_trans; [exact L|]. now apply nmin_le_l.
    + eapply nle_trans; [|exact U]. now apply nmax_ge_l.
    + destruct H as [<-|H]; [|now apply All].
      eapply nle_trans; [exact L|]. now apply nmin_le_r.
    + destruct H as [<-|H]; [|now apply All].
      eapply nle_trans; [|exact U]. now apply nmax_ge_r.
    + destruct Lo as [Lo|[e' [He' Lo]]].
      * destruct (nmin_cases lo (getYear e false)) as [E|E];
          [left; now rewrite Lo|].
        right. exists e. split; [now left|now rewrite Lo].
      * right. exists e'. split; [now right|assumption].
    + destruct Hi as [Hi|[e' [He' Hi]]].
      * destruct (nmax_cases hi (spanEnd e)) as [E|E];
          [left; now rewrite Hi|].
        right. exists e. split; [now left|now rewrite Hi].
      * right. exists e'. split; [now right|assumption].
Qed.

(* ================================================================== *)
(** * The structure of the stable layout *)

Section Grouping2.
Variable A : Type.
Variable keyOf : A -> string.

Lemma pushStep_get k m a :
  map_get k (pushStep keyOf m a) =
  if String.eqb (keyOf a) k
  then Some (match map_get k m with Some l => l | None => [] end ++ [a])
  else map_get k m.
Proof.
  unfold pushStep, map_has.
  destruct (String.eqb_spec (keyOf a) k) as [<-|Hne].
  - destruct (map_get (keyOf a) m) eqn:E.
    + rewrite E. apply map_get_set_eq.
    + rewrite map_get_set_eq. now rewrite map_get_set_eq.
  - destruct (map_get (keyOf a) m) eqn:E.
    + rewrite E. now apply map_get_set_neq.
    + rewrite map_get_set_eq. rewrite !map_get_set_neq; auto.
Qed.

Lemma pushStep_fold_get k l : forall m,
  map_get k (fold_left (pushStep keyOf) l m) =
  match map_get k m, filter (fun a => String.eqb (keyOf a) k) l with
  | None, [] => None
  | None, r => Some r
  | Some e, r => Some (e ++ r)
  end.
Proof.
  induction l as [|p l IH]; intros m; simpl.
  - destruct (map_get k m); auto. now rewrite app_nil_r.
  - rewrite IH, pushStep_get.
    destruct (String.eqb (keyOf p) k).
    + destruct (map_get k m); simpl.
      * now rewrite <- app_assoc.
      * reflexivity.
    + reflexivity.
Qed.

Lemma map_get_keys_Some (V : Type) k (m : list (string * V)) :
  In k (map fst m) -> exists v, map_get k m = Some v.
Proof.
  induction m as [|[k0 v0] m IH]; simpl; [intros []|].
  destruct (String.eqb_spec k k0) as [->|Hne]; [eauto|].
  intros [E|H]; [congruence|auto].
Qed.

End Grouping2.

Section Structure.
Variable mt : string -> string -> num.

Lemma groupMapOf_get mode es k :
  map_get k (groupMapOf mode es) =
  match filter (fun e => String.eqb (getGroupKey mode e) k) es with
  | [] => None
  | r => Some r
  end.
Proof. unfold groupMapOf. now rewrite pushStep_fold_get. Qed.

Lemma groupMapOf_keys mode es : NoDup (map fst (groupMapOf mode es)).
Proof. apply pushStep_fold_keys. constructor. Qed.

Lemma groupMapOf_groupStep mode es :
  fst (fold_left (groupStep mode) es ([], [])) = groupMapOf mode es.
Proof. apply groupStep_fold. Qed.

Lemma sortedGroupKeys_perm mode es :
  Permutation (sortedGroupKeys mode es) (map fst (groupMapOf mode es)).
Proof.
  unfold sortedGroupKeys. rewrite <- groupMapOf_groupStep.
  destruct (fold_left (groupStep mode) es ([], [])) as [gm gfy].
  apply jsSort_perm.
Qed.

Lemma sortedGroupKeys_NoDup mode es : NoDup (sortedGroupKeys mode es).
Proof.
  eapply Permutation_NoDup; [symmetry; apply sortedGroupKeys_perm|].
  apply groupMapOf_keys.
Qed.

Lemma sortedGroupKeys_In mode es k :
  In k (sortedGroupKeys mode es) <-> exists e, In e es /\ getGroupKey mode e = k.
Proof.
  split.
  - intros H. apply (Permutation_in _ (sortedGroupKeys_perm mode es)) in H.
    apply map_get_keys_Some in H. destruct H as [v Hv].
    rewrite groupMapOf_get in Hv.
    destruct (filter _ es) as [|e r] eqn:E; [discriminate|].
    assert (He : In e (filter (fun e => String.eqb (getGroupKey mode e) k) es))
      by (rewrite E; now left).
    apply filter_In in He. destruct He as [He Hk].
    exists e. split; [assumption|]. now apply String.eqb_eq.
  - intros [e [He Hk]].
    apply (Permutation_in _ (Permutation_sym (sortedGroupKeys_perm mode es))).
    destruct (map_get k (groupMapOf mode es)) as [v|] eqn:E.
    + apply map_get_Some_In in E. apply (in_map fst) in E. exact E.
    + rewrite groupMapOf_get in E.
      assert (He' : In e (filter (fun e => String.eqb (getGroupKey mode e) k) es)).
      { apply filter_In. split; [assumption|]. now apply String.eqb_eq. }
      destruct (filter _ es); [destruct He'|discriminate].
Qed.

Lemma sortedGroup_perm mode es k :
  Permutation (sortedGroup (groupMapOf mode es) k)
              (filter (fun e => String.eqb (getGroupKey mode e) k) es).
Proof.
  unfold sortedGroup. rewrite jsSort_perm, groupMapOf_get.
  now destruct (filter _ es).
Qed.

(** The accumulated layout entries do not take part in the packing. *)
Lemma packStep_fold_app k es : forall rows les,
  fold_left (packStep mt k) es (rows, les)
  = (fst (fold_left (packStep mt k) es (rows, [])),
     les ++ snd (fold_left (packStep mt k) es (rows, []))).
Proof.
  induction es as [|e es IH]; intros rows les.
  - simpl. now rewrite app_nil_r.
  - cbn [fold_left]. unfold packStep at 2 4 6. cbn [app].
    rewrite IH.
    rewrite (IH _ [_]). cbn [fst snd]. now rewrite <- app_assoc.
Qed.

Lemma packGroups_step gm les gs k :
  packGroups mt gm (les, gs) k
  = (les ++ groupBlock mt gm k, gs ++ [packedGroup mt gm k]).
Proof.
  unfold packGroups, groupBlock, packedGroup, packGroup.
  fold (sortedGroup gm k).
  rewrite (packStep_fold_app k (sortedGroup gm k) [] les).
  reflexivity.
Qed.

Lemma packGroups_fold_struct gm keys : forall les gs,
  fold_left (packGroups mt gm) keys (les, gs)
  = (les ++ flat_map (groupBlock mt gm) keys, gs ++ map (packedGroup mt gm) keys).
Proof.
  induction keys as [|k keys IH]; intros les gs.
  - simpl. now rewrite !app_nil_r.
  - cbn [fold_left flat_map map]. rewrite packGroups_step, IH.
    now rewrite <- !app_assoc.
Qed.

Lemma placeGroup_fold pgs : forall y0 gp,
  let r := fold_left placeGroup pgs (y0, gp) in
  map (fun g => (key g, entries g, g_height g)) (snd r)
  = map (fun g => (key g, entries g, g_height g)) gp
    ++ map (fun pg => (pg_key pg, pg_entries pg, ofNat (pg_rowCount pg) * ROW_HEIGHT)) pgs.
Proof.
  induction pgs as [|pg pgs IH]; intros y0 gp; cbn zeta.
  - simpl. now rewrite app_nil_r.
  - cbn [fold_left]. unfold placeGroup at 2. rewrite IH.
    rewrite map_app. cbn [map key entries g_height]. now rewrite <- app_assoc.
Qed.

Lemma stacked_snoc gs : forall top g,
  stacked top gs (g_y g) ->
  stacked top (gs ++ [g]) (g_y g + g_height g).
Proof.
  induction gs as [|g0 gs IH]; intros top g; cbn [stacked app].
  - intros ->. split; reflexivity.
  - intros [E H]. split; [assumption|]. now apply IH.
Qed.

Lemma placeGroup_fold_stacked pgs : forall y0 gp top,
  stacked top gp y0 ->
  stacked top (snd (fold_left placeGroup pgs (y0, gp)))
          (fst (fold_left placeGroup pgs (y0, gp))).
Proof.
  induction pgs as [|pg pgs IH]; intros y0 gp top H.
  - exact H.
  - cbn [fold_left]. unfold placeGroup at 2 4. apply IH.
    match goal with
    | |- stacked _ (_ ++ [?g]) _ => apply (stacked_snoc gp top g)
    end. exact H.
Qed.

(** The stable layout, piece by piece. *)
Lemma stableLayout_struct es mode :
  let sl := stableLayout mt es mode in
  let gm := groupMapOf mode es in
  let keys := sortedGroupKeys mode es in
  layoutEntries sl = flat_map (groupBlock mt gm) keys
  /\ map (fun g => (key g, entries g, g_height g)) (groups sl)
     = map (fun k => (k, sortedGroup gm k,
                       ofNat (pg_rowCount (packedGroup mt gm k)) * ROW_HEIGHT)) keys
  /\ stacked AXIS_HEIGHT (groups sl) (totalHeight sl).
Proof.
  cbn zeta. unfold stableLayout, sortedGroupKeys.
  rewrite <- groupMapOf_groupStep.
  destruct (fold_left (groupStep mode) es ([], [])) as [gm gfy]. cbn [fst].
  rewrite packGroups_fold_struct. cbn [app].
  match goal with
  | |- context [fold_left placeGroup ?pgs (?y0, [])] =>
      pose proof (placeGroup_fold pgs y0 []) as Hp;
      pose proof (placeGroup_fold_stacked pgs y0 [] y0 eq_refl) as Hs;
      destruct (fold_left placeGroup pgs (y0, [])) as [cy gp]
  end.
  cbn zeta in Hp. cbn [fst snd map app] in Hp, Hs.
  cbn [layoutEntries groups totalHeight].
  split; [reflexivity|]. split; [|exact Hs].
  rewrite Hp, map_map. reflexivity.
Qed.

End Structure.

(* ================================================================== *)
(** * Ordered pairs of a list *)

Section OrdPairs.
Variable A : Type.
Variable R : A -> A -> Prop.

Lemma FOP_app (l1 l2 : list A) :
  ForallOrdPairs R (l1 ++ l2) <->
  ForallOrdPairs R l1 /\ ForallOrdPairs R l2
  /\ (forall a b, In a l1 -> In b l2 -> R a b).
Proof.
  induction l1 as [|a l1 IH]; cbn [app].
  - split.
    + intros H. repeat split; [constructor|assumption|intros ? ? []].
    + intros (_ & H & _). exact H.
  - split.
    + intros H. inversion H as [|? ? Ha Hl]; subst.
      apply IH in Hl. destruct Hl as (H1 & H2 & H12).
      rewrite Forall_app in Ha. destruct Ha as [Ha1 Ha2].
      repeat split; [constructor; assumption|assumption|].
      intros x b [<-|Hx] Hb; [|now apply H12].
      rewrite Forall_forall in Ha2. now apply Ha2.
    + intros (H1 & H2 & H12). inversion H1 as [|? ? Ha Hl]; subst.
      constructor.
      * rewrite Forall_app. split; [assumption|].
        rewrite Forall_forall. intros b Hb. apply H12; [now left|assumption].
      * apply IH. repeat split; try assumption.
        intros x b Hx Hb. apply H12; [now right|assumption].
Qed.

Lemma FOP_split (l1 : list A) (a : A) (l2 : list A) (b : A) (l3 : list A) :
  ForallOrdPairs R (l1 ++ a :: l2 ++ b :: l3) -> R a b.
Proof.
  intros H. apply FOP_app in H. destruct H as (_ & H & _).
  inversion H as [|? ? Ha _]; subst.
  rewrite Forall_forall in Ha. apply Ha. apply in_or_app. right. now left.
Qed.

Lemma FOP_filter (p : A -> bool) (l : list A) :
  ForallOrdPairs R l -> ForallOrdPairs R (filter p l).
Proof.
  induction 1 as [|a l Ha Hl IH]; cbn [filter]; [constructor|].
  destruct (p a); [|assumption]. constructor; [|assumption].
  rewrite Forall_forall in *. intros b Hb. apply Ha.
  apply filter_In in Hb. tauto.
Qed.

Lemma FOP_flat_map (K : Type) (f : K -> list A) (keys : list K) :
  NoDup keys ->
  (forall k, In k keys -> ForallOrdPairs R (f k)) ->
  (forall k1 k2 a b, k1 <> k2 -> In a (f k1) -> In b (f k2) -> R a b) ->
  ForallOrdPairs R (flat_map f keys).
Proof.
  intros Hnd Hin Hout. induction Hnd as [|k keys Hk Hnd IH]; cbn [flat_map].
  - constructor.
  - apply FOP_app. repeat split.
    + apply Hin. now left.
    + apply IH. intros k' Hk'. apply Hin. now right.
    + intros a b Ha Hb. apply in_flat_map in Hb. destruct Hb as [k' [Hk' Hb]].
      apply (Hout k k'); try assumption. intros ->. contradiction.
Qed.

End OrdPairs.

Lemma FOP_impl (A : Type) (R S : A -> A -> Prop) (l : list A) :
  (forall a b, In a l -> In b l -> R a b -> S a b) ->
  ForallOrdPairs R l -> ForallOrdPairs S l.
Proof.
  intros H Hl. induction Hl as [|a l Ha Hl IH]; constructor.
  - rewrite Forall_forall in *. intros b Hb. apply H; [now left|now right|auto].
  - apply IH. intros x z Hx Hz. apply H; now right.
Qed.

Lemma FOP_map (A B : Type) (f : A -> B) (R : B -> B -> Prop) (l : list A) :
  ForallOrdPairs (fun a b => R (f a) (f b)) l -> ForallOrdPairs R (map f l).
Proof.
  induction 1 as [|a l Ha Hl IH]; cbn [map]; constructor; [|assumption].
  rewrite Forall_forall in *. intros b Hb. apply in_map_iff in Hb.
  destruct Hb as [a' [<- Ha']]. now apply Ha.
Qed.

(* ================================================================== *)
(** * The row packing *)

Lemma findRow_spec rows startYear gap : forall i,
  let r := findRow rows startYear gap i in
  (i <= r <= i + List.length rows)%nat
  /\ (forall v, nth_error rows (r - i) = Some v -> (v >? startYear - gap) = false).
Proof.
  induction rows as [|v0 rows IH]; intros i; cbn [findRow List.length].
  - cbn zeta. split; [lia|]. intros v. now destruct (i - i)%nat.
  - destruct (v0 >? startYear - gap) eqn:E.
    + specialize (IH (S i)). cbn zeta in IH. destruct IH as [Hr Hv].
      cbn zeta. split; [lia|]. intros v.
      replace (findRow rows startYear gap (S i) - i)%nat
        with (S (findRow rows startYear gap (S i) - S i)) by lia.
      cbn [nth_error]. apply Hv.
    + cbn zeta. split; [lia|]. rewrite Nat.sub_diag. cbn. intros v Hv.
      inversion Hv; subst. exact E.
Qed.

Lemma setRow_nth rows : forall row v,
  (row <= List.length rows)%nat ->
  nth_error (setRow rows row v) row = Some v
  /\ (forall j, j <> row -> nth_error (setRow rows row v) j = nth_error rows j).
Proof.
  induction rows as [|r0 rows IH]; intros row v Hrow; cbn [List.length] in Hrow.
  - assert (row = 0)%nat by lia. subst. cbn. split; [reflexivity|].
    intros [|j] Hj; [congruence|]. now destruct j.
  - destruct row as [|row]; cbn [setRow nth_error].
    + split; [reflexivity|]. intros [|j] Hj; [congruence|reflexivity].
    + destruct (IH row v) as [H1 H2]; [lia|]. split; [assumption|].
      intros [|j] Hj; [reflexivity|]. cbn [nth_error]. apply H2. congruence.
Qed.

Section Packing.
Variable mt : string -> string -> num.
Hypothesis Hmt : textWidths mt.

Lemma measureEventWidth_fin e :
  exists w, measureEventWidth mt e = Fin w /\ (35 <= w)%Q.
Proof.
  unfold measureEventWidth.
  destruct (Hmt "bold 10px system-ui, sans-serif" (formatYear (date_start e)))
    as [yw [-> Hyw]].
  destruct (Hmt "11px system-ui, sans-serif" (title e)) as [tw [-> Htw]].
  assert (E : (20 / 2 == 10)%Q) by reflexivity.
  consts. destruct (hasImage e); cbn; eexists; (split; [reflexivity|]);
    rewrite ?E; lra.
Qed.

Lemma layoutGap_fin : exists g, layoutGap = Fin g /\ (g == 1)%Q.
Proof. eexists. split; [vm_compute; reflexivity|]. reflexivity. Qed.

Lemma layoutEnd_fin e :
  exists s q, getYear e false = Fin s /\ layoutEnd mt e = Fin q /\ (s + 7 <= q)%Q.
Proof.
  unfold layoutEnd, pixelsToYears.
  destruct (getYear_finite e false) as [s Hs].
  destruct (measureEventWidth_fin e) as [w [Hw Hw35]].
  exists s. rewrite Hs, Hw. consts.
  assert (E : Fin w / (0.5 * 10) = Fin (w / (0.5 * 10))) by reflexivity.
  rewrite E. nfin.
  assert (Hq : (s + 7 <= s + w / (0.5 * 10))%Q).
  { assert ((w / (0.5 * 10) == w / 5)%Q) as -> by (field). 
    assert (7 <= w / 5)%Q; [|lra]. apply Qle_shift_div_l; lra. }
  destruct (isPeriod e).
  - destruct (getYear_finite e true) as [f ->]. cbn [nmax].
    qcase; qprop; eexists; (split; [reflexivity|split; [reflexivity|]]); lra.
  - eexists. split; [reflexivity|split; [reflexivity|]]. exact Hq.
Qed.

Lemma packStep_packed k st e : packed mt k st -> packed mt k (packStep mt k st e).
Proof.
  destruct st as [rows les]. intros [H1 H2]. unfold packStep.
  fold (layoutEnd mt e). fold layoutGap.
  destruct (layoutEnd_fin e) as [s [q [Hs [Hq Hsq]]]].
  destruct layoutGap_fin as [g [Hg Hg1]].
  rewrite Hs, Hq, Hg. nfin.
  set (row := findRow rows (Fin s) (Fin g) 0).
  destruct (findRow_spec rows (Fin s) (Fin g) 0%nat) as [Hrow Hv].
  fold row in Hrow, Hv. rewrite Nat.sub_0_r in Hv.
  destruct (setRow_nth rows row (Fin (q + g))) as [Hset Hother]; [lia|].
  cbn [fst snd] in *.
  (* an entry of the row [row] ends before the new entry starts *)
  assert (Hold : forall le, In le les -> le_row le = row ->
            exists q' r, layoutEnd mt (le_entry le) + layoutGap = Fin q'
                         /\ nth_error rows row = Some (Fin r)
                         /\ (q' <= r)%Q /\ (r <= s - g)%Q).
  { intros le Hle Hr. destruct (H1 le Hle) as [_ [q' [r [E1 [E2 E3]]]]].
    rewrite Hr in E2. exists q', r. repeat split; try assumption.
    specialize (Hv _ E2). nfin. qprop. exact Hv. }
  split.
  - intros le Hle. apply in_app_or in Hle. destruct Hle as [Hle|[<-|[]]].
    + destruct (H1 le Hle) as [Hk [q' [r [E1 [E2 E3]]]]]. split; [exact Hk|].
      destruct (Nat.eq_dec (le_row le) row) as [Er|Er].
      * destruct (Hold le Hle Er) as [q'' [r' [F1 [F2 [F3 F4]]]]].
        exists q'', (q + g)%Q. rewrite Er. repeat split; try assumption. lra.
      * exists q', r. rewrite Hother by assumption. auto.
    + cbn [le_group le_entry le_row]. split; [reflexivity|].
      exists (q + g)%Q, (q + g)%Q. rewrite Hq, Hg. nfin.
      repeat split; try assumption. lra.
  - apply FOP_app. repeat split; [assumption|repeat constructor|].
    intros a b Ha [<-|[]]. intros _ Hr. cbn [le_row le_entry] in *.
    destruct (Hold a Ha Hr) as [q' [r [F1 [F2 [F3 F4]]]]].
    rewrite F1, Hs, Hg. nfin. qprop. lra.
Qed.

Lemma packStep_fold_packed k es : forall st,
  packed mt k st -> packed mt k (fold_left (packStep mt k) es st).
Proof.
  induction es as [|e es IH]; intros st H; [exact H|].
  cbn [fold_left]. apply IH. now apply packStep_packed.
Qed.

Lemma packGroup_packed k es : packed mt k (packGroup mt k es).
Proof.
  apply packStep_fold_packed. split; [intros le []|constructor].
Qed.

Lemma groupBlock_group gm k le : In le (groupBlock mt gm k) -> le_group le = k.
Proof.
  intros H. destruct (packGroup_packed k (sortedGroup gm k)) as [H1 _].
  now destruct (H1 le H).
Qed.

Lemma groupBlock_row gm k le :
  In le (groupBlock mt gm k) ->
  (le_row le < pg_rowCount (packedGroup mt gm k))%nat.
Proof.
  intros H. destruct (packGroup_packed k (sortedGroup gm k)) as [H1 _].
  destruct (H1 le H) as [_ [q [r [_ [E _]]]]].
  assert (Hlt : (le_row le < List.length (fst (packGroup mt k (sortedGroup gm k))))%nat).
  { apply nth_error_Some. congruence. }
  cbn [packedGroup pg_rowCount]. lia.
Qed.

(** Layout entries of one group and row are apart. *)
Lemma layoutEntries_apart es mode :
  ForallOrdPairs (apart mt) (layoutEntries (stableLayout mt es mode)).
Proof.
  destruct (stableLayout_struct mt es mode) as [-> _].
  apply FOP_flat_map.
  - apply sortedGroupKeys_NoDup.
  - intros k _. apply packGroup_packed.
  - intros k1 k2 a b Hk Ha Hb Hg. exfalso. apply Hk.
    apply groupBlock_group in Ha, Hb. congruence.
Qed.

End Packing.

(* ================================================================== *)
(** * Rows at the layout scale *)

Lemma mapi_from_In (A B : Type) (f : nat -> A -> B) (b : B) (l : list A) : forall i,
  In b (mapi_from f i l) -> exists j a, In a l /\ b = f j a.
Proof.
  induction l as [|a l IH]; intros i; cbn [mapi_from]; [intros []|].
  intros [<-|H]; [exists i, a; split; [now left|reflexivity]|].
  destruct (IH _ H) as [j [a' [H1 H2]]]. exists j, a'. split; [now right|assumption].
Qed.

Lemma FOP_mapi (A B : Type) (f : nat -> A -> B) (R : B -> B -> Prop) (l : list A) :
  ForallOrdPairs (fun a b => forall i j, R (f i a) (f j b)) l ->
  forall i, ForallOrdPairs R (mapi_from f i l).
Proof.
  induction 1 as [|a l Ha Hl IH]; intros i; cbn [mapi_from]; constructor.
  - rewrite Forall_forall in *. intros b Hb.
    destruct (mapi_from_In _ _ _ _ _ _ Hb) as [j [a' [Ha' ->]]]. now apply Ha.
  - apply IH.
Qed.

Section LayoutScale.
Variable mt : string -> string -> num.
Hypothesis Hmt : textWidths mt.

Lemma projectEntry_clears (m ox oy s : Q) groupYMap le1 le2 i j :
  (1 # 2 <= s)%Q ->
  apart mt le1 le2 ->
  clearsInRow
    (projectEntry mt (Fin m) {| offsetX := Fin ox; offsetY := Fin oy; scale := Fin s |}
       groupYMap i le1)
    (projectEntry mt (Fin m) {| offsetX := Fin ox; offsetY := Fin oy; scale := Fin s |}
       groupYMap j le2).
Proof.
  intros Hs Hap Hg Hr. cbn [projectEntry group row] in Hg, Hr.
  specialize (Hap Hg Hr). revert Hap.
  unfold clears, projectEntry, yearToX, layoutEnd, layoutGap, pixelsToYears.
  cbn [x width scale offsetX].
  destruct (getYear_finite (le_entry le1) false) as [y1 ->].
  destruct (getYear_finite (le_entry le1) true) as [f1 ->].
  destruct (getYear_finite (le_entry le2) false) as [y2 ->].
  destruct (measureEventWidth_fin mt Hmt (le_entry le1)) as [w1 [-> Hw1]].
  consts.
  assert (E1 : Fin w1 / (0.5 * 10) = Fin (w1 / (0.5 * 10))) by reflexivity.
  assert (E2 : 5 / (0.5 * 10) = Fin (5 / (0.5 * 10))) by reflexivity.
  rewrite E1, E2. clear E1 E2. nfin.
  assert (F1 : (w1 / (0.5 * 10) == w1 * (1 # 5))%Q) by field.
  assert (F2 : (5 / (0.5 * 10) == 1)%Q) by reflexivity.
  destruct (isPeriod (le_entry le1)).
  - cbn [nmax]. qcases; nfin; intros H; qprop; rewrite ?F1, ?F2 in *; nra.
  - nfin. intros H. qprop. rewrite F1, F2 in H. nra.
Qed.

Lemma computeLayout_clears es mode (m ox oy s : Q) :
  (1 # 2 <= s)%Q ->
  ForallOrdPairs clearsInRow
    (computeLayout mt (stableLayout mt es mode) (Fin m)
       {| offsetX := Fin ox; offsetY := Fin oy; scale := Fin s |}).
Proof.
  intros Hs. unfold computeLayout. apply FOP_mapi.
  eapply FOP_impl; [|apply (layoutEntries_apart mt Hmt)].
  intros a b _ _ Hab i j. now apply projectEntry_clears.
Qed.

End LayoutScale.

(** In a row where every record clears the one before it, the scan keeps
    every record and emits no badge. *)
Lemma scan_all_clear (mt : string -> string -> num) rest : forall a,
  ForallOrdPairs (fun p q => clears p q = true) (a :: rest) ->
  scanBadges mt a [] rest = [] /\ snd (scanEnd a [] rest) = []
  /\ keptTail a rest = rest.
Proof.
  induction rest as [|c rest IH]; intros a H; [repeat split|].
  inversion H as [|? ? Ha Hl]; subst.
  assert (Hc : clears a c = true) by (now inversion Ha).
  cbn [scanBadges scanEnd keptTail last]. rewrite Hc.
  destruct (IH c Hl) as (H1 & H2 & H3). rewrite H3. auto.
Qed.

Lemma row_all_clear (mt : string -> string -> num) events :
  ForallOrdPairs (fun p q => clears p q = true) events ->
  rowBadges mt events = [] /\ kept events = events.
Proof.
  destruct events as [|a rest]; [auto|]. intros H.
  destruct (scan_all_clear mt rest a H) as (H1 & H2 & H3).
  cbn [rowBadges kept]. rewrite H1, H3.
  destruct (scanEnd a [] rest) as [a' run]. cbn [snd] in H2. subst run. auto.
Qed.

Lemma rowOf_all_clear rk positioned :
  ForallOrdPairs clearsInRow positioned ->
  ForallOrdPairs (fun p q => clears p q = true) (rowOf rk positioned).
Proof.
  intros H. unfold rowOf.
  eapply FOP_impl; [|apply FOP_filter, H].
  intros a b Ha Hb Hab. apply filter_In in Ha, Hb.
  destruct Ha as [_ Ha], Hb as [_ Hb]. apply String.eqb_eq in Ha, Hb.
  assert (E : rowKey a = rowKey b) by congruence.
  apply rowKey_inj in E. destruct E. now apply Hab.
Qed.

Lemma concat_nil (A : Type) (ls : list (list A)) :
  (forall l, In l ls -> l = []) -> List.concat ls = [].
Proof.
  induction ls as [|l ls IH]; intros H; [reflexivity|].
  cbn [List.concat]. rewrite (H l (or_introl eq_refl)). apply IH.
  intros l' Hl'. apply H. now right.
Qed.

Lemma set_has_id_add s s' V :
  set_has_id s V = true -> set_has_id s (set_add_id s' V) = true.
Proof.
  unfold set_has_id, set_add_id. intros H.
  apply set_mem_correct1 in H. apply set_mem_correct2. now apply set_add_intro1.
Qed.

(** When every record clears the records before it in its row, the pass
    hides nothing. *)
Lemma visibility_all_clear (mt : string -> string -> num) positioned selected :
  ForallOrdPairs clearsInRow positioned ->
  hiddenBadges (visibility mt positioned selected) = []
  /\ forall p, In p positioned ->
       set_has_id (id (entry p)) (visibleSet (visibility mt positioned selected)) = true.
Proof.
  intros H.
  assert (Hrows : forall rk evs, In (rk, evs) (groupRows positioned) ->
            rowBadges mt evs = [] /\ kept evs = evs).
  { intros rk evs Hin. apply groupRows_In in Hin. destruct Hin as [-> _].
    apply row_all_clear. now apply rowOf_all_clear. }
  assert (Hb : hiddenBadges (cullRows mt (groupRows positioned)) = []).
  { rewrite cullRows_spec. cbn [hiddenBadges]. apply concat_nil.
    intros l Hl. apply in_map_iff in Hl. destruct Hl as [evs [<- Hevs]].
    apply in_map_iff in Hevs. destruct Hevs as [[rk evs'] [E Hin]].
    cbn [snd] in E. subst evs'. now destruct (Hrows rk evs Hin). }
  assert (Hv : forall p, In p positioned ->
            set_has_id (id (entry p))
              (visibleSet (cullRows mt (groupRows positioned))) = true).
  { intros p Hp. rewrite cullRows_spec. cbn [visibleSet].
    apply addVisible_mem. left. exists p. split; [|reflexivity].
    assert (Hrow : In p (rowOf (rowKey p) positioned)).
    { apply rowOf_In. auto. }
    assert (Hget := groupRows_get (rowKey p) positioned).
    destruct (rowOf (rowKey p) positioned) as [|p0 r] eqn:E; [destruct Hrow|].
    apply map_get_Some_In in Hget.
    apply in_concat. exists (p0 :: r). split; [|exact Hrow].
    apply in_map_iff. exists (p0 :: r). split.
    - destruct (Hrows _ _ Hget) as [_ Hk]. exact Hk.
    - apply in_map_iff. exists (rowKey p, p0 :: r). auto. }
  unfold visibility. destruct selected as [s|]; cbn [hiddenBadges visibleSet].
  - split; [exact Hb|]. intros p Hp. apply set_has_id_add. now apply Hv.
  - split; [exact Hb|exact Hv].
Qed.

(* ================================================================== *)
(** * Groups and their bands *)

Lemma setRow_length rows : forall row v,
  (row <= List.length rows)%nat ->
  (List.length rows <= List.length (setRow rows row v)
   /\ row < List.length (setRow rows row v))%nat.
Proof.
  induction rows as [|r0 rows IH]; intros row v Hrow; cbn [List.length] in *.
  - cbn. lia.
  - destruct row as [|row]; cbn [setRow List.length]; [lia|].
    destruct (IH row v); lia.
Qed.

Section Bands.
Variable mt : string -> string -> num.

Lemma packStep_rows k st e :
  (forall le, In le (snd st) -> (le_row le < List.length (fst st))%nat) ->
  forall le, In le (snd (packStep mt k st e)) ->
             (le_row le < List.length (fst (packStep mt k st e)))%nat.
Proof.
  destruct st as [rows les]. cbn [fst snd]. intros H le. unfold packStep.
  cbn [fst snd].
  match goal with
  | |- context [setRow rows ?r ?v] =>
      destruct (findRow_spec rows (getYear e false) (pixelsToYears 5 LAYOUT_SCALE) 0%nat)
        as [Hr _];
      destruct (setRow_length rows r v) as [L1 L2]; [cbn zeta in Hr; lia|]
  end.
  intros Hle. apply in_app_or in Hle. destruct Hle as [Hle|[<-|[]]].
  - specialize (H le Hle). lia.
  - cbn [le_row]. exact L2.
Qed.

Lemma packStep_fold_rows k es : forall st,
  (forall le, In le (snd st) -> (le_row le < List.length (fst st))%nat) ->
  forall le, In le (snd (fold_left (packStep mt k) es st)) ->
             (le_row le < List.length (fst (fold_left (packStep mt k) es st)))%nat.
Proof.
  induction es as [|e es IH]; intros st H; [exact H|].
  cbn [fold_left]. apply IH. now apply packStep_rows.
Qed.

Lemma packStep_fold_group k es : forall st,
  (forall le, In le (snd st) -> le_group le = k) ->
  forall le, In le (snd (fold_left (packStep mt k) es st)) -> le_group le = k.
Proof.
  induction es as [|e es IH]; intros st H; [exact H|].
  cbn [fold_left]. apply IH. destruct st as [rows les]. unfold packStep.
  cbn [snd] in *. intros le Hle. apply in_app_or in Hle.
  destruct Hle as [Hle|[<-|[]]]; [now apply H|reflexivity].
Qed.

Lemma block_group gm k le : In le (groupBlock mt gm k) -> le_group le = k.
Proof. apply packStep_fold_group. intros ? []. Qed.

Lemma block_row gm k le :
  In le (groupBlock mt gm k) ->
  (le_row le < pg_rowCount (packedGroup mt gm k))%nat.
Proof.
  intros H. apply packStep_fold_rows in H; [|intros ? []].
  cbn [packedGroup pg_rowCount]. unfold packGroup. lia.
Qed.

Lemma block_entries gm k :
  map le_entry (groupBlock mt gm k) = sortedGroup gm k.
Proof.
  unfold groupBlock, packGroup. now rewrite packStep_fold.
Qed.

(** The groups of the layout, one for each key. *)
Lemma stableLayout_group es mode k :
  In k (sortedGroupKeys mode es) ->
  exists g, In g (groups (stableLayout mt es mode))
            /\ key g = k
            /\ entries g = sortedGroup (groupMapOf mode es) k
            /\ g_height g
               = ofNat (pg_rowCount (packedGroup mt (groupMapOf mode es) k)) * ROW_HEIGHT.
Proof.
  intros Hk. destruct (stableLayout_struct mt es mode) as (_ & Hg & _).
  apply (in_map (fun k => (k, sortedGroup (groupMapOf mode es) k,
                            ofNat (pg_rowCount (packedGroup mt (groupMapOf mode es) k))
                            * ROW_HEIGHT))) in Hk.
  rewrite <- Hg in Hk. apply in_map_iff in Hk. destruct Hk as [g [E Hin]].
  exists g. injection E as E1 E2 E3. repeat split; assumption.
Qed.

Lemma stableLayout_group_inv es mode g :
  In g (groups (stableLayout mt es mode)) ->
  In (key g) (sortedGroupKeys mode es)
  /\ entries g = sortedGroup (groupMapOf mode es) (key g)
  /\ g_height g
     = ofNat (pg_rowCount (packedGroup mt (groupMapOf mode es) (key g))) * ROW_HEIGHT.
Proof.
  intros Hin. destruct (stableLayout_struct mt es mode) as (_ & Hg & _).
  apply (in_map (fun g => (key g, entries g, g_height g))) in Hin.
  rewrite Hg in Hin. apply in_map_iff in Hin. destruct Hin as [k [E Hk]].
  injection E as E1 E2 E3. subst k.
  repeat split; [assumption|now symmetry|now symmetry].
Qed.

Lemma stableLayout_keys es mode :
  map key (groups (stableLayout mt es mode)) = sortedGroupKeys mode es.
Proof.
  destruct (stableLayout_struct mt es mode) as (_ & Hg & _).
  apply (f_equal (map (fun t : string * list TimelineEntry * num => fst (fst t)))) in Hg.
  rewrite !map_map in Hg. cbn [fst] in Hg. rewrite map_id in Hg. exact Hg.
Qed.

Lemma layoutEntry_block es mode le :
  In le (layoutEntries (stableLayout mt es mode)) ->
  In (le_group le) (sortedGroupKeys mode es)
  /\ In le (groupBlock mt (groupMapOf mode es) (le_group le)).
Proof.
  destruct (stableLayout_struct mt es mode) as (-> & _).
  intros H. apply in_flat_map in H. destruct H as [k [Hk Hle]].
  rewrite (block_group _ _ _ Hle). auto.
Qed.

End Bands.

Lemma ofNat_rows (n : nat) :
  ofNat n * ROW_HEIGHT = Fin (inject_Z (Z.of_nat n) * 28).
Proof. reflexivity. Qed.

Lemma stacked_finite gs : forall (top : Q) bottom,
  stacked (Fin top) gs bottom ->
  (forall g, In g gs -> exists n : nat, g_height g = ofNat n * ROW_HEIGHT) ->
  (exists b, bottom = Fin b /\ (top <= b)%Q)
  /\ forall g, In g gs -> exists q, g_y g = Fin q /\ (top <= q)%Q.
Proof.
  induction gs as [|g gs IH]; intros top bottom; cbn [stacked].
  - intros -> _. split; [exists top; split; [reflexivity|lra]|intros ? []].
  - intros [Hy Hst] Hh.
    destruct (Hh g (or_introl eq_refl)) as [n Hn].
    rewrite Hn, ofNat_rows in Hst. nfin.
    assert (Hpos : (0 <= inject_Z (Z.of_nat n) * 28)%Q).
    { apply Qmult_le_0_compat; [|lra].
      change 0%Q with (inject_Z 0). rewrite <- Zle_Qle. lia. }
    destruct (IH _ _ Hst) as [[b [Hb Hle]] Hall].
    { intros g' Hg'. apply Hh. now right. }
    split.
    + exists b. split; [assumption|lra].
    + intros g' [<-|Hg'].
      * exists top. split; [assumption|lra].
      * destruct (Hall g' Hg') as [q [Hq Hq']]. exists q. split; [assumption|lra].
Qed.

Lemma groupYMap_other (k : string) gs : forall m,
  ~ In k (map key gs) ->
  map_get k (fold_left (fun m g => map_set (key g) (g_y g) m) gs m) = map_get k m.
Proof.
  induction gs as [|g gs IH]; intros m Hk; [reflexivity|].
  cbn [fold_left]. rewrite IH.
  - apply map_get_set_neq. intros E. apply Hk. left. exact E.
  - intros H. apply Hk. now right.
Qed.

Lemma groupYMap_get gs : forall m g,
  NoDup (map key gs) -> In g gs ->
  map_get (key g) (fold_left (fun m g => map_set (key g) (g_y g) m) gs m)
  = Some (g_y g).
Proof.
  induction gs as [|g0 gs IH]; intros m g Hnd Hg; [destruct Hg|].
  inversion Hnd as [|? ? Hk Hnd']; subst. cbn [fold_left].
  destruct Hg as [<-|Hg].
  - rewrite groupYMap_other by assumption. apply map_get_set_eq.
  - now apply IH.
Qed.

(* ================================================================== *)
(** * Facts about the animation *)

Lemma lerp_fin (a b : Q) : lerp (Fin a) (Fin b) LERP_FACTOR = Fin (a + (b - a) * 0.25).
Proof. reflexivity. Qed.

Lemma Qlt_bool_wd (a a' b : Q) : (a == a')%Q -> Qlt_bool a b = Qlt_bool a' b.
Proof.
  intros E. destruct (Qlt_bool a b) eqn:H1, (Qlt_bool a' b) eqn:H2; auto; qprop;
    rewrite E in H1; lra.
Qed.

(** The test that ends the animation, on the distance left before the
    frame. *)
Lemma settle_test (o t thr : Q) :
  (nabs (Fin t - Fin (o + (t - o) * 0.25)) <? Fin thr)
  = (nabs (Fin t - Fin o) * 0.75 <? Fin thr).
Proof.
  cbn [nsub nadd nneg nabs nlt nmul]. apply Qlt_bool_wd.
  assert (E : (t + - (o + (t + - o) * 0.25) == (t + - o) * 0.75)%Q) by ring.
  rewrite E, Qabs_Qmult. reflexivity.
Qed.

Lemma finiteState_inv v :
  finiteState v ->
  exists a b c, v = {| offsetX := Fin a; offsetY := Fin b; scale := Fin c |}.
Proof.
  destruct v as [[a| | |] [b| | |] [c| | |]]; cbn; intros (H1 & H2 & H3);
    try contradiction. eauto.
Qed.

Lemma settling_dec view target :
  finiteState view -> finiteState target ->
  settling view target \/ ~ settling view target.
Proof.
  intros Hv Ht. unfold settling.
  destruct (nabs (offsetX target - offsetX view) * 0.75 <? 0.5);
    destruct (nabs (offsetY target - offsetY view) * 0.75 <? 0.5);
    destruct (nabs (scale target - scale view) * 0.75 <? 0.0001);
    intuition congruence.
Qed.

(** A frame: either it ends the animation on the target, or it leaves
    three quarters of each distance. *)
Lemma animate_frame (t : Timeline) (ox oy s tx ty ts : Q) :
  viewState t = {| offsetX := Fin ox; offsetY := Fin oy; scale := Fin s |} ->
  targetState t = {| offsetX := Fin tx; offsetY := Fin ty; scale := Fin ts |} ->
  targetState (animateToTarget t) = targetState t
  /\ (settling (viewState t) (targetState t) ->
      viewState (animateToTarget t) = targetState t
      /\ isAnimating (animateToTarget t) = false)
  /\ (~ settling (viewState t) (targetState t) ->
      viewState (animateToTarget t)
      = {| offsetX := Fin (ox + (tx - ox) * 0.25);
           offsetY := Fin (oy + (ty - oy) * 0.25);
           scale := Fin (s + (ts - s) * 0.25) |}
      /\ isAnimating (animateToTarget t) = isAnimating t).
Proof.
  intros Hview Htarget. split; [reflexivity|].
  unfold settling, animateToTarget. cbn [viewState isAnimating].
  rewrite Hview, Htarget. cbn [offsetX offsetY scale]. rewrite !lerp_fin.
  change (0.5 : num) with (Fin 0.5). change (0.0001 : num) with (Fin 0.0001).
  rewrite !settle_test.
  destruct (nabs (Fin tx - Fin ox) * 0.75 <? Fin 0.5);
    destruct (nabs (Fin ty - Fin oy) * 0.75 <? Fin 0.5);
    destruct (nabs (Fin ts - Fin s) * 0.75 <? Fin 0.0001);
    cbn [andb]; split; intros H; auto; try (exfalso; intuition congruence).
Qed.

(** At rest on the target, a frame changes nothing of the view. *)
Lemma animate_at_rest (t : Timeline) :
  finiteState (targetState t) ->
  viewState t = targetState t ->
  viewState (animateToTarget t) = targetState t
  /\ isAnimating (animateToTarget t) = false.
Proof.
  intros Hf E. destruct (finiteState_inv _ Hf) as [a [b [c Ht]]].
  assert (Hv : viewState t = {| offsetX := Fin a; offsetY := Fin b; scale := Fin c |})
    by congruence.
  destruct (animate_frame t a b c a b c Hv Ht) as (_ & H & _). apply H.
  rewrite Hv, Ht. unfold settling. cbn [offsetX offsetY scale nsub nadd nneg nabs nmul nlt].
  repeat split; qprop;
    match goal with
    | |- (Qabs ?d * _ < _)%Q => assert (E0 : (d == 0)%Q) by ring; rewrite E0
    end; reflexivity.
Qed.

Lemma frames_target n t : targetState (frames n t) = targetState t.
Proof.
  induction n as [|n IH]; [reflexivity|]. unfold frames in *. cbn [Nat.iter].
  exact IH.
Qed.

Lemma frames_S n t : frames (S n) t = frames n (animateToTarget t).
Proof. unfold frames. apply Nat.iter_succ_r. Qed.

Lemma frames_rest n t :
  finiteState (targetState t) ->
  viewState t = targetState t ->
  isAnimating t = false ->
  viewState (frames n t) = targetState t /\ isAnimating (frames n t) = false.
Proof.
  intros Hf. induction n as [|n IH]; intros Hv Ha; [auto|].
  unfold frames in *. cbn [Nat.iter].
  specialize (IH Hv Ha). destruct IH as [IH1 IH2].
  destruct (animate_at_rest (Nat.iter n animateToTarget t)) as [H1 H2].
  - change (Nat.iter n animateToTarget t) with (frames n t).
    now rewrite frames_target.
  - rewrite IH1. symmetry. apply (frames_target n t).
  - change (Nat.iter n animateToTarget t) with (frames n t) in *.
    rewrite frames_target in H1. auto.
Qed.

(** Within [n + 1] frames the view is on the target, when the distances
    are within [(n + 3) / 3] of the thresholds. *)
Lemma frames_settle n : forall (t : Timeline) (ox oy s tx ty ts : Q),
  viewState t = {| offsetX := Fin ox; offsetY := Fin oy; scale := Fin s |} ->
  targetState t = {| offsetX := Fin tx; offsetY := Fin ty; scale := Fin ts |} ->
  (Qabs (tx - ox) * 3 < (1 # 2) * (inject_Z (Z.of_nat n) + 3))%Q ->
  (Qabs (ty - oy) * 3 < (1 # 2) * (inject_Z (Z.of_nat n) + 3))%Q ->
  (Qabs (ts - s) * 3 < (1 # 10000) * (inject_Z (Z.of_nat n) + 3))%Q ->
  exists k, (k <= S n)%nat
            /\ viewState (frames k t) = targetState t
            /\ isAnimating (frames k t) = false.
Proof.
  induction n as [|n IH]; intros t ox oy s tx ty ts Hv Ht Dx Dy Ds.
  - exists 1%nat. split; [lia|].
    destruct (animate_frame t ox oy s tx ty ts Hv Ht) as (_ & H & _).
    apply H. rewrite Hv, Ht. unfold settling.
    cbn [offsetX offsetY scale nsub nadd nneg nabs nmul nlt].
    change (inject_Z (Z.of_nat 0)) with 0%Q in *.
    repeat split; qprop; unfold Qminus in *; lra.
  - destruct (animate_frame t ox oy s tx ty ts Hv Ht) as (Ht' & Hs & Hn).
    destruct (settling_dec (viewState t) (targetState t)) as [Hset|Hset].
    { rewrite Hv. repeat split; exact I. }
    { rewrite Ht. repeat split; exact I. }
    + exists 1%nat. split; [lia|]. now apply Hs.
    + destruct (Hn Hset) as [Hv' Ha'].
      assert (Hst : forall o g thr : Q,
                (0 < thr)%Q ->
                (Qabs (g - o) * 3 < thr * (inject_Z (Z.of_nat (S n)) + 3))%Q ->
                (Qabs (g - (o + (g - o) * 0.25)) * 3
                 < thr * (inject_Z (Z.of_nat n) + 3))%Q).
      { intros o g thr Hthr H.
        assert (E : (g - (o + (g - o) * 0.25) == (g - o) * 0.75)%Q) by ring.
        rewrite E, Qabs_Qmult.
        assert (E' : (Qabs 0.75 == 3 # 4)%Q) by reflexivity. rewrite E'.
        rewrite Nat2Z.inj_succ, <- Z.add_1_r, inject_Z_plus in H.
        assert (Hn0 : (0 <= inject_Z (Z.of_nat n))%Q).
        { change 0%Q with (inject_Z 0). rewrite <- Zle_Qle. lia. }
        assert (Ha : (0 <= Qabs (g - o))%Q) by apply Qabs_nonneg.
        change (inject_Z 1) with 1%Q in H.
        set (N := inject_Z (Z.of_nat n)) in *. set (a := Qabs (g - o)) in *.
        nra. }
      destruct (IH (animateToTarget t) _ _ _ tx ty ts Hv') as [k (Hk & Hkv & Hka)].
      * now rewrite Ht'.
      * apply Hst; [lra|assumption].
      * apply Hst; [lra|assumption].
      * apply Hst; [lra|assumption].
      * exists (S k). split; [lia|]. rewrite frames_S, Hkv, Hka. rewrite Ht'. auto.
Qed.

(** A bound on the frames that a distance takes. *)
Lemma frames_bound (d thr : Q) :
  (0 < thr)%Q ->
  exists n : nat, forall m : nat, (n <= m)%nat ->
    (Qabs d * 3 < thr * (inject_Z (Z.of_nat m) + 3))%Q.
Proof.
  intros Hthr.
  exists (Z.to_nat (Qceiling (Qabs d * 3 / thr))). intros m Hm.
  assert (H1 : (Qabs d * 3 / thr <= inject_Z (Qceiling (Qabs d * 3 / thr)))%Q)
    by apply Qle_ceiling.
  assert (H2 : (inject_Z (Qceiling (Qabs d * 3 / thr)) <= inject_Z (Z.of_nat m))%Q).
  { rewrite <- Zle_Qle. lia. }
  assert (H3 : (Qabs d * 3 / thr <= inject_Z (Z.of_nat m))%Q) by lra.
  assert (H4 : (Qabs d * 3 <= inject_Z (Z.of_nat m) * thr)%Q).
  { assert (E : (Qabs d * 3 == Qabs d * 3 / thr * thr)%Q) by (field; lra).
    rewrite E. apply Qmult_le_compat_r; lra. }
  assert (Hm0 : (0 <= inject_Z (Z.of_nat m))%Q).
  { change 0%Q with (inject_Z 0). rewrite <- Zle_Qle. lia. }
  set (M := inject_Z (Z.of_nat m)) in *. nra.
Qed.

(* ================================================================== *)
(** * Facts about [scrollToEntry] and [fit] *)

Lemma minYear_finite (t : Timeline) : exists m, minYear t = Fin m.
Proof.
  unfold minYear, minYearOf.
  destruct (yearBounds_finite (t_entries t)) as [a [b ->]]. cbn [fst snd]. eauto.
Qed.

Lemma maxYear_finite (t : Timeline) : exists m, maxYear t = Fin m.
Proof.
  unfold maxYear, maxYearOf.
  destruct (yearBounds_finite (t_entries t)) as [a [b ->]]. cbn [fst snd]. eauto.
Qed.

Section Scroll.
Variable mt : string -> string -> num.
Hypothesis Hmt : textWidths mt.

(** The scale a neighbour asks for is positive. *)
Lemma scaleFor_pos (e : TimelineEntry) (g : Q) :
  (0 < g)%Q ->
  exists v, scaleFor (measureEventWidth mt e) (Fin g) = Fin v
            /\ (0 < v)%Q
            /\ exists w, measureEventWidth mt e = Fin w /\ (g * 10 * v == w + 5)%Q.
Proof.
  intros Hg. unfold scaleFor.
  destruct (measureEventWidth_fin mt Hmt e) as [w [Hw Hw35]]. rewrite Hw.
  consts. nfin. rewrite ndiv_fin by lra.
  eexists. split; [reflexivity|]. split.
  - apply Qlt_shift_div_l; lra.
  - exists w. split; [reflexivity|]. field. lra.
Qed.

Lemma nmax_fin_ge (a b : Q) :
  exists c, nmax (Fin a) (Fin b) = Fin c /\ (a <= c)%Q /\ (b <= c)%Q.
Proof.
  cbn [nmax]. qcase; qprop; eexists; (split; [reflexivity|]); lra.
Qed.

End Scroll.

Section Scroll2.
Variable mt : string -> string -> num.

(** The target [scrollToEntry] sets for an entry that is positioned. *)
Lemma scrollToEntry_target (t : Timeline) (e : TimelineEntry) (pos : PositionedEvent) :
  findPos (id e) (positionedEvents t) = Some pos ->
  let needed :=
    neededScale mt e (sameRowOf t pos) (indexInRow e (sameRowOf t pos)) in
  let finalScale :=
    if needed >? 0 then nmin 5 (needed * 1.1) else scale (targetState t) in
  targetState (scrollToEntry mt t e)
  = {| offsetX := - (getYear e false - minYear t) * (finalScale * 10)
                  + (dim_width (dimensions t) - GROUP_LABEL_WIDTH) / 2 - 50;
       offsetY := - (y pos - dim_height (dimensions t) / 2
                     + ROW_HEIGHT / 2 - AXIS_HEIGHT);
       scale := finalScale |}.
Proof.
  intros Hpos. unfold scrollToEntry. rewrite Hpos. reflexivity.
Qed.

Hypothesis Hmt : textWidths mt.

Lemma leftScale_fin e sameRow idx :
  exists q, leftScale mt e sameRow idx = Fin q /\ (0 <= q)%Q
    /\ forall i leftPos (g : Q),
         idx = Some (S i) -> nth_error sameRow i = Some leftPos ->
         getYear e false - getYear (entry leftPos) false = Fin g -> (0 < g)%Q ->
         exists v w, (v <= q)%Q /\ measureEventWidth mt (entry leftPos) = Fin w
                     /\ (g * 10 * v == w + 5)%Q /\ (0 < v)%Q.
Proof.
  unfold leftScale.
  destruct idx as [[|i]|];
    try (exists 0%Q; split; [reflexivity|]; split; [lra|]; intros; congruence).
  destruct (nth_error sameRow i) as [leftPos|] eqn:En;
    [|exists 0%Q; split; [reflexivity|]; split; [lra|]; intros; congruence].
  destruct (getYear_finite e false) as [ye Hye].
  destruct (getYear_finite (entry leftPos) false) as [yl Hyl].
  rewrite Hye, Hyl. nfin. destruct (Qlt_bool 0 (ye - yl)) eqn:Eg; qprop.
  - destruct (scaleFor_pos mt Hmt (entry leftPos) (ye - yl) Eg)
      as [v (Hv & Hv0 & w & Hw & Hvw)].
    rewrite Hv. destruct (nmax_fin_ge 0 v) as [c (Hc & Hc0 & Hcv)].
    rewrite Hc. exists c. split; [reflexivity|]. split; [assumption|].
    intros i' l' g E1 E2 E3 Hg. injection E1 as <-. rewrite En in E2.
    injection E2 as <-. rewrite ?Hye, Hyl in E3.
    autorewrite with num_fin in E3. injection E3 as <-. exists v, w. auto.
  - exists 0%Q. split; [reflexivity|]. split; [lra|].
    intros i' l' g E1 E2 E3 Hg. injection E1 as <-. rewrite En in E2.
    injection E2 as <-. rewrite ?Hye, Hyl in E3.
    autorewrite with num_fin in E3. injection E3 as <-. lra.
Qed.

Lemma neededScale_fin e sameRow idx :
  exists q, neededScale mt e sameRow idx = Fin q /\ (0 <= q)%Q
    /\ (forall i leftPos (g : Q),
          idx = Some (S i) -> nth_error sameRow i = Some leftPos ->
          getYear e false - getYear (entry leftPos) false = Fin g -> (0 < g)%Q ->
          exists v w, (v <= q)%Q /\ measureEventWidth mt (entry leftPos) = Fin w
                      /\ (g * 10 * v == w + 5)%Q /\ (0 < v)%Q)
    /\ (forall i rightPos (g : Q),
          idx = Some i -> nth_error sameRow (S i) = Some rightPos ->
          getYear (entry rightPos) false - getYear e false = Fin g -> (0 < g)%Q ->
          exists v w, (v <= q)%Q /\ measureEventWidth mt e = Fin w
                      /\ (g * 10 * v == w + 5)%Q /\ (0 < v)%Q).
Proof.
  unfold neededScale.
  destruct (leftScale_fin e sameRow idx) as [ql (Hql & Hql0 & Hleft)].
  rewrite Hql.
  set (next := match idx with Some i => S i | None => 0%nat end).
  assert (Hnext : forall i, idx = Some i -> next = S i) by (intros i ->; reflexivity).
  destruct (nth_error sameRow next) as [rightPos|] eqn:En.
  - destruct (getYear_finite e false) as [ye Hye].
    destruct (getYear_finite (entry rightPos) false) as [yr Hyr].
    rewrite Hye, Hyr. nfin. destruct (Qlt_bool 0 (yr - ye)) eqn:Eg; qprop.
    + destruct (scaleFor_pos mt Hmt e (yr - ye) Eg) as [v (Hv & Hv0 & w & Hw & Hvw)].
      rewrite Hv. destruct (nmax_fin_ge ql v) as [c (Hc & Hc0 & Hcv)].
      rewrite Hc. exists c. split; [reflexivity|]. split; [lra|]. split.
      * intros i l g E1 E2 E3 Hg.
        destruct (Hleft i l g E1 E2) as [v' [w' (H1 & H2 & H3 & H4)]];
          [now rewrite Hye|assumption|].
        exists v', w'. repeat split; try assumption. lra.
      * intros i r g E1 E2 E3 Hg. rewrite (Hnext i E1) in En.
        rewrite E2 in En. injection En as ->. rewrite Hyr in E3.
        autorewrite with num_fin in E3. injection E3 as <-. exists v, w. auto.
    + exists ql. split; [reflexivity|]. split; [assumption|]. split.
      * intros i l g E1 E2 E3. apply (Hleft i l g E1 E2). now rewrite Hye.
      * intros i r g E1 E2 E3 Hg. rewrite (Hnext i E1) in En.
        rewrite E2 in En. injection En as ->. rewrite Hyr in E3.
        autorewrite with num_fin in E3. injection E3 as <-. lra.
  - exists ql. split; [reflexivity|]. split; [assumption|]. split; [exact Hleft|].
    intros i r g E1 E2. rewrite (Hnext i E1) in En. congruence.
Qed.

End Scroll2.

(* ================================================================== *)
(** * Facts about strings *)

Lemma dropLast_length (s : string) :
  String.length (dropLast s) = Nat.pred (String.length s).
Proof.
  induction s as [|c s IH]; [reflexivity|].
  cbn [dropLast]. destruct s as [|c' s']; [reflexivity|].
  cbn [String.length] in *. now rewrite IH.
Qed.

Lemma prefix_nil (s : string) : String.prefix "" s = true.
Proof. now destruct s. Qed.

Lemma prefix_refl (s : string) : String.prefix s s = true.
Proof.
  induction s as [|c s IH]; [reflexivity|]. cbn [String.prefix].
  destruct (Ascii.ascii_dec c c); [assumption|congruence].
Qed.

Lemma prefix_cons (c d : ascii) (p s : string) :
  String.prefix (String c p) (String d s) = true <-> c = d /\ String.prefix p s = true.
Proof.
  cbn [String.prefix]. destruct (Ascii.ascii_dec c d); intuition congruence.
Qed.

Lemma prefix_length (p : string) : forall s,
  String.prefix p s = true -> (String.length p <= String.length s)%nat.
Proof.
  induction p as [|c p IH]; intros s H; cbn [String.length]; [lia|].
  destruct s as [|d s]; [discriminate H|].
  apply prefix_cons in H. destruct H as [_ H]. apply IH in H.
  cbn [String.length]. lia.
Qed.

Lemma prefix_full (p : string) : forall s,
  String.prefix p s = true -> String.length p = String.length s -> p = s.
Proof.
  induction p as [|c p IH]; intros s H L.
  - destruct s; [reflexivity|discriminate L].
  - destruct s as [|d s]; [discriminate H|].
    apply prefix_cons in H. destruct H as [-> H].
    cbn [String.length] in L. f_equal. apply IH; [assumption|lia].
Qed.

Lemma prefix_dropLast (s : string) : String.prefix (dropLast s) s = true.
Proof.
  induction s as [|c s IH]; [reflexivity|].
  cbn [dropLast]. destruct s as [|c' s']; [reflexivity|].
  apply prefix_cons. auto.
Qed.

Lemma prefix_trans (p : string) : forall q s,
  String.prefix p q = true -> String.prefix q s = true -> String.prefix p s = true.
Proof.
  induction p as [|c p IH]; intros q s H1 H2; [apply prefix_nil|].
  destruct q as [|d q]; [discriminate H1|].
  destruct s as [|e s]; [discriminate H2|].
  apply prefix_cons in H1, H2. destruct H1 as [-> H1], H2 as [-> H2].
  apply prefix_cons. split; [reflexivity|]. now apply (IH q).
Qed.

(** A proper prefix of [s] is a prefix of [s] without its last
    character. *)
Lemma prefix_proper (p : string) : forall s,
  String.prefix p s = true -> (String.length p < String.length s)%nat ->
  String.prefix p (dropLast s) = true.
Proof.
  induction p as [|c p IH]; intros s H L; [apply prefix_nil|].
  destruct s as [|d s]; [discriminate H|].
  apply prefix_cons in H. destruct H as [-> H].
  cbn [String.length] in L. cbn [dropLast].
  destruct s as [|d' s']; [destruct p; [cbn in L; lia|discriminate H]|].
  apply prefix_cons. split; [reflexivity|]. apply IH; [assumption|lia].
Qed.

(* ================================================================== *)
(** * Facts about the group labels *)

Section Labels.
Variable mt : string -> string -> num.

Lemma shrinkLabel_spec fuel : forall label,
  (String.length label < fuel)%nat ->
  let r := shrinkLabel mt fuel label in
  String.prefix r label = true
  /\ labelTooWide mt r = false
  /\ forall q, String.prefix q label = true ->
               (String.length r < String.length q)%nat ->
               labelTooWide mt q = true.
Proof.
  induction fuel as [|fuel IH]; intros label Hlen; [lia|].
  cbn [shrinkLabel]. fold (labelTooWide mt label).
  destruct (labelTooWide mt label) eqn:E.
  - assert (Hpos : (0 < String.length label)%nat).
    { unfold labelTooWide in E. apply andb_prop in E. destruct E as [_ E].
      now apply Nat.ltb_lt in E. }
    destruct (IH (dropLast label)) as (H1 & H2 & H3).
    { rewrite dropLast_length. lia. }
    cbn zeta in *. split; [|split; [exact H2|]].
    + eapply prefix_trans; [exact H1|apply prefix_dropLast].
    + intros q Hq Hlt.
      destruct (Nat.eq_dec (String.length q) (String.length label)) as [El|El].
      * rewrite (prefix_full q label Hq El). exact E.
      * apply H3; [|exact Hlt]. apply prefix_proper; [exact Hq|].
        apply prefix_length in Hq. lia.
  - cbn zeta. split; [apply prefix_refl|]. split; [exact E|].
    intros q Hq Hlt. apply prefix_length in Hq. lia.
Qed.

End Labels.

(* ================================================================== *)
(** * Facts about the loop over the events *)

Section EventLoop.
Variables (dimensions : Dimensions) (viewState : ViewState).
Variables (visibleSet : list string) (selectedEntry : option TimelineEntry).


Lemma eventLoopStep_spec calls sp pos :
  eventLoopStep dimensions viewState visibleSet selectedEntry (calls, sp) pos
  = (calls ++ map (callOf viewState) (filter (paintedPlain dimensions viewState visibleSet selectedEntry) [pos]),
     last (map Some (filter (paintedSelected dimensions viewState visibleSet selectedEntry) [pos])) sp).
Proof.
  unfold eventLoopStep, paintedPlain, paintedSelected, painted, isSelected.
  cbn [filter].
  destruct (set_has_id (id (entry pos)) visibleSet); cbn [negb andb];
    [|now rewrite app_nil_r].
  destruct (offScreen dimensions viewState pos); cbn [negb andb];
    [now rewrite app_nil_r|].
  destruct selectedEntry as [s|]; [destruct (String.eqb _ _)|]; cbn;
    rewrite ?app_nil_r; reflexivity.
Qed.

Lemma last_map_app (A : Type) (l1 l2 : list A) (d : option A) :
  last (map Some (l1 ++ l2)) d = last (map Some l2) (last (map Some l1) d).
Proof.
  induction l2 as [|a l2 IH] using rev_ind.
  - now rewrite app_nil_r.
  - rewrite app_assoc, !map_app. cbn [map]. now rewrite !last_last.
Qed.

Lemma eventLoop_fold l : forall calls sp,
  fold_left (eventLoopStep dimensions viewState visibleSet selectedEntry) l (calls, sp)
  = (calls ++ map (callOf viewState) (filter (paintedPlain dimensions viewState visibleSet selectedEntry) l),
     last (map Some (filter (paintedSelected dimensions viewState visibleSet selectedEntry) l)) sp).
Proof.
  induction l as [|pos l IH]; intros calls sp.
  - cbn. now rewrite app_nil_r.
  - cbn [fold_left]. rewrite eventLoopStep_spec, IH.
    change (pos :: l) with ([pos] ++ l). rewrite !filter_app, map_app, last_map_app.
    now rewrite app_assoc.
Qed.

Lemma last_rev_head (A : Type) (l : list A) :
  last (map Some (rev l)) None = hd_error l.
Proof.
  destruct l as [|a l]; [reflexivity|]. cbn [rev hd_error].
  rewrite map_app. cbn [map]. apply last_last.
Qed.

Lemma drawEvents_spec positioned :
  drawEvents dimensions viewState positioned visibleSet selectedEntry
  = map (callOf viewState)
      (rev (filter (paintedPlain dimensions viewState visibleSet selectedEntry) positioned)
       ++ match filter (paintedSelected dimensions viewState visibleSet selectedEntry) positioned with
          | [] => []
          | p :: _ => [p]
          end).
Proof.
  unfold drawEvents. rewrite eventLoop_fold. cbn [app].
  rewrite !filter_rev, last_rev_head, map_app.
  destruct (filter (paintedSelected dimensions viewState visibleSet selectedEntry) positioned); cbn [hd_error map];
    [now rewrite app_nil_r|reflexivity].
Qed.

End EventLoop.

Lemma filter_split_perm (A : Type) (f g : A -> bool) (l : list A) :
  Permutation (filter (fun a => f a && negb (g a)) l ++ filter (fun a => f a && g a) l)
              (filter f l).
Proof.
  induction l as [|a l IH]; [constructor|]. cbn [filter].
  destruct (f a), (g a); cbn [andb negb app].
  - rewrite <- Permutation_middle. now constructor.
  - now constructor.
  - exact IH.
  - exact IH.
Qed.

Lemma filter_one_id (f : PositionedEvent -> bool) (s : string) (l : list PositionedEvent) :
  NoDup (map (fun p => id (entry p)) l) ->
  match filter (fun p => f p && String.eqb (id (entry p)) s) l with
  | [] => []
  | p :: _ => [p]
  end = filter (fun p => f p && String.eqb (id (entry p)) s) l.
Proof.
  induction l as [|a l IH]; intros Hnd; [reflexivity|].
  inversion Hnd as [|? ? Ha Hl]; subst. cbn [filter].
  destruct (f a && String.eqb (id (entry a)) s) eqn:E; [|now apply IH].
  f_equal. symmetry. apply filter_none. intros b Hb.
  destruct (f b && String.eqb (id (entry b)) s) eqn:Eb; [|reflexivity].
  exfalso. apply andb_prop in E, Eb. destruct E as [_ E], Eb as [_ Eb].
  apply String.eqb_eq in E, Eb. apply Ha. rewrite E, <- Eb.
  apply (in_map (fun p => id (entry p))). exact Hb.
Qed.

(* ================================================================== *)
(** * Facts about the year markers *)

Lemma Qle_bool_wd (a a' b b' : Q) :
  (a == a')%Q -> (b == b')%Q -> Qle_bool a b = Qle_bool a' b'.
Proof.
  intros E1 E2. destruct (Qle_bool a b) eqn:H1, (Qle_bool a' b') eqn:H2; auto; qprop;
    rewrite E1, E2 in H1; lra.
Qed.

Lemma Qlt_bool_wd2 (a a' b b' : Q) :
  (a == a')%Q -> (b == b')%Q -> Qlt_bool a b = Qlt_bool a' b'.
Proof.
  intros E1 E2. unfold Qlt_bool. f_equal. now apply Qle_bool_wd.
Qed.

Lemma yearStep_cases (viewState : ViewState) :
  yearStep viewState = 100 \/ yearStep viewState = 50 \/ yearStep viewState = 20
  \/ yearStep viewState = 10 \/ yearStep viewState = 5.
Proof.
  unfold yearStep.
  destruct (scale viewState * 10 >? 20); [auto 6|].
  destruct (scale viewState * 10 >? 10); [auto 6|].
  destruct (scale viewState * 10 >? 5); [auto 6|].
  destruct (scale viewState * 10 >? 2); auto 6.
Qed.

Lemma yearStep_fin (viewState : ViewState) :
  exists d, yearStep viewState = Fin d /\ (5 <= d)%Q.
Proof.
  destruct (yearStep_cases viewState) as [-> | [-> | [-> | [-> | ->]]]];
    eexists; (split; [reflexivity|]); lra.
Qed.

Section Markers.
Variable mt : string -> string -> num.
Variables (m ox oy s w : Q).
Variable dimensions : Dimensions.
Variable vs : ViewState.
Hypothesis Hw : dim_width dimensions = Fin w.
Hypothesis Hvs : vs = {| offsetX := Fin ox; offsetY := Fin oy; scale := Fin s |}.
Hypothesis Hs : (0 < s)%Q.

Lemma yearToX_fin (q : Q) :
  yearToX (Fin m) vs (Fin q) = Fin ((q - m) * (s * 10) + ox + 160 + 50).
Proof. rewrite Hvs. reflexivity. Qed.

Lemma xToYear_fin (px : Q) :
  exists q, xToYear (Fin m) vs (Fin px) = Fin q
            /\ ((q - m) * (s * 10) + ox + 160 + 50 == px)%Q.
Proof.
  rewrite Hvs. unfold xToYear. cbn [offsetX scale]. consts. nfin.
  rewrite ndiv_fin by lra. nfin. eexists. split; [reflexivity|]. field. lra.
Qed.

Lemma inPlot_fin (q : Q) :
  inPlot dimensions (Fin q) = Qle_bool 160 q && Qle_bool q w.
Proof.
  unfold inPlot. rewrite Hw. consts. nfin. unfold Qlt_bool.
  rewrite negb_orb, !negb_involutive. reflexivity.
Qed.

Lemma inPlot_wd (q q' : Q) :
  (q == q')%Q -> inPlot dimensions (Fin q) = inPlot dimensions (Fin q').
Proof.
  intros E. rewrite !inPlot_fin. f_equal; apply Qle_bool_wd; try assumption; reflexivity.
Qed.

(** The loop from the year [y], with enough fuel for the steps of [d]
    that are left up to [e]. *)
Lemma markerLoop_spec (e d : Q) (Hd : (0 < d)%Q) fuel : forall (y : Q) (lastLabelRight : num),
  (e - y < d * inject_Z (Z.of_nat fuel))%Q ->
  exists ms,
    markerLoop mt (Fin m) dimensions vs fuel (Fin y) (Fin e) (Fin d) lastLabelRight
    = Some ms
    /\ (forall mk, In mk ms ->
          exists q (k : nat),
            mk_year mk = Fin q /\ (q == y + inject_Z (Z.of_nat k) * d)%Q /\ (q <= e)%Q
            /\ mk_x mk = yearToX (Fin m) vs (Fin q)
            /\ inPlot dimensions (mk_x mk) = true)
    /\ (forall (k : nat) (q : Q),
          (q == y + inject_Z (Z.of_nat k) * d)%Q -> (q <= e)%Q ->
          inPlot dimensions (yearToX (Fin m) vs (Fin q)) = true ->
          exists mk q', In mk ms /\ mk_year mk = Fin q' /\ (q' == q)%Q).
Proof.
  induction fuel as [|fuel IH]; intros y lastLabelRight Hfuel.
  - change (inject_Z (Z.of_nat 0)) with 0%Q in Hfuel.
    assert (Hye : (e < y)%Q) by lra.
    exists []. cbn [markerLoop nle].
    assert (E : Qle_bool y e = false) by (qprop; exact Hye). rewrite E.
    split; [reflexivity|]. split; [intros mk []|].
    intros k q Hq Hqe _. exfalso.
    assert (0 <= inject_Z (Z.of_nat k))%Q.
    { change 0%Q with (inject_Z 0). rewrite <- Zle_Qle. lia. }
    nra.
  - cbn [markerLoop nle]. destruct (Qle_bool y e) eqn:Eye; qprop.
    + assert (Hfuel' : (e - (y + d) < d * inject_Z (Z.of_nat fuel))%Q).
      { rewrite Nat2Z.inj_succ, <- Z.add_1_r, inject_Z_plus in Hfuel.
        change (inject_Z 1) with 1%Q in Hfuel. lra. }
      assert (Hnext : forall lastR,
                exists ms,
                  markerLoop mt (Fin m) dimensions vs fuel (Fin y + Fin d) (Fin e) (Fin d) lastR
                  = Some ms
                  /\ (forall mk, In mk ms ->
                        exists q (k : nat),
                          mk_year mk = Fin q
                          /\ (q == y + inject_Z (Z.of_nat k) * d)%Q /\ (q <= e)%Q
                          /\ mk_x mk = yearToX (Fin m) vs (Fin q)
                          /\ inPlot dimensions (mk_x mk) = true)
                  /\ (forall (k : nat) (q : Q),
                        (q == y + inject_Z (Z.of_nat (S k)) * d)%Q -> (q <= e)%Q ->
                        inPlot dimensions (yearToX (Fin m) vs (Fin q)) = true ->
                        exists mk q', In mk ms /\ mk_year mk = Fin q' /\ (q' == q)%Q)).
      { intros lastR. destruct (IH (y + d)%Q lastR Hfuel') as [ms (E & H1 & H2)].
        exists ms. split; [exact E|]. split.
        - intros mk Hmk. destruct (H1 mk Hmk) as [q [k (A & B & C & D & F)]].
          exists q, (S k). repeat split; try assumption.
          rewrite Nat2Z.inj_succ, <- Z.add_1_r, inject_Z_plus.
          change (inject_Z 1) with 1%Q. rewrite B. ring.
        - intros k q Hq Hqe Hin. apply (H2 k q); try assumption.
          rewrite Nat2Z.inj_succ, <- Z.add_1_r, inject_Z_plus in Hq.
          change (inject_Z 1) with 1%Q in Hq. rewrite Hq. ring. }
      (* the marker of the year [y] *)
      assert (Hhere : forall (k : nat) (q : Q),
                (q == y + inject_Z (Z.of_nat k) * d)%Q -> k = 0%nat ->
                inPlot dimensions (yearToX (Fin m) vs (Fin q))
                = inPlot dimensions (yearToX (Fin m) vs (Fin y))).
      { intros k q Hq ->. rewrite !yearToX_fin. apply inPlot_wd.
        change (inject_Z (Z.of_nat 0)) with 0%Q in Hq. rewrite Hq. ring. }
      fold (inPlot dimensions (yearToX (Fin m) vs (Fin y))).
      assert (Hskip : ((yearToX (Fin m) vs (Fin y) <? GROUP_LABEL_WIDTH)
                       || (yearToX (Fin m) vs (Fin y) >? dim_width dimensions))
                      = negb (inPlot dimensions (yearToX (Fin m) vs (Fin y)))).
      { unfold inPlot. now rewrite negb_involutive. }
      rewrite Hskip.
      destruct (inPlot dimensions (yearToX (Fin m) vs (Fin y))) eqn:Ein; cbn [negb].
      * assert (Hcons : forall lastR lbl,
                  exists ms,
                    option_map
                      (cons {| mk_year := Fin y; mk_x := yearToX (Fin m) vs (Fin y);
                               mk_label := lbl |})
                      (markerLoop mt (Fin m) dimensions vs fuel (Fin y + Fin d)
                         (Fin e) (Fin d) lastR) = Some ms
                    /\ (forall mk, In mk ms ->
                          exists q (k : nat),
                            mk_year mk = Fin q
                            /\ (q == y + inject_Z (Z.of_nat k) * d)%Q /\ (q <= e)%Q
                            /\ mk_x mk = yearToX (Fin m) vs (Fin q)
                            /\ inPlot dimensions (mk_x mk) = true)
                    /\ (forall (k : nat) (q : Q),
                          (q == y + inject_Z (Z.of_nat k) * d)%Q -> (q <= e)%Q ->
                          inPlot dimensions (yearToX (Fin m) vs (Fin q)) = true ->
                          exists mk q', In mk ms /\ mk_year mk = Fin q' /\ (q' == q)%Q)).
        { intros lastR lbl. destruct (Hnext lastR) as [ms (E & H1 & H2)].
          rewrite E. cbn [option_map]. eexists. split; [reflexivity|]. split.
          - intros mk [<-|Hmk]; [|now apply H1].
            exists y, 0%nat. cbn [mk_year mk_x]. repeat split; try assumption.
            change (inject_Z (Z.of_nat 0)) with 0%Q. ring.
          - intros [|k] q Hq Hqe Hin.
            + eexists _, y. split; [left; reflexivity|]. split; [reflexivity|].
              change (inject_Z (Z.of_nat 0)) with 0%Q in Hq. rewrite Hq. ring.
            + destruct (H2 k q Hq Hqe Hin) as [mk [q' (A & B & C)]].
              exists mk, q'. split; [now right|]. auto. }
        match goal with
        | |- context [if ?c then _ else _] => destruct c
        end; apply Hcons.
      * destruct (Hnext lastLabelRight) as [ms (E & H1 & H2)].
        exists ms. split; [exact E|]. split; [exact H1|].
        intros [|k] q Hq Hqe Hin.
        -- rewrite (Hhere 0%nat q Hq eq_refl) in Hin. congruence.
        -- apply (H2 k q Hq Hqe Hin).
    + exists []. split; [reflexivity|]. split; [intros mk []|].
      intros k q Hq Hqe _. exfalso.
      assert (0 <= inject_Z (Z.of_nat k))%Q.
      { change 0%Q with (inject_Z 0). rewrite <- Zle_Qle. lia. }
      nra.
Qed.

End Markers.

Section MarkerLabels.
Variable mt : string -> string -> num.
Hypothesis Hmt : textWidths mt.

Lemma label_chain (lastR px : num) (c : Q) (l2 : num) :
  (0 <= c)%Q ->
  (px - Fin c >? lastR + 8) = true ->
  px + Fin c + 8 < l2 ->
  (l2 >? lastR + 8) = true.
Proof.
  intros Hc. destruct lastR as [a| | |], px as [b| | |], l2 as [e| | |];
    cbn; try discriminate; try reflexivity.
  intros H1 H2. qprop. lra.
Qed.

Lemma half_width (text : string) :
  exists c, mt "11px system-ui, sans-serif" text / 2 = Fin c /\ (0 <= c)%Q.
Proof.
  destruct (Hmt "11px system-ui, sans-serif" text) as [q [-> Hq]].
  rewrite ndiv_fin by (intros E; discriminate E). eexists. split; [reflexivity|].
  apply Qle_shift_div_l; lra.
Qed.

Lemma markerLoop_labels minYear dimensions vs fuel : forall year endYear step lastR ms,
  markerLoop mt minYear dimensions vs fuel year endYear step lastR = Some ms ->
  Forall (fun mk => forall t, mk_label mk = Some t ->
                              t = markerLabel (mk_year mk)
                              /\ (labelLeftOf mt mk t >? lastR + 8) = true) ms
  /\ ForallOrdPairs (labelsApart mt) ms.
Proof.
  induction fuel as [|fuel IH]; intros year endYear step lastR ms; cbn [markerLoop].
  - destruct (year <=? endYear); [discriminate|].
    intros E. injection E as <-. split; constructor.
  - destruct (year <=? endYear); [|intros E; injection E as <-; split; constructor].
    destruct ((yearToX minYear vs year <? GROUP_LABEL_WIDTH)
              || (yearToX minYear vs year >? dim_width dimensions)); [apply IH|].
    destruct (half_width (markerLabel year)) as [c [Hc Hc0]].
    destruct (yearToX minYear vs year
              - mt "11px system-ui, sans-serif" (markerLabel year) / 2 >? lastR + 8)
      eqn:Elab.
    + destruct (markerLoop mt minYear dimensions vs fuel (year + step) endYear step _)
        as [ms'|] eqn:Erec; [|discriminate].
      cbn [option_map]. intros E. injection E as <-.
      destruct (IH _ _ _ _ _ Erec) as [H1 H2]. split.
      * constructor.
        -- cbn [mk_label mk_year]. intros t E. injection E as <-.
           split; [reflexivity|]. exact Elab.
        -- rewrite Forall_forall in *. intros mk Hmk t Ht.
           destruct (H1 mk Hmk t Ht) as [A B]. split; [exact A|].
           rewrite Hc in *. eapply label_chain; [exact Hc0|exact Elab|exact B].
      * constructor; [|exact H2].
        rewrite Forall_forall in *. intros mk Hmk t1 t2 E1 E2.
        cbn [mk_label] in E1. injection E1 as <-.
        destruct (H1 mk Hmk t2 E2) as [_ B]. exact B.
    + destruct (markerLoop mt minYear dimensions vs fuel (year + step) endYear step _)
        as [ms'|] eqn:Erec; [|discriminate].
      cbn [option_map]. intros E. injection E as <-.
      destruct (IH _ _ _ _ _ Erec) as [H1 H2]. split.
      * constructor; [cbn [mk_label]; intros t E; discriminate E|exact H1].
      * constructor; [|exact H2].
        rewrite Forall_forall. intros mk Hmk t1 t2 E1. discriminate E1.
Qed.

End MarkerLabels.

(** Enough fuel for a number of steps. *)
Lemma steps_bound (a d : Q) :
  (0 < d)%Q ->
  exists n : nat, forall fuel : nat, (n <= fuel)%nat ->
    (a < d * inject_Z (Z.of_nat fuel))%Q.
Proof.
  intros Hd. exists (Z.to_nat (Qceiling (a / d)) + 1)%nat. intros fuel Hf.
  assert (H1 : (a / d <= inject_Z (Qceiling (a / d)))%Q) by apply Qle_ceiling.
  assert (H2 : (inject_Z (Qceiling (a / d)) + 1 <= inject_Z (Z.of_nat fuel))%Q).
  { change 1%Q with (inject_Z 1). rewrite <- inject_Z_plus, <- Zle_Qle. lia. }
  assert (H3 : (a == a / d * d)%Q) by (field; lra).
  set (r := (a / d)%Q) in *. set (F := inject_Z (Z.of_nat fuel)) in *. nra.
Qed.

(* ================================================================== *)
(** * Facts about the host application *)

Lemma findIndex_Some (A : Type) (f : A -> bool) (l : list A) : forall i,
  findIndex f l = Some i ->
  exists a, nth_error l i = Some a /\ f a = true.
Proof.
  induction l as [|a l IH]; intros i; cbn [findIndex]; [discriminate|].
  destruct (f a) eqn:E.
  - intros H. injection H as <-. exists a. auto.
  - destruct (findIndex f l) as [j|]; [|discriminate].
    intros H. injection H as <-. cbn [nth_error]. now apply IH.
Qed.

Lemma findIndex_None (A : Type) (f : A -> bool) (l : list A) :
  findIndex f l = None -> forall a, In a l -> f a = false.
Proof.
  induction l as [|a l IH]; cbn [findIndex]; [intros _ ? []|].
  destruct (f a) eqn:E; [discriminate|].
  destruct (findIndex f l); [discriminate|].
  intros _ b [<-|Hb]; [exact E|now apply IH].
Qed.

Lemma indexOfId_found ident l :
  (indexOfId ident l >=? 0)%Z = true ->
  exists e, (0 <= indexOfId ident l)%Z
            /\ nth_error l (Z.to_nat (indexOfId ident l)) = Some e /\ id e = ident.
Proof.
  unfold indexOfId.
  destruct (findIndex (fun e => String.eqb (id e) ident) l) as [i|] eqn:E;
    [|discriminate].
  intros _. destruct (findIndex_Some _ _ _ _ E) as [e [H1 H2]].
  exists e. rewrite Nat2Z.id. split; [lia|]. split; [exact H1|].
  now apply String.eqb_eq.
Qed.

Lemma indexOfId_In ident l e :
  In e l -> id e = ident -> (indexOfId ident l >=? 0)%Z = true.
Proof.
  intros Hin Hid. unfold indexOfId.
  destruct (findIndex (fun e => String.eqb (id e) ident) l) as [i|] eqn:E.
  - apply Z.geb_le. lia.
  - apply (findIndex_None _ _ _ E) in Hin. rewrite Hid, String.eqb_refl in Hin.
    discriminate.
Qed.

Section Host.
Variable mt : string -> string -> num.

Lemma navigateToEntry_spec (a : App) (index : Z) :
  let entries := sortedEntries (filteredEntries a) in
  match nth_error entries (Z.to_nat index) with
  | Some entry =>
      (0 <= index)%Z ->
      navigateToEntry mt a index
      = withSelection a (Some entry) (Some index)
          (scrollToEntry mt (canvas a) entry)
  | None => (0 <= index)%Z -> navigateToEntry mt a index = a
  end
  /\ ((index < 0)%Z -> navigateToEntry mt a index = a).
Proof.
  cbn zeta. unfold navigateToEntry. split.
  - destruct (nth_error _ (Z.to_nat index)) as [entry|] eqn:E; intros H0.
    + assert (Hlt : (Z.to_nat index < List.length (sortedEntries (filteredEntries a)))%nat).
      { apply nth_error_Some. congruence. }
      assert (E1 : (index <? 0)%Z = false) by (apply Z.ltb_ge; lia).
      assert (E2 : (index >=? Z.of_nat (List.length (sortedEntries (filteredEntries a))))%Z
                   = false).
      { rewrite Z.geb_leb. apply Z.leb_gt. lia. }
      rewrite E1, E2. reflexivity.
    + destruct ((index <? 0)%Z || _); reflexivity.
  - intros H. assert (E1 : (index <? 0)%Z = true) by (apply Z.ltb_lt; lia).
    rewrite E1. reflexivity.
Qed.

Lemma scrollToEntry_props (t : Timeline) (e : TimelineEntry) :
  selectedEntry (scrollToEntry mt t e) = selectedEntry t
  /\ t_entries (scrollToEntry mt t e) = t_entries t.
Proof.
  unfold scrollToEntry. destruct (findPos (id e) (positionedEvents t)); auto.
Qed.

Lemma navigateToEntry_coherent (a : App) (index : Z) :
  coherent a -> coherent (navigateToEntry mt a index).
Proof.
  intros Hc. destruct (navigateToEntry_spec a index) as [H1 H2]. cbn zeta in H1.
  destruct (Z.lt_ge_cases index 0) as [Hneg|Hpos]; [now rewrite H2|].
  destruct (nth_error (sortedEntries (filteredEntries a)) (Z.to_nat index))
    as [entry|] eqn:E; rewrite (H1 Hpos); [|exact Hc].
  unfold coherent, withSelection.
  cbn [selectedIndex filteredEntries app_selectedEntry canvas select selectedEntry
       t_entries].
  split; [exists entry, entry; auto|]. split; [reflexivity|].
  destruct Hc as (_ & _ & Hc). rewrite <- Hc. apply scrollToEntry_props.
Qed.

Lemma handlePrevEntry_coherent (a : App) : coherent a -> coherent (handlePrevEntry mt a).
Proof.
  intros Hc. unfold handlePrevEntry. destruct (selectedIndex a) as [i|].
  - destruct (i >? 0)%Z; [now apply navigateToEntry_coherent|exact Hc].
  - now apply navigateToEntry_coherent.
Qed.

Lemma handleNextEntry_coherent (a : App) : coherent a -> coherent (handleNextEntry mt a).
Proof.
  intros Hc. unfold handleNextEntry. destruct (selectedIndex a) as [i|].
  - destruct (i <? _)%Z; [now apply navigateToEntry_coherent|exact Hc].
  - now apply navigateToEntry_coherent.
Qed.

Lemma withSelection_none_coherent (a : App) (c : Timeline) :
  t_entries c = filteredEntries a -> coherent (withSelection a None None c).
Proof. intros H. unfold coherent, withSelection. cbn. auto. Qed.

Lemma selectEntry_coherent (a : App) (entry : option TimelineEntry) :
  coherent a -> coherent (selectEntry a entry).
Proof.
  intros (_ & _ & Hc). unfold selectEntry. destruct entry as [e|];
    [|now apply withSelection_none_coherent].
  destruct (indexOfId (id e) (sortedEntries (filteredEntries a)) >=? 0)%Z eqn:E;
    unfold coherent, withSelection;
    cbn [selectedIndex filteredEntries app_selectedEntry canvas select selectedEntry
         t_entries]; [|auto].
  destruct (indexOfId_found _ _ E) as [e' (H0 & H1 & H2)].
  split; [|auto]. exists e', e. auto.
Qed.

Lemma resyncSelection_coherent (a : App) :
  (app_selectedEntry a = None -> selectedIndex a = None) ->
  selectedEntry (canvas a) = app_selectedEntry a ->
  t_entries (canvas a) = filteredEntries a ->
  coherent (resyncSelection a).
Proof.
  intros Hn Hs Ht. unfold resyncSelection.
  destruct (app_selectedEntry a) as [s|] eqn:Es.
  - destruct (indexOfId (id s) (sortedEntries (filteredEntries a)) >=? 0)%Z eqn:E.
    + destruct (indexOfId_found _ _ E) as [e' (H0 & H1 & H2)].
      unfold coherent. cbn [selectedIndex filteredEntries app_selectedEntry canvas].
      rewrite ?Es. split; [|auto]. exists e', s. auto.
    + now apply withSelection_none_coherent.
  - unfold coherent. rewrite (Hn eq_refl), ?Es. auto.
Qed.

Lemma setFilteredEntries_coherent (a : App) (es : list TimelineEntry) :
  coherent a -> coherent (setFilteredEntries a es).
Proof.
  intros (Hi & Hs & _). unfold setFilteredEntries.
  apply resyncSelection_coherent;
    cbn [app_selectedEntry selectedIndex canvas selectedEntry t_entries filteredEntries];
    auto.
  intros Hn. destruct (selectedIndex a) as [i|]; [|reflexivity].
  destruct Hi as [e [s (_ & _ & Hsel & _)]]. congruence.
Qed.

Lemma handleClick_props (t : Timeline) (rect : Rect) (e : MouseEvent) :
  selectedEntry (fst (handleClick t rect e)) = selectedEntry t
  /\ t_entries (fst (handleClick t rect e)) = t_entries t.
Proof.
  unfold handleClick. destruct (hasDragged t); [auto|].
  destruct ((_ <? _) || (_ <? _)); [auto|].
  destruct (find (hitBadge _ _) _); [auto|].
  destruct (find (hitEvent _ _ _) _); auto.
Qed.

Lemma clickCanvas_coherent (a : App) (rect : Rect) (e : MouseEvent) :
  coherent a -> coherent (clickCanvas a rect e).
Proof.
  intros (Hi & Hs & Ht). unfold clickCanvas.
  destruct (handleClick_props (canvas a) rect e) as [P1 P2].
  destruct (handleClick (canvas a) rect e) as [c [entry|]]; cbn [fst] in P1, P2.
  - apply selectEntry_coherent. unfold coherent.
    cbn [selectedIndex filteredEntries app_selectedEntry canvas].
    rewrite P1, P2. auto.
  - unfold coherent. cbn [selectedIndex filteredEntries app_selectedEntry canvas].
    rewrite P1, P2. auto.
Qed.

Lemma handleKeyDown_coherent (a : App) (inSearch : bool) (k : string) :
  coherent a -> coherent (handleKeyDown mt a inSearch k).
Proof.
  intros Hc. unfold handleKeyDown.
  destruct (String.eqb k "Escape").
  { destruct inSearch; [exact Hc|].
    apply withSelection_none_coherent. apply Hc. }
  destruct inSearch; [exact Hc|].
  destruct (String.eqb k "ArrowLeft" || String.eqb k "ArrowUp").
  { fold (handlePrevEntry mt a). now apply handlePrevEntry_coherent. }
  destruct (String.eqb k "ArrowRight" || String.eqb k "ArrowDown").
  { fold (handleNextEntry mt a). now apply handleNextEntry_coherent. }
  destruct Hc as (Hi & Hs & Ht).
  destruct (String.eqb k "=" || String.eqb k "+"); [split; [exact Hi|split; assumption]|].
  destruct (String.eqb k "-"); [split; [exact Hi|split; assumption]|].
  destruct (String.eqb k "f"); [|split; [exact Hi|split; assumption]].
  split; [exact Hi|]. split; assumption.
Qed.

End Host.

(* ================================================================== *)
(** * Sorting by a key *)

Lemma StronglySorted_impl (A : Type) (R1 R2 : A -> A -> Prop) (l : list A) :
  (forall x y, R1 x y -> R2 x y) -> StronglySorted R1 l -> StronglySorted R2 l.
Proof.
  intros HR. induction 1 as [|a l Hl IH Ha]; constructor; auto.
  rewrite Forall_forall in *. intros x Hx. apply HR. now apply Ha.
Qed.

Section SortByKey.
Variable A : Type.
Variable cmp : A -> A -> num.
Variable keyOf : A -> Q.
Hypothesis Hcmp : forall a b, (cmp b a >? 0) = Qlt_bool (keyOf a) (keyOf b).

Lemma insertSorted_In a l x : In x (insertSorted cmp a l) <-> x = a \/ In x l.
Proof.
  split.
  - intros H. apply (Permutation_in _ (insertSorted_perm A cmp a l)) in H.
    destruct H as [<-|H]; auto.
  - intros H. apply (Permutation_in _ (Permutation_sym (insertSorted_perm A cmp a l))).
    destruct H as [->|H]; [now left|now right].
Qed.

Lemma insertSorted_sorted a l :
  StronglySorted (fun x y => (keyOf x <= keyOf y)%Q) l ->
  StronglySorted (fun x y => (keyOf x <= keyOf y)%Q) (insertSorted cmp a l).
Proof.
  induction 1 as [|b l Hl IH Hb]; cbn [insertSorted].
  - constructor; constructor.
  - rewrite Hcmp. destruct (Qlt_bool (keyOf a) (keyOf b)) eqn:E; qprop.
    + constructor; [constructor; assumption|].
      constructor; [lra|]. rewrite Forall_forall in *. intros x Hx.
      specialize (Hb x Hx). lra.
    + constructor; [exact IH|]. rewrite Forall_forall in *. intros x Hx.
      apply insertSorted_In in Hx. destruct Hx as [->|Hx]; [lra|now apply Hb].
Qed.

Lemma jsSort_fold_sorted l : forall acc,
  StronglySorted (fun x y => (keyOf x <= keyOf y)%Q) acc ->
  StronglySorted (fun x y => (keyOf x <= keyOf y)%Q)
    (fold_left (fun acc a => insertSorted cmp a acc) l acc).
Proof.
  induction l as [|a l IH]; intros acc H; [exact H|].
  cbn [fold_left]. apply IH. now apply insertSorted_sorted.
Qed.

(** A sort by a comparator that compares keys gives the keys in
    order. *)
Lemma jsSort_sorted l :
  StronglySorted (fun x y => (keyOf x <= keyOf y)%Q) (jsSort cmp l).
Proof. apply jsSort_fold_sorted. constructor. Qed.

End SortByKey.

(* ================================================================== *)
(** * Facts about the tag counts *)

Lemma countTag_countsOf m l t :
  countsOf m l -> countsOf (countTag m t) (l ++ [t]).
Proof.
  intros [Hnd Hget]. unfold countTag. split.
  - rewrite map_set_keys. unfold map_has.
    destruct (map_get t m) eqn:E; [exact Hnd|].
    apply NoDup_app; auto.
    + constructor; [intros []|constructor].
    + intros a Ha [<-|[]]. revert Ha. now apply map_get_None_keys.
  - intros t'. rewrite count_occ_app. cbn [count_occ].
    destruct (string_dec t t') as [<-|Hne].
    + rewrite map_get_set_eq, Hget.
      destruct (Nat.eqb_spec (count_occ string_dec l t) 0) as [E0|E0];
        destruct (Nat.eqb_spec (count_occ string_dec l t + 1) 0); try lia;
        f_equal; lia.
    + rewrite map_get_set_neq by exact Hne. rewrite Hget.
      now rewrite Nat.add_0_r.
Qed.

Lemma countTags_countsOf ts : forall m l,
  countsOf m l -> countsOf (fold_left countTag ts m) (l ++ ts).
Proof.
  induction ts as [|t ts IH]; intros m l H; cbn [fold_left].
  - now rewrite app_nil_r.
  - replace (l ++ t :: ts) with ((l ++ [t]) ++ ts) by now rewrite <- app_assoc.
    apply IH. now apply countTag_countsOf.
Qed.

Lemma countEntries_countsOf minImportance es : forall m l,
  countsOf m l ->
  countsOf (fold_left (countEntry minImportance) es m)
    (l ++ flat_map tagsOf (filter (importantEnough minImportance) es)).
Proof.
  induction es as [|e es IH]; intros m l H; cbn [fold_left filter].
  - cbn. now rewrite app_nil_r.
  - unfold countEntry at 2, importantEnough at 1.
    destruct (importanceOr3 e <? minImportance)%nat; cbn [negb].
    + now apply IH.
    + cbn [flat_map]. rewrite app_assoc. apply IH.
      now apply countTags_countsOf.
Qed.

(* ================================================================== *)
(** * Facts about the navigation list *)

Lemma sortYear_fin (e : TimelineEntry) : exists z, sortYear e = Fin (inject_Z z).
Proof. unfold sortYear. destruct (era (date_start e)); eexists; reflexivity. Qed.

Lemma sortYear_cmp (a b : TimelineEntry) :
  (sortYear b - sortYear a >? 0)
  = Qlt_bool (match sortYear a with Fin q => q | _ => 0%Q end)
             (match sortYear b with Fin q => q | _ => 0%Q end).
Proof.
  destruct (sortYear_fin a) as [x ->], (sortYear_fin b) as [y ->].
  cbn. apply eq_true_iff_eq. split; intros H; qprop; lra.
Qed.

Lemma sortedEntries_sorted (es : list TimelineEntry) :
  StronglySorted (fun x y => sortYear x <= sortYear y) (sortedEntries es).
Proof.
  apply (StronglySorted_impl _
           (fun x y =>
              (match sortYear x with Fin q => q | _ => 0 end
               <= match sortYear y with Fin q => q | _ => 0 end)%Q)).
  - intros a b Hab.
    destruct (sortYear_fin a) as [p Ep], (sortYear_fin b) as [q Eq].
    rewrite Ep, Eq in *. cbn. qprop. exact Hab.
  - exact (jsSort_sorted TimelineEntry
             (fun a b => sortYear a - sortYear b)
             (fun e => match sortYear e with Fin q => q | _ => 0%Q end)
             (fun a b => sortYear_cmp a b) es).
Qed.

Lemma sorted_nth (A : Type) (R : A -> A -> Prop) (l : list A) :
  StronglySorted R l ->
  forall i j a b, (i < j)%nat ->
    nth_error l i = Some a -> nth_error l j = Some b -> R a b.
Proof.
  induction 1 as [|x l Hl IH Hx]; intros i j a b Hij Ha Hb.
  - destruct i; discriminate.
  - destruct j as [|j]; [lia|]. cbn in Hb.
    destruct i as [|i]; cbn in Ha.
    + injection Ha as <-. rewrite Forall_forall in Hx. apply Hx.
      eapply nth_error_In; eauto.
    + apply (IH i j); auto. lia.
Qed.

(* ================================================================== *)
(** * Further properties of the engine and of its host *)

Lemma monoText_widths : textWidths monoText.
Proof.
  intros font text. unfold monoText, ofNat. eexists. split; [reflexivity|].
  change 0%Q with (inject_Z 0). rewrite <- Zle_Qle. lia.
Qed.

Lemma labelText_widths : textWidths labelText.
Proof. intros font text. exists 2.5%Q. split; [reflexivity|]. lra. Qed.

(* ================================================================== *)
(** * Further properties of the engine *)

(** ** Year range *)

(** X1.  The year range of a set of records encloses every record: no
    record starts before [minYear], no record ends (or, for a point
    record, starts) after [maxYear], and both bounds are reached by a
    record. *)
Theorem year_range_encloses_records (es : list TimelineEntry) (e : TimelineEntry) :
  In e es ->
  minYearOf es <= getYear e false
  /\ spanEnd e <= maxYearOf es
  /\ (exists e1, In e1 es /\ minYearOf es = getYear e1 false)
  /\ (exists e2, In e2 es /\ maxYearOf es = spanEnd e2).
Proof.
  intros He. unfold minYearOf, maxYearOf, yearBounds.
  destruct es as [|e0 es0] eqn:Ees; [destruct He|]. rewrite <- Ees in *.
  assert (N1 : PInf <> NaN) by discriminate.
  assert (N2 : NInf <> NaN) by discriminate.
  destruct (yearBounds_fold es PInf NInf N1 N2) as (_ & _ & _ & _ & All & Lo & Hi).
  destruct (All e He) as [A1 A2].
  repeat split; try assumption.
  - destruct Lo as [Lo|Lo]; [|exact Lo]. exfalso. rewrite Lo in A1.
    destruct (getYear_finite e false) as [q Hq]. rewrite Hq in A1. discriminate.
  - destruct Hi as [Hi|Hi]; [|exact Hi]. exfalso. rewrite Hi in A2.
    unfold spanEnd in A2.
    destruct (isPeriod e);
      [destruct (getYear_finite e true) as [q Hq]
      |destruct (getYear_finite e false) as [q Hq]];
      rewrite Hq in A2; discriminate.
Qed.

(** The theorem of X1 at a sample. *)
Lemma year_range_encloses_records_witness :
  minYearOf sparseEntries <= getYear (pointEntry "e1000" 1000 "B") false
  /\ spanEnd (pointEntry "e1000" 1000 "B") <= maxYearOf sparseEntries
  /\ (exists e1, In e1 sparseEntries /\ minYearOf sparseEntries = getYear e1 false)
  /\ (exists e2, In e2 sparseEntries /\ maxYearOf sparseEntries = spanEnd e2).
Proof.
  apply (year_range_encloses_records sparseEntries (pointEntry "e1000" 1000 "B")).
  right. left. reflexivity.
Defined.

(** ** Stable layout *)

(** X2.  The stable layout groups the records by their group key: every
    record is placed once, under the key of its group; there is one
    group for each key that occurs, and the entries of a group are the
    records of that key. *)
Theorem stableLayout_groups_by_key (mt : string -> string -> num)
    (es : list TimelineEntry) (mode : GroupingMode) :
  let sl := stableLayout mt es mode in
  Permutation (map le_entry (layoutEntries sl)) es
  /\ (forall le, In le (layoutEntries sl) ->
        le_group le = getGroupKey mode (le_entry le))
  /\ NoDup (map key (groups sl))
  /\ (forall k, In k (map key (groups sl))
                <-> exists e, In e es /\ getGroupKey mode e = k)
  /\ (forall g, In g (groups sl) ->
        Permutation (entries g)
          (filter (fun e => String.eqb (getGroupKey mode e) (key g)) es)).
Proof.
  cbn zeta. split; [apply stableLayout_entries_perm|].
  split.
  - intros le Hle. apply layoutEntry_block in Hle. destruct Hle as [_ Hle].
    assert (Hin : In (le_entry le) (sortedGroup (groupMapOf mode es) (le_group le))).
    { rewrite <- (block_entries mt). now apply in_map. }
    apply (Permutation_in _ (sortedGroup_perm mode es (le_group le))) in Hin.
    apply filter_In in Hin. destruct Hin as [_ Hk].
    apply String.eqb_eq in Hk. now symmetry.
  - rewrite stableLayout_keys. split; [apply sortedGroupKeys_NoDup|].
    split; [intros k; apply sortedGroupKeys_In|].
    intros g Hg. apply stableLayout_group_inv in Hg.
    destruct Hg as (_ & -> & _). apply sortedGroup_perm.
Qed.

(** X3.  Two records that the stable layout places in the same row of a
    group do not overlap at the layout scale: the later one starts at
    least two gaps after the end of the earlier one, label included. *)
Theorem rows_keep_records_apart (mt : string -> string -> num)
    (es : list TimelineEntry) (mode : GroupingMode)
    (l1 : list LayoutEntry) (le1 : LayoutEntry) (l2 : list LayoutEntry)
    (le2 : LayoutEntry) (l3 : list LayoutEntry) :
  textWidths mt ->
  layoutEntries (stableLayout mt es mode) = l1 ++ le1 :: l2 ++ le2 :: l3 ->
  le_group le1 = le_group le2 ->
  le_row le1 = le_row le2 ->
  layoutEnd mt (le_entry le1) + layoutGap
  <= getYear (le_entry le2) false - layoutGap.
Proof.
  intros Hmt E Hg Hr.
  assert (H := layoutEntries_apart mt Hmt es mode). rewrite E in H.
  apply FOP_split in H. now apply H.
Qed.

(** The theorem of X3 at a sample: the records of years 100 and 900 of
    scenario A share a row. *)
Lemma rows_keep_records_apart_witness :
  layoutEnd labelText (pointEntry "r100" 100 "a") + layoutGap
  <= getYear (pointEntry "r900" 900 "c") false - layoutGap.
Proof.
  apply (rows_keep_records_apart labelText (map le_entry scenarioEntries) dynasty
           [] {| le_entry := pointEntry "r100" 100 "a"; le_row := 0;
                 le_group := "Capetiens" |}
           [{| le_entry := pointEntry "r105" 105 "b"; le_row := 1;
               le_group := "Capetiens" |}]
           {| le_entry := pointEntry "r900" 900 "c"; le_row := 0;
              le_group := "Capetiens" |} []).
  - exact labelText_widths.
  - vm_compute. reflexivity.
  - reflexivity.
  - reflexivity.
Defined.

(** X4.  From the layout scale up nothing is hidden: in a frame painted
    at a scale of at least [LAYOUT_SCALE], the visibility pass emits no
    badge, every record is in the visible set, and the frame has no badge
    hit rectangle. *)
Theorem nothing_hidden_from_layout_scale (mt : string -> string -> num)
    (t : Timeline) (ox oy s : Q) :
  textWidths mt ->
  viewState t = {| offsetX := Fin ox; offsetY := Fin oy; scale := Fin s |} ->
  LAYOUT_SCALE <= Fin s ->
  let v := visibility mt (positionedEvents (draw mt t)) (selectedEntry t) in
  hiddenBadges v = []
  /\ (forall e, In e (t_entries t) -> set_has_id (id e) (visibleSet v) = true)
  /\ badgeHitRects (draw mt t) = [].
Proof.
  intros Hmt Hvs Hs. cbn zeta.
  assert (Hs' : (1 # 2 <= s)%Q).
  { unfold LAYOUT_SCALE in Hs. cbn in Hs. qprop. lra. }
  assert (Hpos : positionedEvents (draw mt t)
                 = computeLayout mt (t_stableLayout mt t) (minYear t) (viewState t)).
  { unfold draw. now destruct (paintBadges _ _ _ _). }
  assert (Hclear : ForallOrdPairs clearsInRow (positionedEvents (draw mt t))).
  { rewrite Hpos, Hvs. unfold minYear, minYearOf.
    destruct (yearBounds_finite (t_entries t)) as [a [b ->]]. cbn [fst].
    now apply computeLayout_clears. }
  destruct (visibility_all_clear mt _ (selectedEntry t) Hclear) as [Hb Hv].
  split; [exact Hb|]. split.
  - intros e He.
    assert (Hin : In e (map entry (positionedEvents (draw mt t)))).
    { rewrite Hpos. unfold computeLayout. rewrite mapi_entries.
      apply (Permutation_in e (Permutation_sym
               (stableLayout_entries_perm mt (t_entries t) (groupingMode t)))).
      exact He. }
    apply in_map_iff in Hin. destruct Hin as [p [<- Hp]]. now apply Hv.
  - unfold draw.
    assert (Hb' : hiddenBadges
                   (visibility mt
                      (computeLayout mt (t_stableLayout mt t) (minYear t) (viewState t))
                      (selectedEntry t)) = []).
    { rewrite <- Hpos. exact Hb. }
    rewrite Hb'. reflexivity.
Qed.

(** The theorem of X4 at a sample: [compact], whose initial fit is at
    scale 0.5. *)
Lemma nothing_hidden_from_layout_scale_witness :
  let v := visibility monoText (positionedEvents (draw monoText compact))
             (selectedEntry compact) in
  hiddenBadges v = []
  /\ (forall e, In e (t_entries compact) -> set_has_id (id e) (visibleSet v) = true)
  /\ badgeHitRects (draw monoText compact) = [].
Proof.
  apply (nothing_hidden_from_layout_scale monoText compact 0 0 (1000 # 2000)).
  - exact monoText_widths.
  - vm_compute. reflexivity.
  - reflexivity.
Defined.

(** ** Groups *)

(** X5.  The groups of the stable layout are stacked below the axis: the
    first starts at [AXIS_HEIGHT], each of the others starts where the one
    before it ends, [totalHeight] is where the last one ends, and the
    height of a group is a whole number of rows, at least one. *)
Theorem groups_are_stacked (mt : string -> string -> num)
    (es : list TimelineEntry) (mode : GroupingMode) :
  let sl := stableLayout mt es mode in
  stacked AXIS_HEIGHT (groups sl) (totalHeight sl)
  /\ Forall (fun g => exists n, (1 <= n)%nat /\ g_height g = ofNat n * ROW_HEIGHT)
            (groups sl).
Proof.
  cbn zeta. split; [apply stableLayout_struct|].
  apply Forall_forall. intros g Hg. apply stableLayout_group_inv in Hg.
  destruct Hg as (_ & _ & ->). eexists. split; [|reflexivity].
  cbn [packedGroup pg_rowCount]. lia.
Qed.

(** X6.  Every record of a frame lies in the band of its group: there is
    a group with the key of the record, and the row of the record lies
    between the top and the bottom of the group. *)
Theorem record_lies_in_its_group_band (mt : string -> string -> num)
    (es : list TimelineEntry) (mode : GroupingMode) (minYear : num)
    (viewState : ViewState) (p : PositionedEvent) :
  let sl := stableLayout mt es mode in
  In p (computeLayout mt sl minYear viewState) ->
  exists g, In g (groups sl) /\ key g = group p
            /\ g_y g <= y p /\ y p + ROW_HEIGHT <= g_y g + g_height g.
Proof.
  cbn zeta. unfold computeLayout. intros Hp.
  apply mapi_from_In in Hp. destruct Hp as [i [le [Hle ->]]].
  apply layoutEntry_block in Hle. destruct Hle as [Hk Hle].
  apply block_row in Hle.
  destruct (stableLayout_group mt es mode _ Hk) as [g (Hg & Hkey & _ & Hh)].
  exists g. split; [exact Hg|]. split; [exact Hkey|].
  assert (Hnd : NoDup (map key (groups (stableLayout mt es mode)))).
  { rewrite stableLayout_keys. apply sortedGroupKeys_NoDup. }
  destruct (stacked_finite (groups (stableLayout mt es mode)) 40
              (totalHeight (stableLayout mt es mode))) as [_ Hy].
  { apply (stableLayout_struct mt es mode). }
  { intros g' Hg'. apply stableLayout_group_inv in Hg'.
    destruct Hg' as (_ & _ & ->). eauto. }
  destruct (Hy g Hg) as [q [Hq Hq40]].
  cbn [projectEntry y]. rewrite <- Hkey.
  rewrite (groupYMap_get _ [] g Hnd Hg), Hh, Hq, !ofNat_rows.
  assert (Hnor : nor (Fin q) AXIS_HEIGHT = Fin q).
  { unfold nor, truthy. destruct (Qeq_bool q 0) eqn:E; [|reflexivity].
    qprop. lra. }
  rewrite Hnor. unfold ROW_HEIGHT. nfin.
  set (rc := pg_rowCount (packedGroup mt (groupMapOf mode es) (le_group le))) in *.
  assert (H0 : (0 <= inject_Z (Z.of_nat (le_row le)))%Q).
  { change 0%Q with (inject_Z 0). rewrite <- Zle_Qle. lia. }
  assert (H1 : (inject_Z (Z.of_nat (le_row le)) + 1 <= inject_Z (Z.of_nat rc))%Q).
  { change 1%Q with (inject_Z 1). rewrite <- inject_Z_plus, <- Zle_Qle. lia. }
  split; qprop; lra.
Qed.

(** The theorem of X6 at a sample. *)
Lemma record_lies_in_its_group_band_witness :
  positionedEvents sparse <> []
  /\ Forall
       (fun p =>
          exists g, In g (groups (stableLayout monoText sparseEntries dynasty))
                    /\ key g = group p
                    /\ g_y g <= y p /\ y p + ROW_HEIGHT <= g_y g + g_height g)
       (positionedEvents sparse).
Proof.
  split; [vm_compute; discriminate|].
  apply Forall_forall. intros p Hp.
  apply (record_lies_in_its_group_band monoText sparseEntries dynasty
           (minYear sparse) (viewState sparse) p).
  exact Hp.
Defined.

(** ** Animation *)

(** X7.  A frame of the animation leaves the target alone.  When three
    quarters of what is left of each component is under its threshold (0.5
    for the offsets, 0.0001 for the scale) the frame puts the view on the
    target and ends the animation; otherwise it moves each component a
    quarter of the way to the target, so that three quarters of the
    distance are left. *)
Theorem animation_frame_closes_a_quarter (t : Timeline) (ox oy s tx ty ts : Q) :
  viewState t = {| offsetX := Fin ox; offsetY := Fin oy; scale := Fin s |} ->
  targetState t = {| offsetX := Fin tx; offsetY := Fin ty; scale := Fin ts |} ->
  let t' := animateToTarget t in
  targetState t' = targetState t
  /\ (settling (viewState t) (targetState t) ->
      viewState t' = targetState t /\ isAnimating t' = false)
  /\ (~ settling (viewState t) (targetState t) ->
      exists ox' oy' s',
        viewState t' = {| offsetX := Fin ox'; offsetY := Fin oy'; scale := Fin s' |}
        /\ (tx - ox' == (3 # 4) * (tx - ox))%Q
        /\ (ty - oy' == (3 # 4) * (ty - oy))%Q
        /\ (ts - s' == (3 # 4) * (ts - s))%Q
        /\ isAnimating t' = isAnimating t).
Proof.
  intros Hv Ht. cbn zeta.
  destruct (animate_frame t ox oy s tx ty ts Hv Ht) as (H1 & H2 & H3).
  split; [exact H1|]. split; [exact H2|].
  intros Hn. destruct (H3 Hn) as [E Ha].
  eexists _, _, _. split; [exact E|].
  repeat split; try exact Ha; ring.
Qed.

(** The theorem of X7 at a sample: the first frame after [zoomIn]. *)
Lemma animation_frame_closes_a_quarter_witness :
  let t := zoomIn sparse in
  let t' := animateToTarget t in
  targetState t' = targetState t
  /\ (settling (viewState t) (targetState t) ->
      viewState t' = targetState t /\ isAnimating t' = false)
  /\ (~ settling (viewState t) (targetState t) ->
      exists ox' oy' s',
        viewState t' = {| offsetX := Fin ox'; offsetY := Fin oy'; scale := Fin s' |}
        /\ (0 - ox' == (3 # 4) * (0 - 0))%Q
        /\ (0 - oy' == (3 # 4) * (0 - 0))%Q
        /\ ((1000 # 20000) * 1.3 - s' == (3 # 4) * ((1000 # 20000) * 1.3 - (1000 # 20000)))%Q
        /\ isAnimating t' = isAnimating t).
Proof.
  apply (animation_frame_closes_a_quarter (zoomIn sparse)
           0 0 (1000 # 20000) 0 0 ((1000 # 20000) * 1.3)).
  - vm_compute. reflexivity.
  - vm_compute. reflexivity.
Defined.

(** X8.  From a finite view and a finite target the animation ends: after
    some number of frames the view is the target, exactly, the animation
    is off, and further frames change neither. *)
Theorem animation_reaches_target (t : Timeline) :
  finiteState (viewState t) ->
  finiteState (targetState t) ->
  exists n, forall m, (n <= m)%nat ->
    viewState (frames m t) = targetState t /\ isAnimating (frames m t) = false.
Proof.
  intros Hv Ht.
  destruct (finiteState_inv _ Hv) as [ox [oy [s Ev]]].
  destruct (finiteState_inv _ Ht) as [tx [ty [ts Et]]].
  destruct (frames_bound (tx - ox) (1 # 2)) as [n1 H1]; [reflexivity|].
  destruct (frames_bound (ty - oy) (1 # 2)) as [n2 H2]; [reflexivity|].
  destruct (frames_bound (ts - s) (1 # 10000)) as [n3 H3]; [reflexivity|].
  set (n := Nat.max n1 (Nat.max n2 n3)).
  destruct (frames_settle n t ox oy s tx ty ts Ev Et) as [k (Hk & Hkv & Hka)].
  - apply H1. lia.
  - apply H2. lia.
  - apply H3. lia.
  - exists (S n). intros m Hm.
    replace m with ((m - k) + k)%nat by lia.
    unfold frames. rewrite Nat.iter_add.
    change (Nat.iter k animateToTarget t) with (frames k t).
    change (Nat.iter (m - k) animateToTarget (frames k t))
      with (frames (m - k) (frames k t)).
    rewrite <- (frames_target k t).
    apply frames_rest; [now rewrite frames_target| |assumption].
    rewrite Hkv. symmetry. apply frames_target.
Qed.

(** The theorem of X8 at a sample: the animation that [zoomIn] starts. *)
Lemma animation_reaches_target_witness :
  exists n, forall m, (n <= m)%nat ->
    viewState (frames m (zoomIn sparse)) = targetState (zoomIn sparse)
    /\ isAnimating (frames m (zoomIn sparse)) = false.
Proof.
  apply (animation_reaches_target (zoomIn sparse)).
  - vm_compute. auto.
  - vm_compute. auto.
Defined.

(** ** Pointer *)

(** X9.  A drag follows the pointer from where the button went down: the
    view after a move depends on that move only, not on the moves before
    it; the horizontal offset is the target offset at the press plus the
    horizontal displacement of the pointer; the scale is the scale shown
    at the press; and the target is the view, with the animation off. *)
Theorem drag_follows_pointer (t : Timeline) (down e1 e2 : MouseEvent) :
  let t0 := handleMouseDown t down in
  let t2 := handleMouseMove (handleMouseMove t0 e1) e2 in
  viewState t2 = viewState (handleMouseMove t0 e2)
  /\ targetState t2 = viewState t2
  /\ offsetX (viewState t2) = offsetX (targetState t) + (clientX e2 - clientX down)
  /\ scale (viewState t2) = scale (viewState t)
  /\ isAnimating t2 = false.
Proof. cbn. repeat split. Qed.

(** X10.  The cursor of a hover announces what a click does.  For a
    pointer position and a timeline that has not been dragged: under a
    pointer cursor a click zooms on the badge under the pointer or selects
    the highlighted entry; under a grab cursor nothing is highlighted and
    a click clears the selection; under the default cursor (label column
    and axis) nothing is highlighted and a click does nothing. *)
Theorem hover_announces_click (t : Timeline) (rect : Rect) (e : MouseEvent) :
  hasDragged t = false ->
  let h := hover t rect e in
  let click := handleClick t rect e in
  match cursor h with
  | cursor_pointer =>
      (exists badge,
          find (hitBadge (clientX e - rect_left rect) (clientY e - rect_top rect))
               (badgeHitRects t) = Some badge
          /\ hoveredEvent h = None
          /\ click = (setTargetState t (badgeClickTarget t badge), None))
      \/ (exists entry,
             hoveredEvent h = Some entry /\ click = (t, Some (Some entry)))
  | cursor_grab => hoveredEvent h = None /\ click = (t, Some None)
  | cursor_default => hoveredEvent h = None /\ click = (t, None)
  end.
Proof.
  intros Hd. cbn zeta. unfold hover, handleClick. rewrite Hd.
  set (px := clientX e - rect_left rect). set (py := clientY e - rect_top rect).
  destruct ((px <? GROUP_LABEL_WIDTH) || (py <? AXIS_HEIGHT)) eqn:Eout.
  - cbn. auto.
  - destruct (find (hitBadge px py) (badgeHitRects t)) as [badge|] eqn:Ef.
    + assert (Ex : existsb (hitBadge px py) (badgeHitRects t) = true).
      { apply find_some in Ef. apply existsb_exists. exists badge. exact Ef. }
      rewrite Ex. cbn. left. exists badge. auto.
    + assert (Ex : existsb (hitBadge px py) (badgeHitRects t) = false).
      { destruct (existsb _ _) eqn:E; [|reflexivity].
        apply existsb_exists in E. destruct E as [b [Hb1 Hb2]].
        apply (find_none _ _ Ef) in Hb1. congruence. }
      rewrite Ex.
      destruct (find (hitEvent (viewState t) px py) (positionedEvents t)) as [pos|];
        cbn.
      * right. eauto.
      * auto.
Qed.

(** The theorem of X10 at a sample: the pointer over the badge of
    [clustered]. *)
Lemma hover_announces_click_witness :
  cursor (hover clustered originRect badgeClick) = cursor_pointer
  /\ ((exists badge,
          find (hitBadge (clientX badgeClick - rect_left originRect)
                         (clientY badgeClick - rect_top originRect))
               (badgeHitRects clustered) = Some badge
          /\ hoveredEvent (hover clustered originRect badgeClick) = None
          /\ handleClick clustered originRect badgeClick
             = (setTargetState clustered (badgeClickTarget clustered badge), None))
      \/ (exists entry,
             hoveredEvent (hover clustered originRect badgeClick) = Some entry
             /\ handleClick clustered originRect badgeClick
                = (clustered, Some (Some entry)))).
Proof.
  assert (E : cursor (hover clustered originRect badgeClick) = cursor_pointer)
    by (vm_compute; reflexivity).
  split; [exact E|].
  assert (H := hover_announces_click clustered originRect badgeClick eq_refl).
  cbn zeta in H. rewrite E in H. exact H.
Defined.

(** ** Scrolling to an entry and fitting *)

(** X11.  [scrollToEntry] centres the entry: under the target it sets,
    the start year of the entry projects to the middle of the plot area,
    and the middle of the row of the entry lies at half the viewport
    height below the axis. *)
Theorem scrollToEntry_centres_entry (mt : string -> string -> num)
    (t : Timeline) (e : TimelineEntry) (pos : PositionedEvent) (w h yp ts : Q) :
  textWidths mt ->
  findPos (id e) (positionedEvents t) = Some pos ->
  dim_width (dimensions t) = Fin w ->
  dim_height (dimensions t) = Fin h ->
  y pos = Fin yp ->
  scale (targetState t) = Fin ts ->
  let t' := scrollToEntry mt t e in
  yearToX (minYear t) (targetState t') (getYear e false) == plotCentre t
  /\ y pos + offsetY (targetState t') + ROW_HEIGHT / 2
     == dim_height (dimensions t) / 2 + AXIS_HEIGHT.
Proof.
  intros Hmt Hpos Hw Hh Hy Hts. cbn zeta.
  rewrite (scrollToEntry_target mt t e pos Hpos). cbn zeta.
  destruct (neededScale_fin mt Hmt e (sameRowOf t pos) (indexInRow e (sameRowOf t pos)))
    as [q (Hq & _)].
  rewrite Hq.
  assert (Hfs : exists fs, (if Fin q >? 0 then nmin 5 (Fin q * 1.1)
                            else scale (targetState t)) = Fin fs).
  { destruct (Fin q >? 0); [|eauto]. cbn [nmul nmin]. qcase; eauto. }
  destruct Hfs as [fs ->].
  destruct (minYear_finite t) as [m Hm].
  destruct (getYear_finite e false) as [ye Hye].
  unfold yearToX, plotCentre. cbn [offsetX offsetY scale].
  rewrite Hw, Hh, Hy, Hm, Hye. consts. nfin.
  rewrite !ndiv_fin by (intros E; discriminate E). nfin.
  split; qprop; field.
Qed.

(** The theorem of X11 at a sample. *)
Lemma scrollToEntry_centres_entry_witness :
  let e := pointEntry "e1000" 1000 "B" in
  exists pos,
    findPos (id e) (positionedEvents sparse) = Some pos
    /\ yearToX (minYear sparse) (targetState (scrollToEntry monoText sparse e))
         (getYear e false) == plotCentre sparse
    /\ y pos + offsetY (targetState (scrollToEntry monoText sparse e)) + ROW_HEIGHT / 2
       == dim_height (dimensions sparse) / 2 + AXIS_HEIGHT.
Proof.
  cbn zeta. eexists. split; [vm_compute; reflexivity|].
  apply (scrollToEntry_centres_entry monoText sparse (pointEntry "e1000" 1000 "B")
           _ 1260 600 40 (1000 # 20000)).
  - exact monoText_widths.
  - vm_compute. reflexivity.
  - reflexivity.
  - reflexivity.
  - reflexivity.
  - vm_compute. reflexivity.
Defined.

(** X12.  [scrollToEntry] zooms in far enough for the entry to clear its
    neighbours in the row: when the scale it sets is under the cap of 5,
    then, under the target it sets, the label of an earlier neighbour on
    the left ends at least [OVERLAP_GAP] before the entry starts, and the
    label of the entry ends at least [OVERLAP_GAP] before a later
    neighbour on the right starts. *)
Theorem scrollToEntry_clears_neighbours (mt : string -> string -> num)
    (t : Timeline) (e : TimelineEntry) (pos : PositionedEvent) (i : nat) (w : Q) :
  textWidths mt ->
  findPos (id e) (positionedEvents t) = Some pos ->
  indexInRow e (sameRowOf t pos) = Some i ->
  dim_width (dimensions t) = Fin w ->
  let t' := scrollToEntry mt t e in
  scale (targetState t') < 5 ->
  (forall l leftPos,
      i = S l -> nth_error (sameRowOf t pos) l = Some leftPos ->
      getYear (entry leftPos) false < getYear e false ->
      yearToX (minYear t) (targetState t') (getYear (entry leftPos) false)
      + measureEventWidth mt (entry leftPos) + OVERLAP_GAP
      <= yearToX (minYear t) (targetState t') (getYear e false))
  /\ (forall rightPos,
        nth_error (sameRowOf t pos) (S i) = Some rightPos ->
        getYear e false < getYear (entry rightPos) false ->
        yearToX (minYear t) (targetState t') (getYear e false)
        + measureEventWidth mt e + OVERLAP_GAP
        <= yearToX (minYear t) (targetState t') (getYear (entry rightPos) false)).
Proof.
  intros Hmt Hpos Hidx Hw. cbn zeta.
  rewrite (scrollToEntry_target mt t e pos Hpos). cbn zeta. rewrite Hidx, Hw.
  destruct (neededScale_fin mt Hmt e (sameRowOf t pos) (Some i))
    as [q (Hq & Hq0 & Hleft & Hright)].
  rewrite Hq. cbn [scale].
  destruct (minYear_finite t) as [m Hm].
  destruct (getYear_finite e false) as [ye Hye].
  rewrite Hm, Hye. intros Hcap.
  (* what a neighbour that asks for the scale [v] gets *)
  assert (Hgot : forall (g v w' : Q),
            (0 < g)%Q -> (0 < v)%Q -> (v <= q)%Q -> (g * 10 * v == w' + 5)%Q ->
            (35 <= w')%Q ->
            (if Fin q >? 0 then nmin 5 (Fin q * 1.1) else scale (targetState t))
            = Fin (q * 1.1)
            /\ (w' + 5 <= g * (q * 1.1 * 10))%Q).
  { intros g v w' Hg Hv Hvq Hgv Hw'.
    assert (Hpos' : (Fin q >? 0) = true) by (cbn; qprop; lra).
    rewrite Hpos' in Hcap |- *. cbn [nmul nmin] in Hcap |- *.
    destruct (Qle_bool 5 (q * 1.1)) eqn:E5; [discriminate Hcap|].
    split; [reflexivity|].
    assert (H1 : (g * 10 * v <= g * 10 * q)%Q).
    { apply Qmult_le_l; [lra|assumption]. }
    nra. }
  split.
  - intros l leftPos -> Hnth Hlt.
    destruct (getYear_finite (entry leftPos) false) as [yl Hyl].
    rewrite Hyl in Hlt |- *. cbn in Hlt. qprop.
    destruct (Hleft l leftPos (ye - yl)%Q eq_refl Hnth) as [v [w' (H1 & H2 & H3 & H4)]];
      [now rewrite Hye, Hyl|lra|].
    destruct (measureEventWidth_fin mt Hmt (entry leftPos)) as [w'' [Hw'' Hw35]].
    assert (w'' = w') by congruence. subst w''.
    destruct (Hgot (ye - yl)%Q v w') as [Hfs Hineq]; try assumption; [lra|].
    rewrite Hfs, H2. unfold yearToX. cbn [offsetX scale]. consts. nfin.
    rewrite !ndiv_fin by (intros E; discriminate E). nfin. qprop. nra.
  - intros rightPos Hnth Hlt.
    destruct (getYear_finite (entry rightPos) false) as [yr Hyr].
    rewrite Hyr in Hlt |- *. cbn in Hlt. qprop.
    destruct (Hright i rightPos (yr - ye)%Q eq_refl Hnth) as [v [w' (H1 & H2 & H3 & H4)]];
      [now rewrite Hye, Hyr|lra|].
    destruct (measureEventWidth_fin mt Hmt e) as [w'' [Hw'' Hw35]].
    assert (w'' = w') by congruence. subst w''.
    destruct (Hgot (yr - ye)%Q v w') as [Hfs Hineq]; try assumption; [lra|].
    rewrite Hfs, H2. unfold yearToX. cbn [offsetX scale]. consts. nfin.
    rewrite !ndiv_fin by (intros E; discriminate E). nfin. qprop. nra.
Qed.

(** The theorem of X12 at a sample: in [clustered], the record of year
    1020 between the records of years 1000 and 1040. *)
Lemma scrollToEntry_clears_neighbours_witness :
  let e := pointEntry "e1020" 1020 "C" in
  let t' := scrollToEntry monoText clustered e in
  yearToX (minYear clustered) (targetState t') 1000
  + measureEventWidth monoText (pointEntry "e1000" 1000 "B") + OVERLAP_GAP
  <= yearToX (minYear clustered) (targetState t') 1020
  /\ yearToX (minYear clustered) (targetState t') 1020
     + measureEventWidth monoText e + OVERLAP_GAP
     <= yearToX (minYear clustered) (targetState t') 1040.
Proof.
  cbn zeta.
  let l := eval vm_compute in (nth_error (positionedEvents clustered) 2) in
  match l with Some ?p => pose (pos := p) end.
  destruct (scrollToEntry_clears_neighbours monoText clustered
              (pointEntry "e1020" 1020 "C") pos 2 1260) as [HL HR].
  - exact monoText_widths.
  - vm_compute. reflexivity.
  - vm_compute. reflexivity.
  - reflexivity.
  - vm_compute. reflexivity.
  - let l := eval vm_compute in (nth_error (positionedEvents clustered) 1) in
    match l with Some ?p => pose (leftPos := p) end.
    let r := eval vm_compute in (nth_error (positionedEvents clustered) 3) in
    match r with Some ?p => pose (rightPos := p) end.
    split.
    + apply (HL 1%nat leftPos eq_refl); vm_compute; reflexivity.
    + apply (HR rightPos); vm_compute; reflexivity.
Defined.

(** X13.  [fit] without a selection shows the whole year range: when the
    range is not empty and the scale that fits it is at most 5, the
    target has that scale and no horizontal offset, the first year
    projects 50 pixels right of the label column and the last year 50
    pixels left of the right edge. *)
Theorem fit_shows_whole_range (mt : string -> string -> num) (t : Timeline) (w : Q) :
  selectedEntry t = None ->
  dim_width (dimensions t) = Fin w ->
  minYear t < maxYear t ->
  fitScaleOf t <= 5 ->
  let t' := fit mt t in
  offsetX (targetState t') = 0
  /\ scale (targetState t') == fitScaleOf t
  /\ yearToX (minYear t) (targetState t') (minYear t) == GROUP_LABEL_WIDTH + 50
  /\ yearToX (minYear t) (targetState t') (maxYear t)
     == dim_width (dimensions t) - 50.
Proof.
  intros Hsel Hw Hrange Hcap. cbn zeta.
  unfold fit. rewrite Hsel. cbn [targetState setTargetState withTarget offsetX scale].
  unfold t_minScale, minScale, yearToX, fitScaleOf, yearRangeOf in *.
  cbn [offsetX scale].
  destruct (minYear_finite t) as [lo Hlo]. destruct (maxYear_finite t) as [hi Hhi].
  rewrite Hw, Hlo, Hhi in *. consts. nfin. qprop.
  assert (Hd : ~ ((hi - lo) * 10 == 0)%Q) by lra.
  rewrite !ndiv_fin in * by assumption. nfin. qprop.
  split; [reflexivity|].
  assert (HF : ((hi - lo) * ((w - 160 - 100) / ((hi - lo) * 10) * 10)
                == w - 160 - 100)%Q) by (field; lra).
  set (F := ((w - 160 - 100) / ((hi - lo) * 10))%Q) in *.
  cbn [nmin nmax]. qcases; nfin; repeat split; qprop; try lra; nra.
Qed.

(** The theorem of X13 at a sample. *)
Lemma fit_shows_whole_range_witness :
  offsetX (targetState (fit monoText sparse)) = 0
  /\ scale (targetState (fit monoText sparse)) == fitScaleOf sparse
  /\ yearToX (minYear sparse) (targetState (fit monoText sparse)) (minYear sparse)
     == GROUP_LABEL_WIDTH + 50
  /\ yearToX (minYear sparse) (targetState (fit monoText sparse)) (maxYear sparse)
     == dim_width (dimensions sparse) - 50.
Proof.
  apply (fit_shows_whole_range monoText sparse 1260); reflexivity.
Defined.

(** The year the host and [fit] compute for an entry is the year the
    entry is drawn at, unless the date is a BCE date stored with a
    negative year: its year is then the opposite. *)
Lemma sortYear_getYear (e : TimelineEntry) :
  era (date_start e) = CE \/ (0 <= year (date_start e))%Z ->
  sortYear e = getYear e false.
Proof.
  unfold sortYear, getYear, dateYear.
  destruct (era (date_start e)); intros [H|H]; try discriminate H; try reflexivity.
  now rewrite Z.abs_eq.
Qed.

Lemma sortYear_opposite (e : TimelineEntry) :
  era (date_start e) = BCE -> (year (date_start e) < 0)%Z ->
  sortYear e = ofZ (- year (date_start e))
  /\ getYear e false = ofZ (year (date_start e)).
Proof.
  unfold sortYear, getYear, dateYear. intros -> H.
  rewrite Z.abs_neq by lia. now rewrite Z.opp_involutive.
Qed.

(** X14.  [fit] with a selection centres the year it computes for the
    selected entry, the year of its start date, negated when the era is
    BCE: when the year range is not empty that year projects to the middle
    of the plot area under the target.  This is the year the entry is
    drawn at when the era is CE or the stored year is not negative; for a
    BCE date stored with a negative year it is the opposite of the year
    the entry is drawn at. *)
Theorem fit_centres_selected_entry (mt : string -> string -> num)
    (t : Timeline) (sel : TimelineEntry) (w : Q) :
  selectedEntry t = Some sel ->
  dim_width (dimensions t) = Fin w ->
  minYear t < maxYear t ->
  yearToX (minYear t) (targetState (fit mt t)) (sortYear sel) == plotCentre t
  /\ (era (date_start sel) = CE \/ (0 <= year (date_start sel))%Z ->
      yearToX (minYear t) (targetState (fit mt t)) (getYear sel false)
      == plotCentre t)
  /\ (era (date_start sel) = BCE -> (year (date_start sel) < 0)%Z ->
      yearToX (minYear t) (targetState (fit mt t)) (- getYear sel false)
      == plotCentre t).
Proof.
  intros Hsel Hw Hrange.
  assert (Hall : forall q : Q,
            (q == match sortYear sel with Fin y => y | _ => 0 end)%Q ->
            yearToX (minYear t) (targetState (fit mt t)) (Fin q) == plotCentre t).
  { intros q Hq.
    unfold fit. rewrite Hsel. cbn [targetState setTargetState withTarget].
    unfold t_minScale, minScale, yearToX, plotCentre, sortYear in *.
    cbn [offsetX scale].
    destruct (minYear_finite t) as [lo Hlo]. destruct (maxYear_finite t) as [hi Hhi].
    rewrite Hw, Hlo, Hhi in *. consts. nfin. qprop.
    assert (Hd : ~ ((hi - lo) * 10 == 0)%Q) by lra.
    rewrite !ndiv_fin by (try assumption; intros E; discriminate E).
    assert (Hfs : exists fs,
              nmax (nmin 0.05 (Fin ((w - 160 - 100) / ((hi - lo) * 10))))
                   (nmin 5 (Fin ((w - 160 - 100) / ((hi - lo) * 10)))) = Fin fs).
    { cbn [nmin nmax]. repeat (qcase; cbn [nmin nmax]); eauto. }
    destruct Hfs as [fs ->].
    destruct (era (date_start sel)); unfold ofZ in *; nfin; qprop;
      rewrite Hq; field. }
  split; [|split].
  - unfold sortYear in *. destruct (era (date_start sel)); apply Hall; reflexivity.
  - intros Hdate. rewrite <- (sortYear_getYear sel Hdate).
    unfold sortYear in *. destruct (era (date_start sel)); apply Hall; reflexivity.
  - intros Hera Hneg. destruct (sortYear_opposite sel Hera Hneg) as [Es Eg].
    rewrite Eg. unfold ofZ. cbn [nneg]. apply Hall. rewrite Es. unfold ofZ.
    rewrite inject_Z_opp. reflexivity.
Qed.

(** The theorem of X14 at a sample. *)
Lemma fit_centres_selected_entry_witness :
  yearToX (minYear squat) (targetState (fit monoText squat))
    (sortYear (pointEntry "e1000" 1000 "B"))
  == plotCentre squat
  /\ yearToX (minYear squat) (targetState (fit monoText squat))
       (getYear (pointEntry "e1000" 1000 "B") false)
     == plotCentre squat.
Proof.
  destruct (fit_centres_selected_entry monoText squat (pointEntry "e1000" 1000 "B")
              1260 eq_refl eq_refl eq_refl) as [H1 [H2 _]].
  split; [exact H1|]. apply H2. left. reflexivity.
Defined.

(* ================================================================== *)
(** * Facts about the painting of events *)

Section Boxes.
Variable mt : string -> string -> num.
Hypothesis Hmt : textWidths mt.

(** The box of a record is at least as wide as its label. *)
Lemma projectEntry_width (m ox oy s : Q) groupYMap i le :
  exists wd mw,
    width (projectEntry mt (Fin m)
             {| offsetX := Fin ox; offsetY := Fin oy; scale := Fin s |} groupYMap i le)
    = Fin wd
    /\ measureEventWidth mt (le_entry le) = Fin mw /\ (mw <= wd)%Q.
Proof.
  destruct (measureEventWidth_fin mt Hmt (le_entry le)) as [mw [Hmw _]].
  cbn [projectEntry width]. rewrite Hmw. unfold yearToX. cbn [scale offsetX].
  destruct (isPeriod (le_entry le)).
  - destruct (getYear_finite (le_entry le) false) as [y1 ->].
    destruct (getYear_finite (le_entry le) true) as [y2 ->].
    consts. nfin. cbn [nmax]. qcase; qprop; eexists _, mw; repeat split; lra.
  - exists mw, mw. repeat split. lra.
Qed.

Lemma computeLayout_width sl (m ox oy s : Q) p :
  In p (computeLayout mt sl (Fin m)
          {| offsetX := Fin ox; offsetY := Fin oy; scale := Fin s |}) ->
  exists wd mw, width p = Fin wd /\ measureEventWidth mt (entry p) = Fin mw
                /\ (mw <= wd)%Q.
Proof.
  unfold computeLayout. intros Hp. apply mapi_from_In in Hp.
  destruct Hp as [i [le [_ ->]]]. apply projectEntry_width.
Qed.

End Boxes.

(** ** Painting *)

(** X15.  The title of a record is never cut.  In a frame of a finite
    camera, with icons loaded for records that have an image only, the
    box of every record leaves the title at least its measured width:
    [drawEvent] paints the title in full, or not at all when the room for
    it is 20 pixels or less. *)
Theorem titles_are_never_cut (mt : string -> string -> num)
    (sl : StableLayout) (m ox oy s : Q) (imagesCache : list string)
    (p : PositionedEvent) (px py : num) :
  textWidths mt ->
  In p (computeLayout mt sl (Fin m)
          {| offsetX := Fin ox; offsetY := Fin oy; scale := Fin s |}) ->
  (hasIcon imagesCache p = true -> hasImage (entry p) = true) ->
  let txt := drawEventText mt imagesCache p px py in
  mt "11px system-ui, sans-serif" (title (entry p)) <= et_maxTextWidth txt
  /\ (if et_maxTextWidth txt >? 20
      then et_title txt = Some (title (entry p))
      else et_title txt = None).
Proof.
  intros Hmt Hp Hicon. cbn zeta.
  destruct (computeLayout_width mt Hmt sl m ox oy s p Hp) as [wd [mw (Hwd & Hmw & Hle)]].
  unfold measureEventWidth in Hmw. unfold drawEventText.
  cbn [et_maxTextWidth et_title]. rewrite Hwd.
  destruct (Hmt "bold 10px system-ui, sans-serif" (formatYear (date_start (entry p))))
    as [yw [Hyw Hyw0]].
  destruct (Hmt "11px system-ui, sans-serif" (title (entry p))) as [tw [Htw Htw0]].
  rewrite Hyw, Htw in *.
  assert (E : ICON_SIZE / 2 = Fin (20 # 2)) by reflexivity.
  rewrite E in *. consts.
  destruct (hasIcon imagesCache p) eqn:Ei.
  - rewrite (Hicon eq_refl) in Hmw. cbn in Hmw. injection Hmw as Hmw. subst mw.
    destruct (isPeriod (entry p)); nfin;
      (split; [qprop; lra|]);
      destruct (Qlt_bool 20 _) eqn:E20; [|reflexivity| |reflexivity];
      match goal with
      | |- context [Qlt_bool ?a tw] =>
          destruct (Qlt_bool a tw) eqn:Et; [exfalso; qprop; lra|reflexivity]
      end.
  - assert (Hmw' : exists lw, (5 <= lw)%Q /\ mw = (lw + 12 + yw + 6 + tw + 12)%Q).
    { destruct (hasImage (entry p)); cbn in Hmw; injection Hmw as Hmw;
        eexists; (split; [|symmetry; exact Hmw]); lra. }
    destruct Hmw' as [lw [Hlw ->]].
    destruct (isPeriod (entry p)); nfin;
      (split; [qprop; lra|]);
      destruct (Qlt_bool 20 _) eqn:E20; [|reflexivity| |reflexivity];
      match goal with
      | |- context [Qlt_bool ?a tw] =>
          destruct (Qlt_bool a tw) eqn:Et; [exfalso; qprop; lra|reflexivity]
      end.
Qed.

Lemma titles_are_never_cut_witness :
  Forall
    (fun p =>
       let txt := drawEventText monoText [] p (x p) (y p) in
       monoText "11px system-ui, sans-serif" (title (entry p)) <= et_maxTextWidth txt
       /\ (if et_maxTextWidth txt >? 20
           then et_title txt = Some (title (entry p))
           else et_title txt = None))
    (computeLayout monoText (stableLayout monoText sparseEntries dynasty) (Fin 0)
       {| offsetX := Fin 0; offsetY := Fin 0; scale := Fin (1 # 2) |}).
Proof.
  apply Forall_forall. intros p Hp.
  apply (titles_are_never_cut monoText (stableLayout monoText sparseEntries dynasty)
           0 0 0 (1 # 2) [] p (x p) (y p)).
  - exact monoText_widths.
  - exact Hp.
  - intros H. discriminate H.
Defined.

(** X16.  The label painted for a group is the longest beginning of its
    key that fits the label column: the key itself when it fits (or is
    empty); otherwise the longest proper beginning of the key that fits
    (the empty one when none does), followed by an ellipsis. *)
Theorem group_label_is_longest_fit (mt : string -> string -> num) (g : Group) :
  (labelTooWide mt (key g) = false -> groupLabel mt g = key g)
  /\ (labelTooWide mt (key g) = true ->
      exists p,
        groupLabel mt g = String.append p "..."
        /\ String.prefix p (key g) = true
        /\ (String.length p < String.length (key g))%nat
        /\ labelTooWide mt p = false
        /\ forall q, String.prefix q (key g) = true ->
                     (String.length p < String.length q)%nat ->
                     labelTooWide mt q = true).
Proof.
  unfold groupLabel.
  destruct (shrinkLabel_spec mt (S (String.length (key g))) (key g)) as (H1 & H2 & H3);
    [lia|]. cbn zeta in *.
  set (r := shrinkLabel mt (S (String.length (key g))) (key g)) in *.
  assert (Hlen := prefix_length _ _ H1).
  split.
  - intros Hfit.
    assert (Er : r = key g).
    { apply prefix_full; [exact H1|].
      destruct (Nat.eq_dec (String.length r) (String.length (key g))) as [E|E];
        [exact E|].
      rewrite (H3 (key g)) in Hfit; [discriminate Hfit|apply prefix_refl|lia]. }
    rewrite Er, String.eqb_refl. reflexivity.
  - intros Hwide.
    assert (Hne : r <> key g) by (intros E; rewrite E in H2; congruence).
    destruct (String.eqb_spec r (key g)) as [E|_]; [contradiction|].
    exists r. repeat split; try assumption.
    destruct (Nat.eq_dec (String.length r) (String.length (key g))) as [E|E]; [|lia].
    exfalso. apply Hne. now apply prefix_full.
Qed.

(** X17.  The events of a frame are painted in the reverse of their order
    in the array, the selected one last: the calls of [drawEvent] are, in
    order, the events that are visible and on screen and not selected,
    last to first, and then the first such event that is selected; each
    is painted at its position, moved by the vertical offset.  When the
    ids are distinct, every visible event on screen is painted once. *)
Theorem events_are_painted_selected_last (dimensions : Dimensions)
    (viewState : ViewState) (positioned : list PositionedEvent)
    (visibleSet : list string) (selectedEntry : option TimelineEntry) :
  let calls := drawEvents dimensions viewState positioned visibleSet selectedEntry in
  map dc_pos calls
  = rev (filter (paintedPlain dimensions viewState visibleSet selectedEntry) positioned)
    ++ match filter (paintedSelected dimensions viewState visibleSet selectedEntry)
                    positioned with
       | [] => []
       | p :: _ => [p]
       end
  /\ (forall c, In c calls -> c = callOf viewState (dc_pos c))
  /\ (distinctIds positioned = true ->
      Permutation (map dc_pos calls)
                  (filter (painted dimensions viewState visibleSet) positioned)).
Proof.
  cbn zeta. rewrite drawEvents_spec.
  assert (Hid : forall l, map dc_pos (map (callOf viewState) l) = l).
  { intros l. rewrite map_map. cbn [callOf dc_pos]. apply map_id. }
  rewrite Hid. split; [reflexivity|]. split.
  - intros c Hc. apply in_map_iff in Hc. destruct Hc as [p [<- _]]. reflexivity.
  - intros Hd. apply distinctIds_NoDup in Hd.
    rewrite <- Permutation_rev.
    rewrite <- (filter_split_perm _ (painted dimensions viewState visibleSet)
                  (isSelected selectedEntry) positioned).
    apply Permutation_app_head.
    unfold paintedSelected, isSelected. destruct selectedEntry as [s|].
    + rewrite (filter_one_id (painted dimensions viewState visibleSet) (id s)
                 positioned Hd). reflexivity.
    + assert (E : filter (fun a => painted dimensions viewState visibleSet a && false)
                         positioned = []).
      { apply filter_none. intros a _. apply andb_false_r. }
      change (fun pos => painted dimensions viewState visibleSet pos && false)
        with (fun a => painted dimensions viewState visibleSet a && false).
      rewrite E. reflexivity.
Qed.



(** ** Year markers *)

(** X19.  The year markers are the multiples of the year step in view.
    For a camera of finite numbers and positive scale and a viewport of
    finite width, the marker loop ends; every marker it paints is at a
    multiple of the year step, at the pixel of that year, within the plot
    area; and every multiple of the year step that projects into the plot
    area has its marker. *)
Theorem year_markers_are_the_steps_in_view (mt : string -> string -> num)
    (minYear : num) (dimensions : Dimensions) (viewState : ViewState) (w : Q) :
  liveCamera minYear viewState ->
  dim_width dimensions = Fin w ->
  exists fuel0, forall fuel, (fuel0 <= fuel)%nat ->
    exists markers,
      yearMarkers mt minYear dimensions viewState fuel = Some markers
      /\ (forall mk, In mk markers ->
            isMultiple (yearStep viewState) (mk_year mk)
            /\ mk_x mk = yearToX minYear viewState (mk_year mk)
            /\ inPlot dimensions (mk_x mk) = true)
      /\ (forall k : Z,
            inPlot dimensions (yearToX minYear viewState (ofZ k * yearStep viewState))
            = true ->
            exists mk, In mk markers /\ mk_year mk == ofZ k * yearStep viewState).
Proof.
  intros (Hm & Hfin & Hs) Hw.
  destruct minYear as [m| | |]; try contradiction.
  destruct (finiteState_inv _ Hfin) as [ox [oy [s Hvs]]].
  assert (Hs' : (0 < s)%Q) by (rewrite Hvs in Hs; cbn in Hs; now qprop).
  destruct (yearStep_fin viewState) as [d [Hd Hd5]].
  assert (Hd0 : (0 < d)%Q) by lra.
  destruct (xToYear_fin m ox oy s viewState Hvs Hs' 160) as [x0 [Hx0 Ex0]].
  destruct (xToYear_fin m ox oy s viewState Hvs Hs' w) as [x1 [Hx1 Ex1]].
  unfold yearMarkers, markerStart, markerEnd.
  change GROUP_LABEL_WIDTH with (Fin 160). rewrite Hw, Hx0, Hx1, Hd.
  rewrite !ndiv_fin by lra. cbn [nfloor nceil]. unfold ofZ. nfin.
  set (y0 := (inject_Z (Qfloor (x0 / d)) * d)%Q).
  set (e0 := (inject_Z (Qceiling (x1 / d)) * d)%Q).
  destruct (steps_bound (e0 - y0) d Hd0) as [fuel0 Hfuel0].
  exists fuel0. intros fuel Hfuel.
  destruct (markerLoop_spec mt m ox oy s w dimensions viewState Hw Hvs e0 d Hd0
              fuel y0 NInf (Hfuel0 fuel Hfuel)) as [ms (E & H1 & H2)].
  exists ms. split; [exact E|]. split.
  - intros mk Hmk. destruct (H1 mk Hmk) as [q [k (A & B & C & D & F)]].
    rewrite A. repeat split; try assumption.
    exists (Qfloor (x0 / d) + Z.of_nat k)%Z. unfold ofZ. nfin. qprop.
    rewrite B, inject_Z_plus. unfold y0. ring.
  - intros k Hin. autorewrite with num_fin in Hin |- *.
    assert (Hx : yearToX (Fin m) viewState (Fin (inject_Z k * d))
                 = Fin ((inject_Z k * d - m) * (s * 10) + ox + 160 + 50)).
    { apply (yearToX_fin m ox oy s viewState Hvs). }
    rewrite Hx in Hin. rewrite (inPlot_fin w dimensions Hw) in Hin.
    apply andb_prop in Hin. destruct Hin as [Hin1 Hin2]. qprop.
    assert (Hk0 : (x0 <= inject_Z k * d)%Q) by nra.
    assert (Hk1 : (inject_Z k * d <= x1)%Q) by nra.
    assert (Hf : (inject_Z (Qfloor (x0 / d)) <= x0 / d)%Q) by apply Qfloor_le.
    assert (Hc : (x1 / d <= inject_Z (Qceiling (x1 / d)))%Q) by apply Qle_ceiling.
    assert (Hk0' : (x0 / d <= inject_Z k)%Q) by (apply Qle_shift_div_r; lra).
    assert (Hk1' : (inject_Z k <= x1 / d)%Q) by (apply Qle_shift_div_l; lra).
    assert (Hz0 : (Qfloor (x0 / d) <= k)%Z) by (rewrite Zle_Qle; lra).
    assert (Hz1 : (k <= Qceiling (x1 / d))%Z) by (rewrite Zle_Qle; lra).
    destruct (H2 (Z.to_nat (k - Qfloor (x0 / d))) (inject_Z k * d)%Q)
      as [mk [q' (A & B & C)]].
    + rewrite Z2Nat.id by lia. unfold y0. unfold Zminus.
      rewrite inject_Z_plus, inject_Z_opp. ring.
    + unfold e0. apply Qmult_le_compat_r; [|lra]. rewrite <- Zle_Qle. exact Hz1.
    + rewrite Hx, (inPlot_fin w dimensions Hw).
      apply andb_true_intro. split; qprop; assumption.
    + exists mk. split; [exact A|]. rewrite B. cbn [neqb]. qprop. exact C.
Qed.

Lemma year_markers_are_the_steps_in_view_witness :
  exists fuel0, forall fuel, (fuel0 <= fuel)%nat ->
    exists markers,
      yearMarkers monoText (minYear sparse) (dimensions sparse) (viewState sparse) fuel
      = Some markers
      /\ (forall mk, In mk markers ->
            isMultiple (yearStep (viewState sparse)) (mk_year mk)
            /\ mk_x mk = yearToX (minYear sparse) (viewState sparse) (mk_year mk)
            /\ inPlot (dimensions sparse) (mk_x mk) = true)
      /\ (forall k : Z,
            inPlot (dimensions sparse)
              (yearToX (minYear sparse) (viewState sparse)
                 (ofZ k * yearStep (viewState sparse))) = true ->
            exists mk, In mk markers
                       /\ mk_year mk == ofZ k * yearStep (viewState sparse)).
Proof.
  apply (year_markers_are_the_steps_in_view monoText (minYear sparse)
           (dimensions sparse) (viewState sparse) 1260).
  - vm_compute. repeat split.
  - reflexivity.
Defined.

(** X20.  The labels of the year markers do not overlap: of two markers
    of a frame that carry a label, the label of the later one starts more
    than 8 pixels after the end of the label of the earlier one; and a
    label is the year, written with "av. J.-C." for a year before 0. *)
Theorem marker_labels_do_not_overlap (mt : string -> string -> num)
    (minYear : num) (dimensions : Dimensions) (viewState : ViewState)
    (fuel : nat) (markers l1 : list Marker) (mk1 : Marker) (l2 : list Marker)
    (mk2 : Marker) (l3 : list Marker) (t1 t2 : string) :
  textWidths mt ->
  yearMarkers mt minYear dimensions viewState fuel = Some markers ->
  markers = l1 ++ mk1 :: l2 ++ mk2 :: l3 ->
  mk_label mk1 = Some t1 ->
  mk_label mk2 = Some t2 ->
  labelRightOf mt mk1 t1 + 8 < labelLeftOf mt mk2 t2
  /\ t1 = markerLabel (mk_year mk1) /\ t2 = markerLabel (mk_year mk2).
Proof.
  intros Hmt E Hsplit E1 E2. unfold yearMarkers in E.
  apply (markerLoop_labels mt Hmt) in E. destruct E as [H1 H2].
  rewrite Hsplit in H1, H2. split.
  - apply FOP_split in H2. now apply H2.
  - rewrite Forall_forall in H1. split.
    + apply (H1 mk1); [|exact E1]. apply in_or_app. right. now left.
    + apply (H1 mk2); [|exact E2]. apply in_or_app. right. right.
      apply in_or_app. right. now left.
Qed.

Lemma marker_labels_do_not_overlap_witness :
  exists markers mk1 mk2,
    yearMarkers monoText (minYear sparse) (dimensions sparse) (viewState sparse) 40
    = Some markers
    /\ nth_error markers 0 = Some mk1 /\ nth_error markers 2 = Some mk2
    /\ labelRightOf monoText mk1 "100 av. J.-C." + 8 < labelLeftOf monoText mk2 "100"
    /\ "100 av. J.-C." = markerLabel (mk_year mk1)
    /\ "100" = markerLabel (mk_year mk2).
Proof.
  let r := eval vm_compute in
    (yearMarkers monoText (minYear sparse) (dimensions sparse) (viewState sparse) 40) in
  match r with
  | Some (?a :: ?b :: ?c :: ?rest) =>
      exists (a :: b :: c :: rest), a, c;
      split; [vm_compute; reflexivity|];
      split; [reflexivity|]; split; [reflexivity|];
      apply (marker_labels_do_not_overlap monoText (minYear sparse)
               (dimensions sparse) (viewState sparse) 40
               (a :: b :: c :: rest) [] a [b] c rest "100 av. J.-C." "100");
      [exact monoText_widths | vm_compute; reflexivity | reflexivity
      | reflexivity | reflexivity]
  end.
Defined.

(** X21.  The selection of the host stays coherent.  When the index of the
    host, if there is one, points in the navigation list at an entry with
    the id of the selected entry, and the canvas has the list and the
    selection of the host as props, then the same holds after navigating
    to an index, after Previous and Next, after any key, after a selection
    by the canvas, after a click on the canvas and after a change of the
    filtered list. *)
Theorem host_selection_stays_coherent (mt : string -> string -> num) (a : App) :
  coherent a ->
  (forall index, coherent (navigateToEntry mt a index))
  /\ coherent (handlePrevEntry mt a)
  /\ coherent (handleNextEntry mt a)
  /\ (forall inSearch k, coherent (handleKeyDown mt a inSearch k))
  /\ (forall entry, coherent (selectEntry a entry))
  /\ (forall rect e, coherent (clickCanvas a rect e))
  /\ (forall es, coherent (setFilteredEntries a es)).
Proof.
  intros Hc.
  split; [intros index; now apply navigateToEntry_coherent|].
  split; [now apply handlePrevEntry_coherent|].
  split; [now apply handleNextEntry_coherent|].
  split; [intros inSearch k; now apply handleKeyDown_coherent|].
  split; [intros entry; now apply selectEntry_coherent|].
  split; [intros rect e; now apply clickCanvas_coherent|].
  intros es. now apply setFilteredEntries_coherent.
Qed.

Lemma host_selection_stays_coherent_witness :
  coherent sparseApp
  /\ coherent (handleNextEntry monoText (handleNextEntry monoText sparseApp))
  /\ selectedIndex (handleNextEntry monoText (handleNextEntry monoText sparseApp))
     = Some 1%Z.
Proof.
  assert (H0 : coherent sparseApp) by (repeat split).
  split; [exact H0|]. split; [|reflexivity].
  destruct (host_selection_stays_coherent monoText sparseApp H0)
    as [_ [_ [H1 _]]].
  destruct (host_selection_stays_coherent monoText _ H1) as [_ [_ [H2 _]]].
  exact H2.
Defined.

(** X22.  Next moves to the following record of the navigation list, and
    Previous undoes it.  The host orders the list by the year of the start
    date, negated when the era is BCE.  When the index of the host points
    at a record of the list, Next selects the record right after it, whose
    year in that order is not earlier, and Previous then selects the first
    record again; on the last record Next changes nothing.  When no BCE
    date of the list is stored with a negative year, the order is the one
    of the years the records are drawn at: the record Next selects is not
    drawn at an earlier year. *)
Theorem next_entry_follows_in_year_order (mt : string -> string -> num)
    (a : App) (i : Z) (e : TimelineEntry) :
  selectedIndex a = Some i ->
  (0 <= i)%Z ->
  nth_error (sortedEntries (filteredEntries a)) (Z.to_nat i) = Some e ->
  match nth_error (sortedEntries (filteredEntries a)) (S (Z.to_nat i)) with
  | Some e' =>
      app_selectedEntry (handleNextEntry mt a) = Some e'
      /\ selectedIndex (handleNextEntry mt a) = Some (i + 1)%Z
      /\ sortYear e <= sortYear e'
      /\ ((forall x, In x (filteredEntries a) ->
             era (date_start x) = CE \/ (0 <= year (date_start x))%Z) ->
          getYear e false <= getYear e' false)
      /\ app_selectedEntry (handlePrevEntry mt (handleNextEntry mt a)) = Some e
      /\ selectedIndex (handlePrevEntry mt (handleNextEntry mt a)) = Some i
  | None => handleNextEntry mt a = a
  end.
Proof.
  intros Hi Hpos He.
  destruct (nth_error (sortedEntries (filteredEntries a)) (S (Z.to_nat i)))
    as [e'|] eqn:En.
  - assert (Hlen : (S (Z.to_nat i) < List.length (sortedEntries (filteredEntries a)))%nat)
      by (apply nth_error_Some; congruence).
    assert (Hnext : handleNextEntry mt a
                    = withSelection a (Some e') (Some (i + 1)%Z)
                        (scrollToEntry mt (canvas a) e')).
    { unfold handleNextEntry. rewrite Hi.
      destruct (Z.ltb_spec i
                  (Z.of_nat (List.length (sortedEntries (filteredEntries a))) - 1))
        as [Hlt|Hge]; [|lia].
      destruct (navigateToEntry_spec mt a (i + 1)) as [Hnav _].
      replace (Z.to_nat (i + 1)) with (S (Z.to_nat i)) in Hnav by lia.
      rewrite En in Hnav. apply Hnav. lia. }
    assert (Hord : sortYear e <= sortYear e').
    { apply (sorted_nth _ _ _ (sortedEntries_sorted (filteredEntries a))
               (Z.to_nat i) (S (Z.to_nat i))); auto. }
    rewrite Hnext.
    split; [reflexivity|]. split; [reflexivity|]. split; [exact Hord|]. split.
    + intros Hdates.
      assert (Hin : forall n x,
                nth_error (sortedEntries (filteredEntries a)) n = Some x ->
                In x (filteredEntries a)).
      { intros n x Hx.
        assert (Hp : Permutation (sortedEntries (filteredEntries a)) (filteredEntries a))
          by apply jsSort_perm.
        apply (Permutation_in _ Hp). eapply nth_error_In; exact Hx. }
      rewrite <- (sortYear_getYear e (Hdates e (Hin _ _ He))).
      rewrite <- (sortYear_getYear e' (Hdates e' (Hin _ _ En))).
      exact Hord.
    + unfold handlePrevEntry. cbn [withSelection selectedIndex].
      destruct (Z.gtb_spec (i + 1) 0) as [Hgt|Hle]; [|lia].
      destruct (navigateToEntry_spec mt
                  (withSelection a (Some e') (Some (i + 1)%Z)
                     (scrollToEntry mt (canvas a) e')) (i + 1 - 1)) as [Hnav _].
      cbn [withSelection filteredEntries] in Hnav.
      replace (i + 1 - 1)%Z with i in * by lia.
      rewrite He in Hnav. rewrite Hnav by lia. split; reflexivity.
  - assert (Hlen : (List.length (sortedEntries (filteredEntries a)) <= S (Z.to_nat i))%nat)
      by (now apply nth_error_None).
    unfold handleNextEntry. rewrite Hi.
    destruct (Z.ltb_spec i
                (Z.of_nat (List.length (sortedEntries (filteredEntries a))) - 1))
      as [Hlt|Hge]; [lia|reflexivity].
Qed.

Lemma next_entry_follows_in_year_order_witness :
  let a := handleNextEntry monoText sparseApp in
  app_selectedEntry (handleNextEntry monoText a) = Some (pointEntry "e1000" 1000 "B")
  /\ selectedIndex (handleNextEntry monoText a) = Some (0 + 1)%Z
  /\ sortYear (pointEntry "e0" 0 "A") <= sortYear (pointEntry "e1000" 1000 "B")
  /\ getYear (pointEntry "e0" 0 "A") false <= getYear (pointEntry "e1000" 1000 "B") false
  /\ app_selectedEntry (handlePrevEntry monoText (handleNextEntry monoText a))
     = Some (pointEntry "e0" 0 "A")
  /\ selectedIndex (handlePrevEntry monoText (handleNextEntry monoText a)) = Some 0%Z.
Proof.
  cbn zeta.
  destruct (next_entry_follows_in_year_order monoText
              (handleNextEntry monoText sparseApp) 0 (pointEntry "e0" 0 "A")
              eq_refl ltac:(lia) eq_refl) as [H1 [H2 [H3 [H4 [H5 H6]]]]].
  split; [exact H1|]. split; [exact H2|]. split; [exact H3|].
  split; [|split; [exact H5|exact H6]].
  apply H4. intros x Hx. left.
  revert Hx. cbn. intros [<-|[<-|[<-|[]]]]; reflexivity.
Defined.

(** X23.  The tag cloud counts tags.  [allTags] lists every tag carried by
    an entry that passes the importance filter exactly once, with the
    number of times such entries carry it, and lists no other tag; the
    tags come by decreasing count. *)
Theorem allTags_counts_tags (timelineEntries : list TaggedEntry) (minImportance : nat) :
  NoDup (map fst (allTags timelineEntries minImportance))
  /\ (forall t n,
        In (t, n) (allTags timelineEntries minImportance)
        <-> n = occurrences timelineEntries minImportance t /\ (0 < n)%nat)
  /\ StronglySorted (fun x y => (snd y <= snd x)%nat)
       (allTags timelineEntries minImportance).
Proof.
  pose proof (countEntries_countsOf minImportance timelineEntries [] []) as H.
  cbn [app] in H. fold (occurrences timelineEntries minImportance) in H.
  destruct H as [Hnd Hget].
  { split; [constructor|]. intros t. reflexivity. }
  set (m := fold_left (countEntry minImportance) timelineEntries []) in *.
  assert (Hp : Permutation (allTags timelineEntries minImportance) m)
    by apply jsSort_perm.
  split; [|split].
  - apply (Permutation_NoDup (l := map fst m)); [|exact Hnd].
    apply Permutation_map. now apply Permutation_sym.
  - intros t n. split.
    + intros Hin. apply (Permutation_in _ Hp) in Hin.
      apply (map_get_In _ _ _ _ Hnd) in Hin. rewrite Hget in Hin.
      unfold occurrences.
      destruct (Nat.eqb_spec
                  (count_occ string_dec
                     (flat_map tagsOf
                        (filter (importantEnough minImportance) timelineEntries)) t) 0);
        [discriminate|]. injection Hin as <-. split; [reflexivity|lia].
    + intros [-> Hn]. apply (Permutation_in _ (Permutation_sym Hp)).
      apply map_get_Some_In. rewrite Hget. unfold occurrences in *.
      destruct (Nat.eqb_spec
                  (count_occ string_dec
                     (flat_map tagsOf
                        (filter (importantEnough minImportance) timelineEntries)) t) 0);
        [lia|reflexivity].
  - apply (StronglySorted_impl _
             (fun x y =>
                (- inject_Z (Z.of_nat (snd x)) <= - inject_Z (Z.of_nat (snd y)))%Q)).
    + intros x y Hxy.
      assert (Hyx : (inject_Z (Z.of_nat (snd y)) <= inject_Z (Z.of_nat (snd x)))%Q)
        by lra.
      rewrite <- Zle_Qle in Hyx. lia.
    + apply (jsSort_sorted (string * nat)
               (fun a b => ofNat (snd b) - ofNat (snd a))
               (fun x => (- inject_Z (Z.of_nat (snd x)))%Q)).
      intros a b. cbn. apply eq_true_iff_eq. split; intros Hab; qprop; lra.
Qed.

(** X24.  Toggling a tag flips that tag only, and toggling it twice gives
    the active tags back: after [toggleTag] the tag is active exactly when
    it was not, every other tag is active exactly when it was, and a
    second [toggleTag] restores the membership of every tag. *)
Theorem toggleTag_flips_one_tag (tag : string) (activeTags : list string) :
  NoDup activeTags ->
  NoDup (toggleTag tag activeTags)
  /\ (forall t,
        set_mem string_dec t (toggleTag tag activeTags)
        = if String.eqb t tag then negb (set_mem string_dec t activeTags)
          else set_mem string_dec t activeTags)
  /\ (forall t,
        set_mem string_dec t (toggleTag tag (toggleTag tag activeTags))
        = set_mem string_dec t activeTags).
Proof.
  intros Hnd.
  assert (Hmem : forall l t, NoDup l ->
            set_mem string_dec t (toggleTag tag l)
            = if String.eqb t tag then negb (set_mem string_dec t l)
              else set_mem string_dec t l).
  { intros l t Hl. unfold toggleTag.
    destruct (set_mem string_dec tag l) eqn:Etag.
    - apply eq_true_iff_eq. destruct (String.eqb_spec t tag) as [->|Hne].
      + rewrite Etag. cbn. split; [|discriminate]. intros H.
        apply set_mem_correct1 in H. apply set_remove_iff in H; [|exact Hl].
        tauto.
      + split; intros H.
        * apply set_mem_correct1 in H. apply set_remove_iff in H; [|exact Hl].
          apply set_mem_correct2. tauto.
        * apply set_mem_correct1 in H. apply set_mem_correct2.
          apply set_remove_iff; [exact Hl|]. tauto.
    - apply eq_true_iff_eq. destruct (String.eqb_spec t tag) as [->|Hne].
      + rewrite Etag. cbn. split; [reflexivity|]. intros _.
        apply set_mem_correct2. apply set_add_iff. now left.
      + split; intros H.
        * apply set_mem_correct1 in H. apply set_add_iff in H.
          apply set_mem_correct2. tauto.
        * apply set_mem_correct1 in H. apply set_mem_correct2.
          apply set_add_iff. tauto. }
  assert (Hnd' : NoDup (toggleTag tag activeTags)).
  { unfold toggleTag. destruct (set_mem string_dec tag activeTags).
    - now apply set_remove_nodup.
    - now apply set_add_nodup. }
  split; [exact Hnd'|]. split; [intros t; now apply Hmem|].
  intros t. rewrite (Hmem _ t Hnd'), (Hmem _ t Hnd).
  destruct (String.eqb t tag); [apply negb_involutive|reflexivity].
Qed.

Lemma toggleTag_flips_one_tag_witness :
  NoDup (toggleTag "roi" ["guerre"; "roi"])
  /\ toggleTag "roi" ["guerre"; "roi"] = ["guerre"]
  /\ toggleTag "roi" (toggleTag "roi" ["guerre"; "roi"]) = ["guerre"; "roi"].
Proof.
  split; [|split; reflexivity].
  apply (toggleTag_flips_one_tag "roi" ["guerre"; "roi"]).
  repeat constructor; cbn; intuition discriminate.
Defined.

(** X25.  A change of the filters keeps the selection when the selected
    entry is still listed, and clears it otherwise.  After the filtered
    list changes: if it holds an entry with the id of the selected entry,
    that entry stays selected and the index points at an entry of that id
    in the new navigation list; if it holds none, the selected entry and
    the index are cleared, for the canvas too. *)
Theorem filter_change_keeps_listed_selection (a : App) (es : list TimelineEntry)
    (s : TimelineEntry) :
  app_selectedEntry a = Some s ->
  let a' := setFilteredEntries a es in
  filteredEntries a' = es
  /\ ((exists e, In e es /\ id e = id s) ->
      app_selectedEntry a' = Some s
      /\ exists i e, selectedIndex a' = Some (Z.of_nat i)
                     /\ nth_error (sortedEntries es) i = Some e /\ id e = id s)
  /\ ((forall e, In e es -> id e <> id s) ->
      app_selectedEntry a' = None /\ selectedIndex a' = None
      /\ selectedEntry (canvas a') = None).
Proof.
  intros Hsel. cbn zeta. unfold setFilteredEntries, resyncSelection.
  cbn [app_selectedEntry filteredEntries]. rewrite Hsel.
  assert (Hperm : Permutation (sortedEntries es) es) by apply jsSort_perm.
  destruct (indexOfId (id s) (sortedEntries es) >=? 0)%Z eqn:Ei.
  - destruct (indexOfId_found _ _ Ei) as [e [Hpos [Hn Hid]]].
    cbn [filteredEntries app_selectedEntry selectedIndex canvas].
    split; [reflexivity|]. split.
    + intros _. split; [reflexivity|].
      exists (Z.to_nat (indexOfId (id s) (sortedEntries es))), e.
      rewrite Z2Nat.id by exact Hpos. auto.
    + intros Hno. exfalso. apply (Hno e); [|exact Hid].
      apply (Permutation_in _ Hperm). eapply nth_error_In; eauto.
  - unfold withSelection.
    cbn [filteredEntries app_selectedEntry selectedIndex canvas select selectedEntry].
    split; [reflexivity|]. split.
    + intros [e [He Hid]]. exfalso.
      apply (Permutation_in _ (Permutation_sym Hperm)) in He.
      rewrite (indexOfId_In _ _ _ He Hid) in Ei. discriminate Ei.
    + intros _. auto.
Qed.

Lemma filter_change_keeps_listed_selection_witness :
  let a := handleNextEntry monoText sparseApp in
  app_selectedEntry a = Some (pointEntry "e0" 0 "A")
  /\ app_selectedEntry (setFilteredEntries a [pointEntry "e1000" 1000 "B"]) = None
  /\ selectedIndex (setFilteredEntries a [pointEntry "e1000" 1000 "B"]) = None
  /\ selectedEntry (canvas (setFilteredEntries a [pointEntry "e1000" 1000 "B"])) = None.
Proof.
  cbn zeta. split; [reflexivity|].
  destruct (filter_change_keeps_listed_selection
              (handleNextEntry monoText sparseApp)
              [pointEntry "e1000" 1000 "B"] (pointEntry "e0" 0 "A") eq_refl)
    as [_ [_ Hclear]].
  apply Hclear. intros e [<-|[]]. cbn. discriminate.
Defined.

(** X26.  Year markers keep their distance.  At more than 2 pixels a year
    (a scale above 0.2) two consecutive year markers are more than 100
    pixels apart, and up to 20 pixels a year they are at most 250 pixels
    apart. *)
Theorem year_markers_keep_their_distance (minYear : num) (viewState : ViewState)
    (m ox oy s yr : Q) :
  minYear = Fin m ->
  viewState = {| offsetX := Fin ox; offsetY := Fin oy; scale := Fin s |} ->
  (2 < s * 10)%Q ->
  exists gap,
    yearToX minYear viewState (Fin yr + yearStep viewState)
    - yearToX minYear viewState (Fin yr) = Fin gap
    /\ (100 < gap)%Q
    /\ ((s * 10 <= 20)%Q -> (gap <= 250)%Q).
Proof.
  intros -> -> Hs. unfold yearStep, yearToX. cbn [scale offsetX]. consts. nfin.
  qcases; qprop; nfin; eexists; (split; [reflexivity|]); split; intros; nra.
Qed.

Lemma year_markers_keep_their_distance_witness :
  exists gap,
    yearToX (minYear compact) (viewState compact) (100 + yearStep (viewState compact))
    - yearToX (minYear compact) (viewState compact) 100 = Fin gap
    /\ (100 < gap)%Q
    /\ ((1000 # 2000) * 10 <= 20 -> gap <= 250)%Q.
Proof.
  apply (year_markers_keep_their_distance (minYear compact) (viewState compact)
           0 0 0 (1000 # 2000) 100); reflexivity.
Defined.
